(** * The HashMap and Set containers: model and verified properties

    The two class templates of the repository are embedded as functions on
    explicit states.

    - [hash_map]: [HashMap<KeyType, ValueType, Hash>] of [hash_map.cpp], an
      open-addressing table ([pointers], [states]) over a [std::list] of
      records ([values]).
    - [avl_set]: [Set<ValueType>] with its [Node] and [SetIterator], a
      height-balanced search tree with parent links.

    Conventions shared by both models.

    - A piece of code evaluates to a [result]: [Ok] with its value,
      [Undefined] when the C++ program would have undefined behaviour (a null
      or dangling pointer dereferenced, an index out of range, a division by
      zero), [OutOfFuel] when a loop did not finish within the number of
      iterations it was allowed.  A loop that is [OutOfFuel] for every amount
      of fuel never terminates.
    - Heap cells are named by addresses ([addr]).  The address a [new] (or a
      [std::list] insertion) returns is taken from a counter kept next to the
      container; it is the only component of a state that is not a field of
      the class.  The proofs use of it only that the address of a new cell is
      not the address of a cell in use.
    - [size_t] quantities (heights, counters, capacities, slot indices) are
      natural numbers: a container whose counters reach [2^64] does not fit
      the address space, so no execution wraps around.  The one computation
      that mixes [int] and [size_t], [Node::get_balance], is compared with
      its machine arithmetic in [avl_set_facts.get_balance_machine]. *)

From stdpp Require Import base list numbers sets sorting.
From Equations Require Import Equations.

Inductive result (A : Type) : Type :=
  | Ok (a : A)
  | Undefined
  | OutOfFuel.
Arguments Ok {A} a.
Arguments Undefined {A}.
Arguments OutOfFuel {A}.

#[global] Instance result_ret : MRet result := @Ok.
#[global] Instance result_bind : MBind result := fun A B f m =>
  match m with
  | Ok a => f a
  | Undefined => Undefined
  | OutOfFuel => OutOfFuel
  end.

(** [for (auto& x : l) s = f(s, x)]: a range-for whose body may fail. *)
Fixpoint for_each {A S : Type} (f : S → A → result S) (l : list A) (s : S)
  : result S :=
  match l with
  | [] => Ok s
  | x :: l' => s' ← f s x; for_each f l' s'
  end.

Definition addr := nat.

(** ** hash_map.cpp *)
Module hash_map.

Inductive slot_state := STATE_EMPTY | STATE_FILLED | STATE_ERASED.

#[global] Instance slot_state_eq_dec : EqDecision slot_state.
Proof. solve_decision. Defined.

Definition OCCUPANCY_COEFFICIENT : nat := 4.
Definition INITIAL_SIZE : nat := 8.

(** What [at] does when it finishes: it returns the mapped value or throws
    [std::out_of_range]. *)
Inductive at_outcome (V : Type) : Type :=
  | at_returns (v : V)
  | at_throws_out_of_range.
Arguments at_returns {V} v.
Arguments at_throws_out_of_range {V}.

Section HashMap.
Context {KeyType ValueType : Type} `{EqDecision KeyType}.

(** A [Hash] object is the function its call operator computes. *)
Definition Hash : Type := KeyType → nat.

(** A node of [std::list<std::pair<const KeyType, ValueType>>]: its address
    (what a list iterator holds) and the pair. *)
Definition record : Type := addr * (KeyType * ValueType).

Record HashMap : Type := mkHashMap {
  hash : Hash;
  pointers : list (option addr);   (* vector of list iterators; None: singular *)
  values : list record;
  states : list slot_state;
  occupancy : nat;
  next_node : addr                 (* the address the next list node gets *)
}.

(** [*it] for a list iterator; [None] when [it] is not a node of the list. *)
Fixpoint deref (l : list record) (it : addr) : option (KeyType * ValueType) :=
  match l with
  | [] => None
  | (a, kv) :: l' => if decide (a = it) then Some kv else deref l' it
  end.

(** [values.erase(it)]; [None] when [it] is not a node of the list. *)
Fixpoint list_erase (l : list record) (it : addr) : option (list record) :=
  match l with
  | [] => None
  | (a, kv) :: l' =>
      if decide (a = it) then Some l'
      else l'' ← list_erase l' it; Some ((a, kv) :: l'')
  end.

(** [++position; if (position >= size) position = 0;] *)
Definition advance (size position : nat) : nat :=
  if decide (size ≤ S position) then 0 else S position.

(** [h % size] *)
Definition slot_of (h size : nat) : result nat :=
  if decide (size = 0) then Undefined else Ok (h mod size).

Definition state_at (m : HashMap) (position : nat) : result slot_state :=
  match states m !! position with
  | Some s => Ok s
  | None => Undefined
  end.

(** [pointers[position]] as an iterator that can be dereferenced *)
Definition pointer_at (m : HashMap) (position : nat) : result addr :=
  match pointers m !! position with
  | Some (Some it) => Ok it
  | _ => Undefined
  end.

(** [*pointers[position]] *)
Definition record_at (m : HashMap) (position : nat)
  : result (KeyType * ValueType) :=
  it ← pointer_at m position;
  match deref (values m) it with
  | Some kv => Ok kv
  | None => Undefined
  end.

(** The constructor [HashMap(Hash hash)]. *)
Definition HashMap_new (h : Hash) : HashMap :=
  {| hash := h;
     pointers := replicate INITIAL_SIZE None;
     values := [];
     states := replicate INITIAL_SIZE STATE_EMPTY;
     occupancy := 0;
     next_node := 0 |}.

(** The sequence a loop from [begin()] to [end()] visits: [begin] and [end]
    are those of [values]. *)
Definition iteration (m : HashMap) : list (KeyType * ValueType) :=
  snd <$> values m.

Definition size (m : HashMap) : nat := length (values m).
Definition empty (m : HashMap) : bool := bool_decide (values m = []).
Definition hash_function (m : HashMap) : Hash := hash m.

(** *** check_size *)

(** The probe loop of [check_size]: [while (states[position] == STATE_FILLED)]. *)
Fixpoint rehash_loop (fuel size : nat) (sts : list slot_state) (position : nat)
  : result nat :=
  match fuel with
  | 0 => OutOfFuel
  | S fuel' =>
      match sts !! position with
      | None => Undefined
      | Some s =>
          if decide (s = STATE_FILLED)
          then rehash_loop fuel' size sts (advance size position)
          else Ok position
      end
  end.

(** The body of [for (auto it = begin(); it != end(); ++it)] in [check_size],
    on the locals [new_pointers], [states] and [occupancy]. *)
Definition rehash_step (fuel : nat) (h : Hash)
    (acc : list (option addr) * list slot_state * nat) (it : record)
  : result (list (option addr) * list slot_state * nat) :=
  let '(new_pointers, sts, _) := acc in
  start ← slot_of (h it.2.1) (length new_pointers);
  position ← rehash_loop fuel (length new_pointers) sts start;
  if decide (length new_pointers ≤ position) then Undefined
  else Ok (<[position := Some it.1]> new_pointers,
           <[position := STATE_FILLED]> sts,
           0).

(** [alloc_ok] tells whether the allocations of the [try] block succeed; when
    they do not, the [catch (std::bad_alloc)] leaves the table as it was. *)
Definition check_size (alloc_ok : bool) (fuel : nat) (m : HashMap)
  : result HashMap :=
  if decide (length (pointers m) ≤ occupancy m * OCCUPANCY_COEFFICIENT) then
    if alloc_ok then
      let new_pointers := replicate (length (pointers m) * 2) None in
      let sts := replicate (length new_pointers) STATE_EMPTY in
      '(new_pointers', sts', occupancy') ←
        for_each (rehash_step fuel (hash m)) (values m)
                 (new_pointers, sts, occupancy m);
      Ok {| hash := hash m;
            pointers := new_pointers';
            values := values m;
            states := sts';
            occupancy := occupancy';
            next_node := next_node m |}
    else Ok m
  else Ok m.

(** *** insert *)

(** The probe loop of [insert].  [Ok None]: the [return] inside the loop was
    taken (the key is there); [Ok (Some position)]: the loop ended at
    [position]. *)
Fixpoint insert_loop (fuel : nat) (m : HashMap) (key : KeyType) (position : nat)
  : result (option nat) :=
  match fuel with
  | 0 => OutOfFuel
  | S fuel' =>
      s ← state_at m position;
      if decide (s = STATE_FILLED) then
        kv ← record_at m position;
        if decide (kv.1 = key) then Ok None
        else insert_loop fuel' m key (advance (length (pointers m)) position)
      else Ok (Some position)
  end.

(** The four statements that end [insert] and the [if] body of [operator[]]:
    append the pair to [values], point the slot to it, count it if the slot
    was empty, mark the slot filled. *)
Definition fill_slot (m : HashMap) (pair : KeyType * ValueType) (position : nat)
  : result HashMap :=
  if decide (length (pointers m) ≤ position) then Undefined
  else
    s ← state_at m position;
    Ok {| hash := hash m;
          pointers := <[position := Some (next_node m)]> (pointers m);
          values := values m ++ [(next_node m, pair)];
          states := <[position := STATE_FILLED]> (states m);
          occupancy := if decide (s = STATE_EMPTY) then S (occupancy m)
                       else occupancy m;
          next_node := S (next_node m) |}.

Definition insert (alloc_ok : bool) (fuel : nat) (pair : KeyType * ValueType)
    (m : HashMap) : result HashMap :=
  m1 ← check_size alloc_ok fuel m;
  start ← slot_of (hash m1 pair.1) (length (pointers m1));
  r ← insert_loop fuel m1 pair.1 start;
  match r with
  | None => Ok m1
  | Some position => fill_slot m1 pair position
  end.

(** *** operator[], at, erase, find *)

(** The probe loop that [operator[]], [at], [erase] and both [find] share:
    [while (states[position] == STATE_ERASED ||
            (states[position] == STATE_FILLED &&
             !(pointers[position]->first == key)))]. *)
Fixpoint lookup_loop (fuel : nat) (m : HashMap) (key : KeyType) (position : nat)
  : result nat :=
  match fuel with
  | 0 => OutOfFuel
  | S fuel' =>
      s ← state_at m position;
      match s with
      | STATE_ERASED =>
          lookup_loop fuel' m key (advance (length (pointers m)) position)
      | STATE_FILLED =>
          kv ← record_at m position;
          if decide (kv.1 = key) then Ok position
          else lookup_loop fuel' m key (advance (length (pointers m)) position)
      | STATE_EMPTY => Ok position
      end
  end.

Context (default_value : ValueType).   (* ValueType() *)

(** [operator[]]: the table afterwards and the value the returned reference
    refers to. *)
Definition index (alloc_ok : bool) (fuel : nat) (key : KeyType) (m : HashMap)
  : result (HashMap * ValueType) :=
  m1 ← check_size alloc_ok fuel m;
  start ← slot_of (hash m1 key) (length (pointers m1));
  position ← lookup_loop fuel m1 key start;
  s ← state_at m1 position;
  m2 ← (if decide (s = STATE_FILLED) then Ok m1
        else fill_slot m1 (key, default_value) position);
  kv ← record_at m2 position;
  Ok (m2, kv.2).

Definition at_ (fuel : nat) (key : KeyType) (m : HashMap)
  : result (at_outcome ValueType) :=
  start ← slot_of (hash m key) (length (pointers m));
  position ← lookup_loop fuel m key start;
  s ← state_at m position;
  if decide (s = STATE_FILLED) then
    kv ← record_at m position;
    Ok (at_returns kv.2)
  else Ok at_throws_out_of_range.

Definition erase (fuel : nat) (key : KeyType) (m : HashMap) : result HashMap :=
  start ← slot_of (hash m key) (length (pointers m));
  position ← lookup_loop fuel m key start;
  s ← state_at m position;
  if decide (s = STATE_FILLED) then
    it ← pointer_at m position;
    match list_erase (values m) it with
    | None => Undefined
    | Some values' =>
        Ok {| hash := hash m;
              pointers := pointers m;
              values := values';
              states := <[position := STATE_ERASED]> (states m);
              occupancy := occupancy m;
              next_node := next_node m |}
    end
  else Ok m.

(** [find]: [None] is [end()], [Some it] the iterator stored in the slot. *)
Definition find (fuel : nat) (key : KeyType) (m : HashMap)
  : result (option addr) :=
  start ← slot_of (hash m key) (length (pointers m));
  position ← lookup_loop fuel m key start;
  s ← state_at m position;
  if decide (s = STATE_FILLED) then
    it ← pointer_at m position;
    Ok (Some it)
  else Ok None.

(** *** clear *)

(** The inner loop of [clear]:
    [while (states[position] != STATE_EMPTY) { states[position] = STATE_EMPTY; ... }] *)
Fixpoint clear_loop (fuel size : nat) (sts : list slot_state) (position : nat)
  : result (list slot_state) :=
  match fuel with
  | 0 => OutOfFuel
  | S fuel' =>
      match sts !! position with
      | None => Undefined
      | Some s =>
          if decide (s = STATE_EMPTY) then Ok sts
          else clear_loop fuel' size (<[position := STATE_EMPTY]> sts)
                          (advance size position)
      end
  end.

Definition clear_step (fuel : nat) (h : Hash) (size : nat)
    (sts : list slot_state) (pair : record) : result (list slot_state) :=
  start ← slot_of (h pair.2.1) size;
  clear_loop fuel size sts start.

Definition clear (fuel : nat) (m : HashMap) : result HashMap :=
  sts ← for_each (clear_step fuel (hash m) (length (pointers m)))
                 (values m) (states m);
  Ok {| hash := hash m;
        pointers := pointers m;
        values := [];
        states := sts;
        occupancy := 0;
        next_node := next_node m |}.

(** *** Copy constructor and copy assignment *)

(** [HashMap(const HashMap& other, Hash hash)]. *)
Definition HashMap_copy (alloc_ok : bool) (fuel : nat) (other : HashMap)
    (h : Hash) : result HashMap :=
  for_each (λ m pair, insert alloc_ok fuel pair.2 m) (values other)
           (HashMap_new h).

(** [HashMap(InputIt first, InputIt last, Hash hash)] and
    [HashMap(std::initializer_list<...> init, Hash hash)]: the pairs of the
    range, inserted one after the other into a new table. *)
Definition HashMap_from (alloc_ok : bool) (fuel : nat)
    (pairs : list (KeyType * ValueType)) (h : Hash) : result HashMap :=
  for_each (λ m pair, insert alloc_ok fuel pair m) pairs (HashMap_new h).

(** [operator=] when [this != &other]. *)
Definition assign (alloc_ok : bool) (fuel : nat) (other m : HashMap)
  : result HashMap :=
  m1 ← clear fuel m;
  for_each (λ m pair, insert alloc_ok fuel pair.2 m) (values other) m1.

(** *** Sequences of mutating calls *)

Inductive op : Type :=
  | op_insert (key : KeyType) (value : ValueType)
  | op_index (key : KeyType)
  | op_erase (key : KeyType)
  | op_clear.

(** One public mutating call on a machine whose allocations succeed. *)
Definition step (fuel : nat) (m : HashMap) (o : op) : result HashMap :=
  match o with
  | op_insert key value => insert true fuel (key, value) m
  | op_index key => '(m', _) ← index true fuel key m; Ok m'
  | op_erase key => erase fuel key m
  | op_clear => clear fuel m
  end.

Definition run (fuel : nat) (ops : list op) (m : HashMap) : result HashMap :=
  for_each (step fuel) ops m.

End HashMap.

End hash_map.
(** ** The Set container *)
Module avl_set.

Section Set_.
Context {ValueType : Type}.
Context (less : ValueType → ValueType → bool).   (* operator< of ValueType *)

(** A [Node*]: [nullptr], or the address [self] of a node together with the
    fields of that node.  [left] and [right] own the nodes they point to, so
    they are the subtrees themselves; [parent] does not own what it points
    to, so it is an address ([None] for [nullptr]). *)
Inductive Node_ptr : Type :=
  | nullptr
  | Node (self : addr) (left right : Node_ptr) (parent : option addr)
         (value : ValueType) (height : nat).

Definition is_null (p : Node_ptr) : bool :=
  match p with
  | nullptr => true
  | Node _ _ _ _ _ _ => false
  end.

(** The pointer itself, as a value that can be stored and compared. *)
Definition addr_of (p : Node_ptr) : option addr :=
  match p with
  | nullptr => None
  | Node self _ _ _ _ _ => Some self
  end.

(** [p == nullptr ? 0 : p->height] *)
Definition height_or_0 (p : Node_ptr) : nat :=
  match p with
  | nullptr => 0
  | Node _ _ _ _ _ height => height
  end.

(** [if (p != nullptr) p->parent = q;] *)
Definition set_parent (p : Node_ptr) (q : option addr) : Node_ptr :=
  match p with
  | nullptr => nullptr
  | Node self l r _ value height => Node self l r q value height
  end.

(** Number of nodes a pointer owns. *)
Fixpoint nodes (p : Node_ptr) : nat :=
  match p with
  | nullptr => 0
  | Node _ l r _ _ _ => S (nodes l + nodes r)
  end.

(** *** struct Node *)

(** [if (child != nullptr) height = std::max(height, child->height + 1);] *)
Definition max_with_child (child : Node_ptr) (height : nat) : nat :=
  match child with
  | nullptr => height
  | Node _ _ _ _ _ child_height => Nat.max height (child_height + 1)
  end.

Definition update_height (node : Node_ptr) : Node_ptr :=
  match node with
  | nullptr => nullptr
  | Node self l r parent value _ =>
      Node self l r parent value
           (max_with_child r (max_with_child l 1))
  end.

Definition get_balance (node : Node_ptr) : result Z :=
  match node with
  | nullptr => Undefined
  | Node _ l r _ _ _ =>
      Ok (Z.of_nat (height_or_0 l) - Z.of_nat (height_or_0 r))%Z
  end.

(** [Node::equal]: [!(val < value) && !(value < val)] for a node holding
    [value]. *)
Definition equal (value val : ValueType) : bool :=
  negb (less val value) && negb (less value val).

(** *** Rotations *)

Definition rotate_left (a : Node_ptr) : result Node_ptr :=
  match a with
  | Node a_self l (Node b_self m n _ b_value b_height)
         a_parent a_value a_height =>
      let a' := update_height
                  (Node a_self l (set_parent m (Some a_self)) (Some b_self)
                        a_value a_height) in
      Ok (update_height (Node b_self a' n a_parent b_value b_height))
  | _ => Undefined
  end.

Definition rotate_right (a : Node_ptr) : result Node_ptr :=
  match a with
  | Node a_self (Node b_self l m _ b_value b_height) n
         a_parent a_value a_height =>
      let a' := update_height
                  (Node a_self (set_parent m (Some a_self)) n (Some b_self)
                        a_value a_height) in
      Ok (update_height (Node b_self l a' a_parent b_value b_height))
  | _ => Undefined
  end.

Definition big_rotate_left (a : Node_ptr) : result Node_ptr :=
  match a with
  | nullptr => Undefined
  | Node self l r parent value height =>
      r' ← rotate_right r;
      rotate_left (Node self l r' parent value height)
  end.

Definition big_rotate_right (a : Node_ptr) : result Node_ptr :=
  match a with
  | nullptr => Undefined
  | Node self l r parent value height =>
      l' ← rotate_left l;
      rotate_right (Node self l' r parent value height)
  end.

Definition balance_node (node : Node_ptr) : result Node_ptr :=
  balance ← get_balance node;
  match node with
  | nullptr => Undefined
  | Node _ l r _ _ _ =>
      if decide (balance = (-2)%Z) then
        right_balance ← get_balance r;
        if decide (right_balance = 1%Z) then big_rotate_left node
        else rotate_left node
      else if decide (balance = 2%Z) then
        left_balance ← get_balance l;
        if decide (left_balance = (-1)%Z) then big_rotate_right node
        else rotate_right node
      else Ok node
  end.

(** *** insert_value *)

(** [fresh] is the address [new Node(value)] returns if it is called;
    [num] is the member [num_values], passed through. *)
Fixpoint insert_value (node : Node_ptr) (value : ValueType)
    (parent : option addr) (fresh : addr) (num : nat)
  : result (Node_ptr * nat) :=
  match node with
  | nullptr => Ok (Node fresh nullptr nullptr parent value 1, S num)
  | Node self l r node_parent node_value height =>
      if equal node_value value then Ok (node, num)
      else if less value node_value then
        '(l', num') ← insert_value l value (Some self) fresh num;
        node' ← balance_node
                  (update_height
                     (Node self l' r node_parent node_value height));
        Ok (node', num')
      else
        '(r', num') ← insert_value r value (Some self) fresh num;
        node' ← balance_node
                  (update_height
                     (Node self l r' node_parent node_value height));
        Ok (node', num')
  end.

(** *** erase_value *)

(** [near = p; while (near->left != nullptr) near = near->left;] then
    [near->value], respectively [near->value = x]. *)
Fixpoint leftmost_value (p : Node_ptr) : option ValueType :=
  match p with
  | nullptr => None
  | Node _ nullptr _ _ value _ => Some value
  | Node _ l _ _ _ _ => leftmost_value l
  end.

Fixpoint set_leftmost_value (p : Node_ptr) (x : ValueType) : Node_ptr :=
  match p with
  | nullptr => nullptr
  | Node self nullptr r parent _ height =>
      Node self nullptr r parent x height
  | Node self l r parent value height =>
      Node self (set_leftmost_value l x) r parent value height
  end.

Fixpoint rightmost_value (p : Node_ptr) : option ValueType :=
  match p with
  | nullptr => None
  | Node _ _ nullptr _ value _ => Some value
  | Node _ _ r _ _ _ => rightmost_value r
  end.

Fixpoint set_rightmost_value (p : Node_ptr) (x : ValueType) : Node_ptr :=
  match p with
  | nullptr => nullptr
  | Node self l nullptr parent _ height =>
      Node self l nullptr parent x height
  | Node self l r parent value height =>
      Node self l (set_rightmost_value r x) parent value height
  end.

Lemma nodes_set_leftmost_value p x : nodes (set_leftmost_value p x) = nodes p.
Proof.
  induction p as [|self l IHl r IHr parent v h]; [done|].
  destruct l; simpl in *; lia.
Qed.

Lemma nodes_set_rightmost_value p x : nodes (set_rightmost_value p x) = nodes p.
Proof.
  induction p as [|self l IHl r IHr parent v h]; [done|].
  destruct r; simpl in *; lia.
Qed.

(** The recursive calls after a [std::swap] run on the subtree whose nearest
    node has received the value to erase; the subtree has as many nodes as
    before, which is why the recursion ends. *)
Equations? erase_value (node : Node_ptr) (value : ValueType) (num : nat)
  : result (Node_ptr * nat) by wf (nodes node) lt :=
  erase_value nullptr value num := Ok (nullptr, num);
  erase_value (Node self l r parent node_value height) value num :=
    if equal node_value value then
      if is_null l && is_null r then Ok (nullptr, num - 1)
      else if is_null l
              || (negb (is_null r)
                  && bool_decide (height_or_0 l < height_or_0 r)) then
        match leftmost_value r with
        | None => Undefined
        | Some near_value =>
            '(r', num') ←
              erase_value (set_leftmost_value r node_value) value num;
            node' ← balance_node
                      (update_height
                         (Node self l r' parent near_value height));
            Ok (node', num')
        end
      else
        match rightmost_value l with
        | None => Undefined
        | Some near_value =>
            '(l', num') ←
              erase_value (set_rightmost_value l node_value) value num;
            node' ← balance_node
                      (update_height
                         (Node self l' r parent near_value height));
            Ok (node', num')
        end
    else if less value node_value then
      '(l', num') ← erase_value l value num;
      node' ← balance_node
                (update_height (Node self l' r parent node_value height));
      Ok (node', num')
    else
      '(r', num') ← erase_value r value num;
      node' ← balance_node
                (update_height (Node self l r' parent node_value height));
      Ok (node', num').
Proof.
  all: simpl; rewrite ?nodes_set_leftmost_value, ?nodes_set_rightmost_value; lia.
Qed.

(** *** class Set *)

Record Set_ : Type := mkSet {
  root : Node_ptr;
  first_node : option addr;
  num_values : nat;
  next_addr : addr                 (* the address the next [new Node] gets *)
}.

Definition Set_new : Set_ :=
  {| root := nullptr; first_node := None; num_values := 0; next_addr := 0 |}.

(** [first_node = root; while (first_node->left != nullptr) ...], or
    [nullptr] for an empty tree. *)
Fixpoint leftmost_addr (p : Node_ptr) : option addr :=
  match p with
  | nullptr => None
  | Node self nullptr _ _ _ _ => Some self
  | Node _ l _ _ _ _ => leftmost_addr l
  end.

Definition update_first_node (rt : Node_ptr) : option addr := leftmost_addr rt.

Definition insert (value : ValueType) (s : Set_) : result Set_ :=
  '(root', num') ←
    insert_value (root s) value None (next_addr s) (num_values s);
  Ok {| root := root';
        first_node := update_first_node root';
        num_values := num';
        next_addr := S (next_addr s) |}.

Definition erase (value : ValueType) (s : Set_) : result Set_ :=
  '(root', num') ← erase_value (root s) value (num_values s);
  Ok {| root := root';
        first_node := update_first_node root';
        num_values := num';
        next_addr := next_addr s |}.

Definition size (s : Set_) : nat := num_values s.
Definition empty (s : Set_) : bool := bool_decide (num_values s = 0).

(** *** class SetIterator *)

Record SetIterator : Type := mkIterator {
  node : option addr;
  it_root : option addr
}.

#[global] Instance SetIterator_eq_dec : EqDecision SetIterator.
Proof. solve_decision. Defined.

Definition begin (s : Set_) : SetIterator :=
  {| node := first_node s; it_root := addr_of (root s) |}.

Definition end_ (s : Set_) : SetIterator :=
  {| node := None; it_root := addr_of (root s) |}.

(** The node an address refers to, among the nodes the tree [heap] owns;
    [None] for an address that is not a node of the tree. *)
Fixpoint find_node (heap : Node_ptr) (a : addr) : option Node_ptr :=
  match heap with
  | nullptr => None
  | Node self l r _ _ _ =>
      if decide (self = a) then Some heap
      else match find_node l a with
           | Some n => Some n
           | None => find_node r a
           end
  end.

(** [p->f] for a member [f], reading the node in the tree. *)
Definition load (heap : Node_ptr) (p : option addr) : result Node_ptr :=
  match p with
  | None => Undefined
  | Some a =>
      match find_node heap a with
      | Some n => Ok n
      | None => Undefined
      end
  end.

Definition right_of (n : Node_ptr) : Node_ptr :=
  match n with
  | nullptr => nullptr
  | Node _ _ r _ _ _ => r
  end.

Definition parent_of (n : Node_ptr) : option addr :=
  match n with
  | nullptr => None
  | Node _ _ _ parent _ _ => parent
  end.

(** [while (node != root && node == node->parent->right) node = node->parent;] *)
Fixpoint climb (fuel : nat) (heap : Node_ptr) (rt nd : option addr)
  : result (option addr) :=
  match fuel with
  | 0 => OutOfFuel
  | S fuel' =>
      if decide (nd = rt) then Ok nd
      else
        n ← load heap nd;
        p ← load heap (parent_of n);
        if decide (nd = addr_of (right_of p))
        then climb fuel' heap rt (parent_of n)
        else Ok nd
  end.

(** [operator++] *)
Definition increment (fuel : nat) (heap : Node_ptr) (it : SetIterator)
  : result SetIterator :=
  n ← load heap (node it);
  if negb (is_null (right_of n)) then
    Ok {| node := leftmost_addr (right_of n); it_root := it_root it |}
  else
    nd ← climb fuel heap (it_root it) (node it);
    n' ← load heap nd;
    Ok {| node := parent_of n'; it_root := it_root it |}.

(** [operator*] *)
Definition dereference (heap : Node_ptr) (it : SetIterator)
  : result ValueType :=
  n ← load heap (node it);
  match n with
  | nullptr => Undefined
  | Node _ _ _ _ value _ => Ok value
  end.

(** [for (; it != end; ++it) out.push_back(v);] where [v] is the value of
    [*it], with [count] iterations allowed for this loop and [fuel] for each
    loop inside [++]. *)
Fixpoint visit (count fuel : nat) (heap : Node_ptr) (it end_it : SetIterator)
    (out : list ValueType) : result (list ValueType) :=
  match count with
  | 0 => OutOfFuel
  | S count' =>
      if decide (it = end_it) then Ok out
      else
        v ← dereference heap it;
        it' ← increment fuel heap it;
        visit count' fuel heap it' end_it (out ++ [v])
  end.

(** The values a loop from [begin()] to [end()] visits, in order. *)
Definition traverse (fuel : nat) (s : Set_) : result (list ValueType) :=
  visit fuel fuel (root s) (begin s) (end_ s) [].

(** *** Sequences of mutating calls *)

Inductive op : Type :=
  | op_insert (value : ValueType)
  | op_erase (value : ValueType).

Definition step (s : Set_) (o : op) : result Set_ :=
  match o with
  | op_insert value => insert value s
  | op_erase value => erase value s
  end.

Definition run (ops : list op) (s : Set_) : result Set_ :=
  for_each step ops s.

(** *** clear, the constructors and the assignments *)

(** [clear]: [delete root] frees every node of the tree, [~Node] deleting
    the two children of each. *)
Definition clear (s : Set_) : Set_ :=
  {| root := nullptr;
     first_node := None;
     num_values := 0;
     next_addr := next_addr s |}.

(** [Set(InputIt first, InputIt last)] and
    [Set(std::initializer_list<ValueType> init)]: the values of the range,
    inserted one after the other into an empty set. *)
Definition Set_from (values : list ValueType) : result Set_ :=
  for_each (λ s value, insert value s) values Set_new.

(** [for (ValueType value : other) body]: a range-for over the set whose
    tree is [heap], from [it] to [end_it], with [count] iterations allowed
    for this loop and [fuel] for each loop inside [++]. *)
Fixpoint for_values {State : Type} (count fuel : nat) (heap : Node_ptr)
    (it end_it : SetIterator) (body : State → ValueType → result State)
    (s : State) : result State :=
  match count with
  | 0 => OutOfFuel
  | S count' =>
      if decide (it = end_it) then Ok s
      else
        v ← dereference heap it;
        s' ← body s v;
        it' ← increment fuel heap it;
        for_values count' fuel heap it' end_it body s'
  end.

(** [operator=(Set& other)] and [operator=(Set&& other)], which have the
    same body, when [&other != this]. *)
Definition assign (fuel : nat) (other s : Set_) : result Set_ :=
  for_values fuel fuel (root other) (begin other) (end_ other)
             (λ s value, insert value s) (clear s).

(** [Set(Set& other)]: [*this = other] on the initial values of the
    members. *)
Definition Set_copy (fuel : nat) (other : Set_) : result Set_ :=
  assign fuel other Set_new.

(** *** operator-- *)

Fixpoint rightmost_addr (p : Node_ptr) : option addr :=
  match p with
  | nullptr => None
  | Node self _ nullptr _ _ _ => Some self
  | Node _ _ r _ _ _ => rightmost_addr r
  end.

Definition left_of (n : Node_ptr) : Node_ptr :=
  match n with
  | nullptr => nullptr
  | Node _ l _ _ _ _ => l
  end.

(** [while (node == node->parent->left) node = node->parent;] *)
Fixpoint climb_left (fuel : nat) (heap : Node_ptr) (nd : option addr)
  : result (option addr) :=
  match fuel with
  | 0 => OutOfFuel
  | S fuel' =>
      n ← load heap nd;
      p ← load heap (parent_of n);
      if decide (nd = addr_of (left_of p))
      then climb_left fuel' heap (parent_of n)
      else Ok nd
  end.

Definition decrement (fuel : nat) (heap : Node_ptr) (it : SetIterator)
  : result SetIterator :=
  match node it with
  | None =>
      n ← load heap (it_root it);
      Ok {| node := rightmost_addr n; it_root := it_root it |}
  | Some _ =>
      n ← load heap (node it);
      if negb (is_null (left_of n)) then
        Ok {| node := rightmost_addr (left_of n); it_root := it_root it |}
      else
        nd ← climb_left fuel heap (node it);
        n' ← load heap nd;
        Ok {| node := parent_of n'; it_root := it_root it |}
  end.

(** *** lower_bound and find *)

(** The [while (node != nullptr)] loop of [lower_bound], with the local
    [lower_bound] as an argument; the result is the node of the iterator
    that is returned. *)
Fixpoint lower_bound_loop (nd : Node_ptr) (value : ValueType)
    (lower_bound : option addr) : option addr :=
  match nd with
  | nullptr => lower_bound
  | Node self l r _ node_value _ =>
      if equal node_value value then Some self
      else if less node_value value then lower_bound_loop r value lower_bound
      else if is_null l then Some self
      else lower_bound_loop l value (Some self)
  end.

Definition lower_bound (fuel : nat) (value : ValueType) (s : Set_)
  : result SetIterator :=
  if decide (num_values s = 0) then Ok (end_ s)
  else
    last ← decrement fuel (root s) (end_ s);
    last_value ← dereference (root s) last;
    if less last_value value then Ok (end_ s)
    else Ok {| node := lower_bound_loop (root s) value None;
               it_root := addr_of (root s) |}.

Definition find (fuel : nat) (value : ValueType) (s : Set_)
  : result SetIterator :=
  it ← lower_bound fuel value s;
  if decide (it = end_ s) then Ok (end_ s)
  else
    v ← dereference (root s) it;
    if equal v value then Ok it else Ok (end_ s).

End Set_.

End avl_set.

(** * Properties *)

Lemma bind_Ok {A B : Type} (m : result A) (f : A → result B) (b : B) :
  m ≫= f = Ok b → ∃ a, m = Ok a ∧ f a = Ok b.
Proof. destruct m; simpl; [eauto | discriminate | discriminate]. Qed.

Lemma bind_not_OutOfFuel {A B : Type} (m : result A) (f : A → result B) :
  m ≠ OutOfFuel → (∀ a, m = Ok a → f a ≠ OutOfFuel) → m ≫= f ≠ OutOfFuel.
Proof. destruct m; simpl; [eauto | discriminate | congruence]. Qed.

(** Splits a hypothesis [x ← m; k = Ok b] into [m = Ok x] and [k = Ok b]. *)
Ltac inv_bind H :=
  let x := fresh "x" in
  let E := fresh "E" in
  apply bind_Ok in H; destruct H as (x & E & H).

Lemma for_each_app {A S : Type} (f : S → A → result S) l1 l2 s :
  for_each f (l1 ++ l2) s = (s' ← for_each f l1 s; for_each f l2 s').
Proof.
  revert s; induction l1 as [|x l1 IH]; intros s; simpl; [done|].
  destruct (f s x); simpl; auto.
Qed.

(** An invariant of the body of a range-for is an invariant of the loop. *)
Lemma for_each_invariant {A S : Type} (P : S → Prop) (f : S → A → result S) :
  (∀ s x s', P s → f s x = Ok s' → P s') →
  ∀ l s s', P s → for_each f l s = Ok s' → P s'.
Proof.
  intros Hf l; induction l as [|x l IH]; intros s s' Hs Hr; simpl in Hr.
  - congruence.
  - inv_bind Hr. eauto.
Qed.

(** ** hash_map.cpp *)
Module hash_map_facts.
Import hash_map.

Section facts.
Context {KeyType ValueType : Type} `{EqDecision KeyType}.
Context (default_value : ValueType).
Implicit Types (m : @HashMap KeyType ValueType) (h : @Hash KeyType).
Implicit Types (key : KeyType) (sts : list slot_state).
Implicit Types (it : @record KeyType ValueType) (l : list (@record KeyType ValueType)).
Implicit Types (pair : KeyType * ValueType).
Implicit Types (processed : list (@record KeyType ValueType)).

Definition capacity m : nat := length (pointers m).

(** *** The wrap-around walk over the slots *)

(** Number of [advance] steps from [position] to slot [i]. *)
Definition distance (size position i : nat) : nat :=
  if decide (position ≤ i) then i - position else size - position + i.

Lemma advance_lt size position : 0 < size → advance size position < size.
Proof. unfold advance; intros; case_decide; lia. Qed.

Lemma distance_advance size position i :
  position < size → i < size → position ≠ i →
  S (distance size (advance size position) i) = distance size position i.
Proof. unfold distance, advance; intros; repeat case_decide; lia. Qed.

Lemma distance_lt size position i :
  position < size → i < size → distance size position i < size.
Proof. unfold distance; intros; case_decide; lia. Qed.

Lemma state_at_Ok m position s :
  state_at m position = Ok s ↔ states m !! position = Some s.
Proof. unfold state_at; destruct (states m !! position); split; congruence. Qed.

(** *** Termination of the probe loops *)

Lemma insert_loop_fuel m key i s :
  i < capacity m → states m !! i = Some s → s ≠ STATE_FILLED →
  ∀ fuel position,
    position < capacity m → distance (capacity m) position i < fuel →
    insert_loop fuel m key position ≠ OutOfFuel.
Proof.
  intros Hi Hs Hne fuel; induction fuel as [|fuel IH]; intros position Hp Hd.
  - lia.
  - simpl. apply bind_not_OutOfFuel.
    { unfold state_at; destruct (states m !! position); discriminate. }
    intros s' Hs'. apply state_at_Ok in Hs'.
    case_decide as Hf; [|discriminate].
    apply bind_not_OutOfFuel.
    { unfold record_at, pointer_at.
      destruct (pointers m !! position) as [[it|]|]; simpl; try discriminate.
      destruct (deref (values m) it); discriminate. }
    intros kv _. case_decide; [discriminate|].
    assert (position ≠ i) by (intros ->; congruence).
    apply IH; [apply advance_lt; lia|].
    pose proof (distance_advance (capacity m) position i Hp Hi). unfold capacity in *. lia.
Qed.

Lemma lookup_loop_fuel m key i :
  i < capacity m → states m !! i = Some STATE_EMPTY →
  ∀ fuel position,
    position < capacity m → distance (capacity m) position i < fuel →
    lookup_loop fuel m key position ≠ OutOfFuel.
Proof.
  intros Hi Hs fuel; induction fuel as [|fuel IH]; intros position Hp Hd.
  - lia.
  - simpl. apply bind_not_OutOfFuel.
    { unfold state_at; destruct (states m !! position); discriminate. }
    intros s' Hs'. apply state_at_Ok in Hs'.
    assert (s' ≠ STATE_EMPTY → lookup_loop fuel m key
              (advance (length (pointers m)) position) ≠ OutOfFuel) as Hnext.
    { intros Hne. assert (position ≠ i) by (intros ->; congruence).
      apply IH; [apply advance_lt; lia|].
      pose proof (distance_advance (capacity m) position i Hp Hi).
      unfold capacity in *. lia. }
    destruct s'; [discriminate| |by apply Hnext].
    apply bind_not_OutOfFuel.
    { unfold record_at, pointer_at.
      destruct (pointers m !! position) as [[it|]|]; simpl; try discriminate.
      destruct (deref (values m) it); discriminate. }
    intros kv _. case_decide; [discriminate|by apply Hnext].
Qed.

(** A lookup probe over a table without an empty slot and without the key
    goes round for ever. *)
Lemma lookup_loop_all_erased m key :
  (∀ i, i < capacity m → states m !! i = Some STATE_ERASED) →
  ∀ fuel position, position < capacity m →
    lookup_loop fuel m key position = OutOfFuel.
Proof.
  intros Hall fuel; induction fuel as [|fuel IH]; intros position Hp; [done|].
  simpl. unfold state_at. rewrite (Hall position Hp). simpl.
  apply IH, advance_lt. lia.
Qed.

(** *** What each call does to the capacity and to [occupancy] *)

Lemma rehash_step_Ok fuel h new_pointers sts occ it new_pointers' sts' occ' :
  rehash_step fuel h (new_pointers, sts, occ) it = Ok (new_pointers', sts', occ') →
  length new_pointers' = length new_pointers ∧ length sts' = length sts ∧ occ' = 0.
Proof.
  unfold rehash_step. intros Hr.
  inv_bind Hr. inv_bind Hr. case_decide; [discriminate|].
  injection Hr as <- <- <-. by rewrite !length_insert.
Qed.

Lemma rehash_Ok fuel h l new_pointers sts occ new_pointers' sts' occ' :
  for_each (rehash_step fuel h) l (new_pointers, sts, occ)
    = Ok (new_pointers', sts', occ') →
  length new_pointers' = length new_pointers ∧ length sts' = length sts
  ∧ occ' = match l with [] => occ | _ :: _ => 0 end.
Proof.
  revert new_pointers sts occ.
  induction l as [|it l IH]; intros new_pointers sts occ Hr; simpl in Hr.
  - by injection Hr as <- <- <-.
  - inv_bind Hr. destruct x as [[np1 sts1] occ1].
    apply (rehash_step_Ok fuel h new_pointers sts occ) in E as (Hnp & Hsts & ->).
    apply IH in Hr as (-> & -> & ->). by destruct l.
Qed.

(** [check_size] when the allocation succeeds: below the threshold nothing
    happens; at or above it the capacity doubles, the record list and the hash
    stay, and [occupancy] becomes 0 when the list has a record and keeps its
    value when it has none. *)
Lemma check_size_Ok fuel m m' :
  check_size true fuel m = Ok m' →
  (occupancy m * OCCUPANCY_COEFFICIENT < capacity m ∧ m' = m)
  ∨ (capacity m ≤ occupancy m * OCCUPANCY_COEFFICIENT
     ∧ capacity m' = capacity m * 2
     ∧ length (states m') = capacity m * 2
     ∧ values m' = values m
     ∧ hash m' = hash m
     ∧ next_node m' = next_node m
     ∧ occupancy m' = match values m with [] => occupancy m | _ :: _ => 0 end).
Proof.
  unfold check_size, capacity. intros Hc.
  case_decide as Hle; [|left; split; [lia|congruence]].
  right. inv_bind Hc. destruct x as [[np sts] occ].
  apply rehash_Ok in E as (Hnp & Hsts & Hocc).
  injection Hc as <-. simpl. rewrite !length_replicate in *. done.
Qed.

Lemma check_size_no_alloc fuel m : check_size false fuel m = Ok m.
Proof. unfold check_size. by case_decide. Qed.

Lemma fill_slot_Ok m pair position m' :
  fill_slot m pair position = Ok m' →
  capacity m' = capacity m
  ∧ length (states m') = length (states m)
  ∧ hash m' = hash m
  ∧ values m' = values m ++ [(next_node m, pair)]
  ∧ occupancy m' ≤ S (occupancy m).
Proof.
  unfold fill_slot, capacity. intros Hf. case_decide; [discriminate|].
  inv_bind Hf. injection Hf as <-. simpl. rewrite !length_insert.
  repeat split; auto. case_decide; lia.
Qed.

Lemma erase_Ok fuel key m m' :
  erase fuel key m = Ok m' →
  capacity m' = capacity m ∧ length (states m') = length (states m)
  ∧ hash m' = hash m ∧ occupancy m' = occupancy m.
Proof.
  unfold erase, capacity. intros He. do 3 inv_bind He.
  case_decide; [|by injection He as <-].
  inv_bind He. destruct (list_erase (values m) x2); [|discriminate].
  injection He as <-. simpl. by rewrite length_insert.
Qed.

Lemma clear_Ok fuel m m' :
  clear fuel m = Ok m' →
  capacity m' = capacity m ∧ hash m' = hash m
  ∧ values m' = [] ∧ occupancy m' = 0.
Proof. unfold clear. intros Hc. inv_bind Hc. by injection Hc as <-. Qed.

(** The capacity is a multiple of four and [occupancy] is at most a quarter
    of it. *)
Definition quarter_full m : Prop :=
  (∃ c, capacity m = 4 * c)
  ∧ occupancy m * OCCUPANCY_COEFFICIENT ≤ capacity m.

Lemma quarter_full_new h : quarter_full (HashMap_new (ValueType:=ValueType) h).
Proof. split; [by exists 2|]. cbn. lia. Qed.

Lemma quarter_full_check_size fuel m m' :
  0 < capacity m → quarter_full m → check_size true fuel m = Ok m' →
  0 < capacity m' ∧ (∃ c, capacity m' = 4 * c)
  ∧ occupancy m' * OCCUPANCY_COEFFICIENT < capacity m'.
Proof.
  unfold OCCUPANCY_COEFFICIENT. intros Hpos [[c Hc] Hocc] Hcs.
  apply check_size_Ok in Hcs
    as [[Hlt ->]|(Hle & Hcap & _ & Hv & _ & _ & Ho)].
  - unfold OCCUPANCY_COEFFICIENT in *. eauto.
  - unfold OCCUPANCY_COEFFICIENT in *.
    split; [lia|]. split; [exists (c * 2); lia|].
    rewrite Ho. destruct (values m); lia.
Qed.

Lemma quarter_full_fill fuel m m1 pair position m' :
  0 < capacity m → quarter_full m → check_size true fuel m = Ok m1 →
  fill_slot m1 pair position = Ok m' →
  0 < capacity m' ∧ quarter_full m'.
Proof.
  intros Hpos Hq Hcs Hf.
  destruct (quarter_full_check_size _ _ _ Hpos Hq Hcs) as (Hpos1 & [c Hc] & Hlt).
  apply fill_slot_Ok in Hf as (Hcap & _ & _ & _ & Hocc).
  unfold quarter_full, OCCUPANCY_COEFFICIENT in *. rewrite Hcap.
  split; [lia|]. split; [eauto|]. lia.
Qed.

Lemma quarter_full_step fuel m o m' :
  0 < capacity m → quarter_full m → step default_value fuel m o = Ok m' →
  0 < capacity m' ∧ quarter_full m'.
Proof.
  intros Hpos Hq Hs. destruct o as [key value|key|key|]; simpl in Hs.
  - unfold insert in Hs. do 3 inv_bind Hs.
    destruct x1 as [position|].
    + eauto using quarter_full_fill.
    + injection Hs as <-.
      destruct (quarter_full_check_size _ _ _ Hpos Hq E) as (? & ? & ?).
      unfold quarter_full. split; [done|]. split; [done|lia].
  - inv_bind Hs. destruct x as [m2 v]. injection Hs as <-.
    unfold index in E. do 6 inv_bind E. injection E as <- _.
    case_decide.
    + injection E4 as <-.
      destruct (quarter_full_check_size _ _ _ Hpos Hq E0) as (? & ? & ?).
      unfold quarter_full. split; [done|]. split; [done|lia].
    + eauto using quarter_full_fill.
  - apply erase_Ok in Hs as (Hcap & _ & _ & Hocc).
    unfold quarter_full in *. rewrite Hcap, Hocc. done.
  - apply clear_Ok in Hs as (Hcap & _ & _ & Hocc).
    unfold quarter_full in *. rewrite Hcap, Hocc.
    split; [done|]. split; [tauto|lia].
Qed.

Lemma quarter_full_run fuel ops m m' :
  0 < capacity m → quarter_full m → run default_value fuel ops m = Ok m' →
  0 < capacity m' ∧ quarter_full m'.
Proof.
  intros Hpos Hq Hr.
  apply (for_each_invariant (λ m, 0 < capacity m ∧ quarter_full m)
           (step default_value fuel)) with (l := ops) (s := m); [|done|done].
  intros s o s' [? ?] ?. eauto using quarter_full_step.
Qed.

Lemma at_all_erased m key fuel :
  0 < capacity m →
  (∀ i, i < capacity m → states m !! i = Some STATE_ERASED) →
  at_ fuel key m = OutOfFuel.
Proof.
  intros Hpos Hall. unfold at_, slot_of. fold (capacity m).
  case_decide; [lia|]. simpl.
  rewrite lookup_loop_all_erased; [done|done|]. by apply Nat.mod_upper_bound.
Qed.

Lemma find_all_erased m key fuel :
  0 < capacity m →
  (∀ i, i < capacity m → states m !! i = Some STATE_ERASED) →
  find fuel key m = OutOfFuel.
Proof.
  intros Hpos Hall. unfold find, slot_of. fold (capacity m).
  case_decide; [lia|]. simpl.
  rewrite lookup_loop_all_erased; [done|done|]. by apply Nat.mod_upper_bound.
Qed.

(** *** What a lookup does on a given table *)

(** The lookup loop for [key] steps over slot [q]: the slot is erased, or
    filled with a record of another key. *)
Definition steps_over m key (q : nat) : Prop :=
  states m !! q = Some STATE_ERASED
  ∨ ∃ ptr kv, states m !! q = Some STATE_FILLED
             ∧ pointers m !! q = Some (Some ptr)
             ∧ deref (values m) ptr = Some kv ∧ kv.1 ≠ key.

(** Slot [q] comes before slot [p] on the walk that starts at slot [start]. *)
Definition comes_before m (start q p : nat) : Prop :=
  q < capacity m
  ∧ distance (capacity m) start q < distance (capacity m) start p.

Lemma distance_advance_self size position :
  position < size → distance size (advance size position) position = size - 1.
Proof. unfold distance, advance; intros; repeat case_decide; lia. Qed.

Lemma distance_0 size position i :
  position < size → i < size → distance size position i = 0 → position = i.
Proof. unfold distance; intros ? ?; case_decide; lia. Qed.

Lemma lookup_loop_step m key position fuel :
  steps_over m key position →
  lookup_loop (S fuel) m key position
  = lookup_loop fuel m key (advance (length (pointers m)) position).
Proof.
  intros [Hs|(ptr & kv & Hs & Hp & Hd & Hk)]; cbn [lookup_loop];
    unfold state_at; rewrite Hs; cbn [mbind result_bind]; [done|].
  unfold record_at, pointer_at. rewrite Hp. cbn [mbind result_bind].
  rewrite Hd. cbn [mbind result_bind]. by case_decide.
Qed.

(** The loop ends on the first slot it does not step over. *)
Lemma lookup_loop_reaches m key p :
  p < capacity m →
  (∀ fuel, lookup_loop (S fuel) m key p = Ok p) →
  ∀ fuel position,
    position < capacity m →
    (∀ q, comes_before m position q p → steps_over m key q) →
    distance (capacity m) position p < fuel →
    lookup_loop fuel m key position = Ok p.
Proof.
  intros Hp Hstop fuel.
  induction fuel as [|fuel IH]; intros position Hpos Hover Hd; [lia|].
  destruct (decide (position = p)) as [->|Hne]; [apply Hstop|].
  pose proof (distance_advance (capacity m) position p Hpos Hp Hne) as Hadv.
  rewrite lookup_loop_step.
  - apply IH; [apply advance_lt; lia| |unfold capacity in *; lia].
    intros q [Hq Hqd]. apply Hover. split; [done|].
    destruct (decide (position = q)) as [<-|Hq'].
    + rewrite distance_advance_self in Hqd by done.
      pose proof (distance_lt (capacity m) position p Hpos Hp).
      unfold capacity in *. lia.
    + pose proof (distance_advance (capacity m) position q Hpos Hq Hq').
      unfold capacity in *. lia.
  - apply Hover. split; [done|].
    unfold distance at 1. case_decide; lia.
Qed.

(** [at] by design.  When the slots from [hash(key) % size] up to slot [p]
    are erased or hold other keys, and slot [p] holds the record of [key],
    [at] returns the value of that record; when slot [p] is empty instead,
    [at] throws.  In both cases [at], a [const] member, returns no new
    table: the table is the one it was given. *)
Lemma at_returns_value m key p ptr v fuel :
  p < capacity m → capacity m ≤ fuel →
  states m !! p = Some STATE_FILLED →
  pointers m !! p = Some (Some ptr) →
  deref (values m) ptr = Some (key, v) →
  (∀ q, comes_before m (hash m key mod capacity m) q p → steps_over m key q) →
  at_ fuel key m = Ok (at_returns v).
Proof.
  intros Hp Hfuel Hs Hptr Hd Hover. unfold at_, slot_of. fold (capacity m).
  case_decide; [lia|]. cbn [mbind result_bind].
  assert (hash m key mod capacity m < capacity m) as Hhome
    by (apply Nat.mod_upper_bound; lia).
  rewrite (lookup_loop_reaches m key p); [|done| |done|done|].
  - cbn [mbind result_bind]. unfold state_at. rewrite Hs.
    cbn [mbind result_bind]. case_decide; [|done].
    unfold record_at, pointer_at. rewrite Hptr. cbn [mbind result_bind].
    by rewrite Hd.
  - intros fuel'. cbn [lookup_loop]. unfold state_at. rewrite Hs.
    cbn [mbind result_bind]. unfold record_at, pointer_at. rewrite Hptr.
    cbn [mbind result_bind]. rewrite Hd. cbn [mbind result_bind].
    by case_decide.
  - pose proof (distance_lt (capacity m) _ p Hhome Hp). lia.
Qed.

Lemma at_throws m key p fuel :
  p < capacity m → capacity m ≤ fuel →
  states m !! p = Some STATE_EMPTY →
  (∀ q, comes_before m (hash m key mod capacity m) q p → steps_over m key q) →
  at_ fuel key m = Ok at_throws_out_of_range.
Proof.
  intros Hp Hfuel Hs Hover. unfold at_, slot_of. fold (capacity m).
  case_decide; [lia|]. cbn [mbind result_bind].
  assert (hash m key mod capacity m < capacity m) as Hhome
    by (apply Nat.mod_upper_bound; lia).
  rewrite (lookup_loop_reaches m key p); [|done| |done|done|].
  - cbn [mbind result_bind]. unfold state_at. rewrite Hs.
    cbn [mbind result_bind]. by case_decide.
  - intros fuel'. cbn [lookup_loop]. unfold state_at. by rewrite Hs.
  - pose proof (distance_lt (capacity m) _ p Hhome Hp). lia.
Qed.

(** With an empty slot in the table the lookups end, whatever the key. *)
Lemma lookups_terminate m key fuel :
  0 < capacity m → capacity m ≤ fuel →
  (∃ i, i < capacity m ∧ states m !! i = Some STATE_EMPTY) →
  at_ fuel key m ≠ OutOfFuel
  ∧ find fuel key m ≠ OutOfFuel
  ∧ erase fuel key m ≠ OutOfFuel.
Proof.
  intros Hpos Hfuel (i & Hi & Hs).
  assert (hash m key mod capacity m < capacity m) as Hhome
    by (apply Nat.mod_upper_bound; lia).
  assert (lookup_loop fuel m key (hash m key mod capacity m) ≠ OutOfFuel)
    as Hloop.
  { apply (lookup_loop_fuel m key i); try done.
    pose proof (distance_lt (capacity m) _ i Hhome Hi). lia. }
  unfold at_, find, erase, slot_of. fold (capacity m).
  case_decide; [lia|]. cbn [mbind result_bind].
  destruct (lookup_loop fuel m key (hash m key mod capacity m))
    as [position| |]; [|done|done].
  cbn [mbind result_bind]. unfold state_at, record_at, pointer_at.
  destruct (states m !! position) as [s|]; [|done].
  cbn [mbind result_bind].
  destruct (pointers m !! position) as [[ptr|]|];
    case_decide; cbn [mbind result_bind]; try done.
  destruct (deref (values m) ptr), (list_erase (values m) ptr); done.
Qed.

(** [insert] by design.  When the table does not grow, the slots from
    [hash(key) % size] up to slot [p] are filled with records of other keys,
    and slot [p] holds a record of [key], [insert] changes nothing. *)
Definition filled_with_other m key (q : nat) : Prop :=
  ∃ ptr kv, states m !! q = Some STATE_FILLED
            ∧ pointers m !! q = Some (Some ptr)
            ∧ deref (values m) ptr = Some kv ∧ kv.1 ≠ key.

Lemma insert_loop_finds m key p ptr v :
  p < capacity m →
  states m !! p = Some STATE_FILLED →
  pointers m !! p = Some (Some ptr) →
  deref (values m) ptr = Some (key, v) →
  ∀ fuel position,
    position < capacity m →
    (∀ q, comes_before m position q p → filled_with_other m key q) →
    distance (capacity m) position p < fuel →
    insert_loop fuel m key position = Ok None.
Proof.
  intros Hp Hs Hptr Hd fuel.
  induction fuel as [|fuel IH]; intros position Hpos Hover Hdist; [lia|].
  cbn [insert_loop]. unfold state_at, record_at, pointer_at.
  destruct (decide (position = p)) as [->|Hne].
  { rewrite Hs. cbn [mbind result_bind]. case_decide; [|done].
    rewrite Hptr. cbn [mbind result_bind]. rewrite Hd.
    cbn [mbind result_bind]. by case_decide. }
  pose proof (distance_advance (capacity m) position p Hpos Hp Hne) as Hadv.
  destruct (Hover position) as (ptr' & kv' & Hs' & Hptr' & Hd' & Hk').
  { split; [done|]. unfold distance at 1. case_decide; lia. }
  rewrite Hs'. cbn [mbind result_bind]. case_decide; [|done].
  rewrite Hptr'. cbn [mbind result_bind]. rewrite Hd'.
  cbn [mbind result_bind]. case_decide; [done|].
  apply IH; [apply advance_lt; lia| |unfold capacity in *; lia].
  intros q [Hq Hqd]. apply Hover. split; [done|].
  destruct (decide (position = q)) as [<-|Hq'].
  - rewrite distance_advance_self in Hqd by done.
    pose proof (distance_lt (capacity m) position p Hpos Hp).
    unfold capacity in *. lia.
  - pose proof (distance_advance (capacity m) position q Hpos Hq Hq').
    unfold capacity in *. lia.
Qed.

Lemma insert_no_op m key w p ptr v fuel :
  occupancy m * OCCUPANCY_COEFFICIENT < capacity m →
  p < capacity m → capacity m ≤ fuel →
  states m !! p = Some STATE_FILLED →
  pointers m !! p = Some (Some ptr) →
  deref (values m) ptr = Some (key, v) →
  (∀ q, comes_before m (hash m key mod capacity m) q p →
        filled_with_other m key q) →
  insert true fuel (key, w) m = Ok m.
Proof.
  intros Hocc Hp Hfuel Hs Hptr Hd Hover. unfold insert, check_size.
  fold (capacity m). case_decide; [lia|]. cbn [mbind result_bind fst].
  unfold slot_of. fold (capacity m). case_decide; [lia|].
  cbn [mbind result_bind].
  assert (hash m key mod capacity m < capacity m) as Hhome
    by (apply Nat.mod_upper_bound; lia).
  rewrite (insert_loop_finds m key p ptr v); try done.
  pose proof (distance_lt (capacity m) _ p Hhome Hp). lia.
Qed.

(** *** What insert and erase do to the record list *)

Lemma lookup_loop_Ok fuel m key position q :
  lookup_loop fuel m key position = Ok q →
  states m !! q = Some STATE_FILLED →
  ∃ kv, record_at m q = Ok kv ∧ kv.1 = key.
Proof.
  revert position. induction fuel as [|fuel IH]; intros position; [done|].
  cbn [lookup_loop]. intros Hl Hq. inv_bind Hl. apply state_at_Ok in E.
  destruct x; [injection Hl as <-; congruence| |by eapply IH].
  inv_bind Hl. case_decide; [|by eapply IH].
  injection Hl as <-. eauto.
Qed.

Lemma list_erase_Some l ptr l' kv :
  list_erase l ptr = Some l' → deref l ptr = Some kv →
  ∃ l1 l2, l = l1 ++ (ptr, kv) :: l2 ∧ l' = l1 ++ l2.
Proof.
  revert l'. induction l as [|[a kv0] l IH]; intros l'; [done|].
  cbn [list_erase deref]. case_decide as Ha.
  - intros [= <-] [= <-]. subst. by exists [], l.
  - intros He Hd. destruct (list_erase l ptr) as [l''|]; [|done].
    injection He as <-. destruct (IH l'' eq_refl Hd) as (l1 & l2 & -> & ->).
    by exists ((a, kv0) :: l1), l2.
Qed.

(** X19.  [insert] keeps the record list or appends its pair to it; it
    never reorders or changes the records that are there. *)
Lemma insert_iteration fuel pair m m' :
  insert true fuel pair m = Ok m' →
  iteration m' = iteration m ∨ iteration m' = iteration m ++ [pair].
Proof.
  unfold insert, iteration. intros Hi. do 3 inv_bind Hi.
  assert (values x = values m) as Hv.
  { apply check_size_Ok in E as [[_ ->]|(_ & _ & _ & ? & _)]; done. }
  destruct x1 as [position|].
  - right. apply fill_slot_Ok in Hi as (_ & _ & _ & -> & _).
    by rewrite fmap_app, Hv.
  - left. injection Hi as <-. by rewrite Hv.
Qed.

(** X20.  [erase] keeps the record list or removes from it one record of
    the key; the other records keep their order. *)
Lemma erase_iteration fuel key m m' :
  erase fuel key m = Ok m' →
  iteration m' = iteration m
  ∨ ∃ before v after, iteration m = before ++ (key, v) :: after
                      ∧ iteration m' = before ++ after.
Proof.
  unfold erase, iteration. intros He. do 3 inv_bind He.
  case_decide as Hf; [|left; by injection He as <-]. subst x1.
  apply state_at_Ok in E1.
  destruct (lookup_loop_Ok _ _ _ _ _ E0 E1) as ([k v] & Hr & Hk).
  cbn in Hk. subst k.
  apply bind_Ok in He as (ptr & Hptr & He).
  unfold record_at in Hr. rewrite Hptr in Hr.
  cbn [mbind result_bind] in Hr.
  destruct (deref (values m) ptr) as [kv|] eqn:Hd; [|done].
  injection Hr as ->.
  destruct (list_erase (values m) ptr) as [values'|] eqn:Hl; [|done].
  injection He as <-. cbn [values].
  destruct (list_erase_Some _ _ _ _ Hl Hd) as (l1 & l2 & -> & ->).
  right. exists (snd <$> l1), v, (snd <$> l2).
  by rewrite !fmap_app.
Qed.

(** *** Calls on a table that was never cleared

    Without [clear], every call finds the table in a state in which it runs
    to its end without undefined behaviour: no filled slot holds a dangling
    iterator, and enough slots are empty for every probe loop to stop. *)

(** Number of slots in state [s]. *)
Fixpoint count_state (s : slot_state) sts : nat :=
  match sts with
  | [] => 0
  | x :: sts' => (if decide (x = s) then 1 else 0) + count_state s sts'
  end.

Lemma count_state_replicate s s' (n : nat) :
  count_state s (replicate n s') = if decide (s' = s) then n else 0.
Proof. induction n as [|n IH]; cbn; repeat case_decide; lia. Qed.

Lemma count_state_insert s sts (position : nat) old new :
  sts !! position = Some old →
  count_state s (<[position := new]> sts) + (if decide (old = s) then 1 else 0)
  = count_state s sts + (if decide (new = s) then 1 else 0).
Proof.
  revert position. induction sts as [|x sts IH]; intros position; [done|].
  destruct position as [|position].
  - intros [= ->]. change (<[0:=new]> (old :: sts)) with (new :: sts).
    cbn [count_state]. repeat case_decide; lia.
  - change ((x :: sts) !! S position) with (sts !! position).
    change (<[S position:=new]> (x :: sts))
      with (x :: <[position:=new]> sts).
    intros Hs. specialize (IH position Hs). cbn [count_state].
    repeat case_decide; lia.
Qed.

Lemma count_state_total sts :
  count_state STATE_EMPTY sts + count_state STATE_FILLED sts
  + count_state STATE_ERASED sts = length sts.
Proof.
  induction sts as [|x sts IH]; [done|].
  destruct x; cbn; repeat case_decide; try done; lia.
Qed.

Lemma count_state_pos s sts :
  0 < count_state s sts → ∃ i, i < length sts ∧ sts !! i = Some s.
Proof.
  induction sts as [|x sts IH]; cbn; [lia|]. case_decide as Hx.
  - intros _. exists 0. split; [lia|]. by subst.
  - intros Hc. destruct IH as (i & Hi & Hs); [lia|].
    exists (S i). split; [lia|done].
Qed.

(** With fewer filled slots than slots, some slot is not filled. *)
Lemma not_all_filled sts :
  count_state STATE_FILLED sts < length sts →
  ∃ i s, i < length sts ∧ sts !! i = Some s ∧ s ≠ STATE_FILLED.
Proof.
  intros Hc. pose proof (count_state_total sts) as Ht.
  destruct (decide (0 < count_state STATE_EMPTY sts)) as [He|He].
  - destruct (count_state_pos _ _ He) as (i & Hi & Hs).
    by exists i, STATE_EMPTY.
  - destruct (count_state_pos STATE_ERASED sts) as (i & Hi & Hs); [lia|].
    by exists i, STATE_ERASED.
Qed.

(** Records and their addresses. *)
Lemma deref_is_Some l (a : addr) : a ∈ l.*1 → is_Some (deref l a).
Proof.
  induction l as [|[b kv] l IH]; cbn; [by intros ?%elem_of_nil|].
  intros [->|Ha]%elem_of_cons; case_decide; eauto; done.
Qed.

Lemma deref_Some l (a : addr) kv : deref l a = Some kv → a ∈ l.*1.
Proof.
  induction l as [|[b kv'] l IH]; cbn; [done|]. case_decide as Hb.
  - intros _. subst. by left.
  - intros Hd. right. auto.
Qed.

Lemma deref_app_l l l' (a : addr) :
  a ∈ l.*1 → deref (l ++ l') a = deref l a.
Proof.
  induction l as [|[b kv] l IH]; cbn; [by intros ?%elem_of_nil|].
  intros Ha. case_decide; [done|]. apply IH.
  apply elem_of_cons in Ha as [->|Ha]; done.
Qed.

Lemma deref_app_new l (a : addr) pair :
  a ∉ l.*1 → deref (l ++ [(a, pair)]) a = Some pair.
Proof.
  induction l as [|[b kv] l IH]; cbn; [by case_decide|].
  intros Ha. apply not_elem_of_cons in Ha as [Hab Ha].
  case_decide; [by subst|]. by apply IH.
Qed.

Lemma list_erase_is_Some l (a : addr) :
  a ∈ l.*1 → NoDup l.*1 →
  ∃ l', list_erase l a = Some l'
        ∧ length l = S (length l')
        ∧ NoDup l'.*1
        ∧ ∀ b, b ∈ l'.*1 ↔ b ∈ l.*1 ∧ b ≠ a.
Proof.
  induction l as [|[b kv] l IH]; cbn; [by intros ?%elem_of_nil|].
  intros Ha [Hb Hnd]%NoDup_cons. case_decide as Hab.
  - subst b. exists l. split; [done|]. split; [done|]. split; [done|].
    intros b. rewrite elem_of_cons. split.
    + intros Hin. split; [by right|]. by intros ->.
    + by intros [[->|Hin] Hne].
  - apply elem_of_cons in Ha as [->|Ha]; [done|].
    destruct (IH Ha Hnd) as (l' & -> & Hlen & Hnd' & Hin).
    exists ((b, kv) :: l'). cbn. split; [done|]. split; [lia|]. split.
    + apply NoDup_cons. split; [|done]. intros [Hb' _]%Hin. done.
    + intros c. rewrite !elem_of_cons, Hin. split.
      * intros [->|[Hc Hne]]; [split; [by left|done]|split; [by right|done]].
      * intros [[->|Hc] Hne]; [by left|right; done].
Qed.

(** Every filled slot holds an iterator to a record of the list. *)
Definition no_dangling m : Prop :=
  ∀ p, states m !! p = Some STATE_FILLED →
       ∃ ptr, pointers m !! p = Some (Some ptr) ∧ ptr ∈ (values m).*1.

Lemma record_at_is_Ok m (p : nat) :
  no_dangling m → states m !! p = Some STATE_FILLED →
  ∃ kv, record_at m p = Ok kv.
Proof.
  intros Hnd Hs. destruct (Hnd p Hs) as (ptr & Hptr & Hin).
  unfold record_at, pointer_at. rewrite Hptr. cbn [mbind result_bind].
  destruct (deref_is_Some _ _ Hin) as [kv ->]. eauto.
Qed.

Lemma lookup_lt_is_Some_states sts (position : nat) :
  position < length sts → ∃ s, sts !! position = Some s.
Proof. intros Hp. by apply lookup_lt_is_Some_2. Qed.

(** The probe loops return when the table has the slot they look for. *)
Lemma rehash_loop_returns size sts i s :
  length sts = size → i < size → sts !! i = Some s → s ≠ STATE_FILLED →
  ∀ fuel position,
    position < size → distance size position i < fuel →
    ∃ p, rehash_loop fuel size sts position = Ok p
         ∧ p < size ∧ ∃ s', sts !! p = Some s' ∧ s' ≠ STATE_FILLED.
Proof.
  intros Hlen Hi Hs Hne fuel.
  induction fuel as [|fuel IH]; intros position Hp Hd; [lia|].
  cbn [rehash_loop].
  destruct (lookup_lt_is_Some_states sts position) as [s' Hs']; [lia|].
  rewrite Hs'. case_decide as Hf; [|by eauto 6].
  assert (position ≠ i) by (intros ->; congruence).
  apply IH; [apply advance_lt; lia|].
  pose proof (distance_advance size position i Hp Hi). lia.
Qed.

Lemma insert_loop_returns m key i s :
  no_dangling m → length (states m) = capacity m →
  i < capacity m → states m !! i = Some s → s ≠ STATE_FILLED →
  ∀ fuel position,
    position < capacity m → distance (capacity m) position i < fuel →
    ∃ r, insert_loop fuel m key position = Ok r
         ∧ ∀ p, r = Some p →
                p < capacity m
                ∧ ∃ s', states m !! p = Some s' ∧ s' ≠ STATE_FILLED.
Proof.
  intros Hnd Hlen Hi Hs Hne fuel.
  induction fuel as [|fuel IH]; intros position Hp Hd; [lia|].
  cbn [insert_loop]. unfold state_at.
  destruct (lookup_lt_is_Some_states (states m) position) as [s' Hs']; [lia|].
  rewrite Hs'. cbn [mbind result_bind]. case_decide as Hf.
  - subst s'. destruct (record_at_is_Ok m position Hnd Hs') as [kv ->].
    cbn [mbind result_bind]. case_decide.
    + exists None. by split.
    + assert (position ≠ i) by (intros ->; congruence).
      apply IH; [apply advance_lt; lia|].
      pose proof (distance_advance (capacity m) position i Hp Hi).
      unfold capacity in *. lia.
  - exists (Some position). split; [done|]. intros p [= <-]. eauto.
Qed.

Lemma lookup_loop_returns m key i :
  no_dangling m → length (states m) = capacity m →
  i < capacity m → states m !! i = Some STATE_EMPTY →
  ∀ fuel position,
    position < capacity m → distance (capacity m) position i < fuel →
    ∃ p, lookup_loop fuel m key position = Ok p
         ∧ p < capacity m
         ∧ (states m !! p = Some STATE_EMPTY
            ∨ states m !! p = Some STATE_FILLED).
Proof.
  intros Hnd Hlen Hi Hs fuel.
  induction fuel as [|fuel IH]; intros position Hp Hd; [lia|].
  cbn [lookup_loop]. unfold state_at.
  destruct (lookup_lt_is_Some_states (states m) position) as [s' Hs']; [lia|].
  rewrite Hs'. cbn [mbind result_bind].
  assert (s' ≠ STATE_EMPTY →
          ∃ p, lookup_loop fuel m key (advance (length (pointers m)) position)
               = Ok p
               ∧ p < capacity m
               ∧ (states m !! p = Some STATE_EMPTY
                  ∨ states m !! p = Some STATE_FILLED)) as Hnext.
  { intros Hne. assert (position ≠ i) by (intros ->; congruence).
    apply IH; [apply advance_lt; lia|].
    pose proof (distance_advance (capacity m) position i Hp Hi).
    unfold capacity in *. lia. }
  destruct s'; [by eauto 6| |by apply Hnext].
  destruct (record_at_is_Ok m position Hnd Hs') as [kv ->].
  cbn [mbind result_bind]. case_decide; [by eauto 6|by apply Hnext].
Qed.

(** What holds of a table that was never cleared, between two calls. *)
Definition safe m : Prop :=
  length (states m) = capacity m
  ∧ quarter_full m
  ∧ count_state STATE_FILLED (states m) = length (values m)
  ∧ (count_state STATE_FILLED (states m)
     + count_state STATE_ERASED (states m)) * 4 + 8
    ≤ capacity m + occupancy m * 4
  ∧ NoDup (values m).*1
  ∧ (∀ a, a ∈ (values m).*1 → a < next_node m)
  ∧ no_dangling m
  ∧ (∀ p q ptr,
       states m !! p = Some STATE_FILLED → states m !! q = Some STATE_FILLED →
       pointers m !! p = Some (Some ptr) → pointers m !! q = Some (Some ptr) →
       p = q).

Lemma safe_new h : safe (HashMap_new (ValueType:=ValueType) h).
Proof.
  unfold safe, no_dangling, capacity, HashMap_new.
  cbn [states pointers values occupancy next_node].
  rewrite !length_replicate, !count_state_replicate.
  split; [done|]. split; [apply quarter_full_new|].
  split; [by case_decide|]. split; [repeat case_decide; try done; cbn; lia|].
  split; [constructor|]. split; [intros a Ha; by apply elem_of_nil in Ha|].
  split.
  - intros p Hp. apply lookup_replicate in Hp as [? _]. done.
  - intros p q ptr Hp. apply lookup_replicate in Hp as [? _]. done.
Qed.

(** A safe table keeps more than half of its slots empty. *)
Lemma safe_empty_slot m :
  safe m →
  0 < capacity m
  ∧ ∃ i, i < capacity m ∧ states m !! i = Some STATE_EMPTY.
Proof.
  intros (Hlen & [_ Hocc] & _ & Hcount & _).
  unfold OCCUPANCY_COEFFICIENT in *.
  pose proof (count_state_total (states m)) as Ht.
  split; [lia|].
  destruct (count_state_pos STATE_EMPTY (states m)) as (i & Hi & Hs); [lia|].
  exists i. split; [lia|done].
Qed.

Lemma count_state_lookup s sts (position : nat) :
  sts !! position = Some s → 0 < count_state s sts.
Proof.
  revert position. induction sts as [|x sts IH]; intros position; [done|].
  destruct position as [|position].
  - intros [= ->]. cbn [count_state]. case_decide; [lia|done].
  - change ((x :: sts) !! S position) with (sts !! position).
    intros Hs%IH. cbn [count_state]. lia.
Qed.

(** The loop of [check_size] over the records, after the records
    [processed]: the new table has [n2] slots, none erased, one filled slot
    per processed record, each with the iterator of its record. *)
Definition rehash_inv (n2 : nat) (processed : list (@record KeyType ValueType))
    (acc : list (option addr) * list slot_state * nat) : Prop :=
  length acc.1.1 = n2 ∧ length acc.1.2 = n2
  ∧ count_state STATE_ERASED acc.1.2 = 0
  ∧ count_state STATE_FILLED acc.1.2 = length processed
  ∧ (∀ p, acc.1.2 !! p = Some STATE_FILLED →
          ∃ ptr, acc.1.1 !! p = Some (Some ptr) ∧ ptr ∈ processed.*1)
  ∧ (∀ p q ptr,
       acc.1.2 !! p = Some STATE_FILLED → acc.1.2 !! q = Some STATE_FILLED →
       acc.1.1 !! p = Some (Some ptr) → acc.1.1 !! q = Some (Some ptr) →
       p = q).

Lemma rehash_step_inv fuel h n2 processed acc it :
  rehash_inv n2 processed acc →
  it.1 ∉ processed.*1 → length processed < n2 → n2 ≤ fuel →
  ∃ acc', rehash_step fuel h acc it = Ok acc'
          ∧ rehash_inv n2 (processed ++ [it]) acc'.
Proof.
  destruct acc as [[new_pointers sts] occ]. unfold rehash_inv. cbn [fst snd].
  intros (Hnp & Hsts & Herased & Hfilled & Hdang & Hinj) Hfresh Hlen Hfuel.
  unfold rehash_step, slot_of. rewrite Hnp.
  case_decide; [lia|]. cbn [mbind result_bind].
  destruct (not_all_filled sts) as (i & s & Hi & Hs & Hne); [lia|].
  assert (h it.2.1 mod n2 < n2) as Hhome by (apply Nat.mod_upper_bound; lia).
  destruct (rehash_loop_returns n2 sts i s Hsts ltac:(lia) Hs Hne fuel
              (h it.2.1 mod n2) Hhome) as (p & -> & Hp & s' & Hs' & Hne').
  { pose proof (distance_lt n2 _ i Hhome ltac:(lia)). lia. }
  cbn [mbind result_bind]. case_decide; [lia|].
  eexists. split; [done|]. cbn [fst snd].
  assert (s' = STATE_EMPTY) as ->.
  { destruct s'; [done|done|].
    apply count_state_lookup in Hs'. lia. }
  pose proof (count_state_insert STATE_ERASED sts p _ STATE_FILLED Hs') as He.
  pose proof (count_state_insert STATE_FILLED sts p _ STATE_FILLED Hs') as Hf.
  repeat case_decide; try done.
  rewrite !length_insert, length_app, fmap_app. cbn [length].
  split; [done|]. split; [done|]. split; [lia|]. split; [lia|]. split.
  - intros q Hq. destruct (decide (q = p)) as [->|Hqp].
    + exists it.1. rewrite list_lookup_insert_eq by lia. split; [done|].
      apply elem_of_app. right. cbn. by left.
    + rewrite list_lookup_insert_ne in Hq by done.
      rewrite list_lookup_insert_ne by done.
      destruct (Hdang q Hq) as (ptr & ? & ?). exists ptr. split; [done|].
      apply elem_of_app. by left.
  - intros q1 q2 ptr Hq1 Hq2 Hp1 Hp2.
    destruct (decide (q1 = p)) as [->|Hq1p];
      destruct (decide (q2 = p)) as [->|Hq2p]; [done| | |].
    + rewrite list_lookup_insert_eq in Hp1 by lia. injection Hp1 as <-.
      rewrite list_lookup_insert_ne in Hq2 by done.
      rewrite list_lookup_insert_ne in Hp2 by done.
      destruct (Hdang q2 Hq2) as (ptr & ? & ?). congruence.
    + rewrite list_lookup_insert_eq in Hp2 by lia. injection Hp2 as <-.
      rewrite list_lookup_insert_ne in Hq1 by done.
      rewrite list_lookup_insert_ne in Hp1 by done.
      destruct (Hdang q1 Hq1) as (ptr & ? & ?). congruence.
    + rewrite list_lookup_insert_ne in Hq1 by done.
      rewrite list_lookup_insert_ne in Hq2 by done.
      rewrite list_lookup_insert_ne in Hp1 by done.
      rewrite list_lookup_insert_ne in Hp2 by done.
      eauto.
Qed.

Lemma rehash_returns fuel h n2 l :
  ∀ processed acc,
    rehash_inv n2 processed acc →
    NoDup (processed ++ l).*1 → length (processed ++ l) < n2 → n2 ≤ fuel →
    ∃ acc', for_each (rehash_step fuel h) l acc = Ok acc'
            ∧ rehash_inv n2 (processed ++ l) acc'.
Proof.
  induction l as [|it l IH]; intros processed acc Hinv Hnd Hlen Hfuel.
  - exists acc. by rewrite app_nil_r.
  - cbn [for_each].
    destruct (rehash_step_inv fuel h n2 processed acc it Hinv)
      as (acc1 & -> & Hinv1); [| |done|].
    + rewrite fmap_app in Hnd. apply NoDup_app in Hnd as (_ & Hdis & _).
      intros Hin. apply (Hdis _ Hin). cbn. by left.
    + rewrite length_app in Hlen. cbn in Hlen. lia.
    + cbn [mbind result_bind]. rewrite (cons_middle it processed l).
      rewrite app_assoc. apply IH; [done| | |done].
      * by rewrite <- app_assoc.
      * by rewrite <- app_assoc.
Qed.

Lemma check_size_safe fuel m :
  safe m → capacity m ≤ fuel → occupancy m * 8 ≤ fuel →
  ∃ m', check_size true fuel m = Ok m' ∧ safe m'
        ∧ occupancy m' * OCCUPANCY_COEFFICIENT < capacity m'
        ∧ hash m' = hash m
        ∧ occupancy m' ≤ occupancy m
        ∧ (capacity m' = capacity m
           ∨ capacity m' = capacity m * 2
             ∧ capacity m ≤ occupancy m * OCCUPANCY_COEFFICIENT).
Proof.
  intros Hsafe Hfuel Hfuel'.
  pose proof Hsafe
    as (Hlen & [[c Hc] Hocc] & Hfilled & Hcount & Hnd & Hlt & Hdang & Hinj).
  unfold OCCUPANCY_COEFFICIENT in *.
  destruct (decide (capacity m ≤ occupancy m * 4)) as [Hgrow|Hkeep].
  - destruct (rehash_returns fuel (hash m) (capacity m * 2) (values m) []
                (replicate (capacity m * 2) None,
                 replicate (capacity m * 2) STATE_EMPTY, occupancy m))
      as ([[np sts] occ] & Hfold & Hinv); [|done|cbn; lia|lia|].
    { unfold rehash_inv. cbn [fst snd length fmap list_fmap].
      rewrite !length_replicate, !count_state_replicate.
      repeat case_decide; try done. repeat split; try done.
      - intros p [? _]%lookup_replicate. done.
      - intros p q ptr [? _]%lookup_replicate. done. }
    pose proof (rehash_Ok _ _ _ _ _ _ _ _ _ Hfold) as (_ & _ & Hocc').
    destruct Hinv as (Hnp & Hsts & Herased & Hfilled' & Hdang' & Hinj').
    cbn [fst snd app] in *.
    unfold check_size, OCCUPANCY_COEFFICIENT. fold (capacity m).
    case_decide; [|done]. cbn [mbind result_bind].
    rewrite !length_replicate, Hfold. cbn [mbind result_bind].
    eexists. split; [done|]. unfold safe, quarter_full, no_dangling, capacity.
    cbn [states pointers values occupancy next_node hash].
    unfold capacity, OCCUPANCY_COEFFICIENT in *.
    assert (occ ≤ occupancy m) by (destruct (values m); lia).
    split; [|split; [|split; [done|split; [lia|right; split; lia]]]].
    + split; [lia|]. split; [split; [exists (c * 2); lia|lia]|].
      split; [lia|]. split; [lia|]. done.
    + destruct (values m); lia.
  - exists m. unfold check_size, OCCUPANCY_COEFFICIENT. fold (capacity m).
    case_decide; [done|]. split; [done|]. split; [done|].
    split; [lia|]. split; [done|]. split; [lia|by left].
Qed.

Lemma fill_slot_safe m pair (p : nat) s :
  safe m → occupancy m * OCCUPANCY_COEFFICIENT < capacity m →
  p < capacity m → states m !! p = Some s → s ≠ STATE_FILLED →
  ∃ m', fill_slot m pair p = Ok m' ∧ safe m'
        ∧ capacity m' = capacity m ∧ hash m' = hash m
        ∧ occupancy m' ≤ S (occupancy m)
        ∧ record_at m' p = Ok pair.
Proof.
  intros (Hlen & [[c Hc] Hocc] & Hfilled & Hcount & Hnd & Hlt & Hdang & Hinj)
         Hstrict Hp Hs Hne.
  unfold OCCUPANCY_COEFFICIENT in *.
  unfold fill_slot, state_at. fold (capacity m). case_decide; [lia|].
  rewrite Hs. cbn [mbind result_bind]. eexists. split; [done|].
  assert (next_node m ∉ (values m).*1) as Hfresh.
  { intros Hin%Hlt. lia. }
  pose proof (count_state_insert STATE_ERASED _ p _ STATE_FILLED Hs) as He.
  pose proof (count_state_insert STATE_FILLED _ p _ STATE_FILLED Hs) as Hf.
  assert (∃ grow, (if decide (s = STATE_EMPTY) then S (occupancy m)
                   else occupancy m) = occupancy m + grow
                  ∧ grow ≤ 1
                  ∧ (if decide (s = STATE_ERASED) then 1 else 0) + grow = 1)
    as (grow & -> & Hgrow & He').
  { destruct s; [exists 1|done|exists 0]; repeat case_decide; try done;
      split; lia. }
  rewrite decide_False in Hf by done.
  rewrite decide_True in Hf by done.
  rewrite (decide_False (P := STATE_FILLED = STATE_ERASED)) in He by done.
  revert He Hf.
  unfold safe, quarter_full, no_dangling, capacity, record_at, pointer_at.
  cbn [states pointers values occupancy next_node hash].
  unfold capacity, OCCUPANCY_COEFFICIENT in *.
  rewrite !length_insert, length_app, fmap_app. cbn [length fmap list_fmap fst].
  rewrite list_lookup_insert_eq by lia. cbn [mbind result_bind].
  rewrite deref_app_new by done. intros He Hf.
  split; [|split; [done|split; [done|split; [lia|done]]]].
  split; [done|]. split; [split; [by exists c|lia]|].
  split; [lia|]. split; [lia|].
  split.
  { apply NoDup_app. split; [done|]. split; [|apply NoDup_singleton].
    intros a Ha Ha'%list_elem_of_singleton. by subst. }
  split.
  { intros a [Ha%Hlt|Ha%list_elem_of_singleton]%elem_of_app; [lia|].
    subst. lia. }
  split.
  - intros q Hq. destruct (decide (q = p)) as [->|Hqp].
    + exists (next_node m). rewrite list_lookup_insert_eq by lia.
      split; [done|]. apply elem_of_app. right. by left.
    + rewrite list_lookup_insert_ne in Hq by done.
      rewrite list_lookup_insert_ne by done.
      destruct (Hdang q Hq) as (ptr & ? & ?). exists ptr. split; [done|].
      apply elem_of_app. by left.
  - intros q1 q2 ptr Hq1 Hq2 Hp1 Hp2.
    destruct (decide (q1 = p)) as [->|Hq1p];
      destruct (decide (q2 = p)) as [->|Hq2p]; [done| | |].
    + rewrite list_lookup_insert_eq in Hp1 by lia. injection Hp1 as <-.
      rewrite list_lookup_insert_ne in Hq2 by done.
      rewrite list_lookup_insert_ne in Hp2 by done.
      destruct (Hdang q2 Hq2) as (ptr & ? & ?). congruence.
    + rewrite list_lookup_insert_eq in Hp2 by lia. injection Hp2 as <-.
      rewrite list_lookup_insert_ne in Hq1 by done.
      rewrite list_lookup_insert_ne in Hp1 by done.
      destruct (Hdang q1 Hq1) as (ptr & ? & ?). congruence.
    + rewrite list_lookup_insert_ne in Hq1 by done.
      rewrite list_lookup_insert_ne in Hq2 by done.
      rewrite list_lookup_insert_ne in Hp1 by done.
      rewrite list_lookup_insert_ne in Hp2 by done.
      eauto.
Qed.

Lemma home_lt m key : 0 < capacity m → hash m key mod capacity m < capacity m.
Proof. intros. apply Nat.mod_upper_bound. lia. Qed.

Lemma lookup_safe m key fuel :
  safe m → capacity m ≤ fuel →
  ∃ p, (start ← slot_of (hash m key) (length (pointers m));
        lookup_loop fuel m key start) = Ok p
       ∧ p < capacity m
       ∧ (states m !! p = Some STATE_EMPTY
          ∨ states m !! p = Some STATE_FILLED).
Proof.
  intros Hsafe Hfuel.
  destruct (safe_empty_slot m Hsafe) as (Hpos & i & Hi & Hs).
  destruct Hsafe as (Hlen & _ & _ & _ & _ & _ & Hdang & _).
  unfold slot_of. fold (capacity m). case_decide; [lia|].
  cbn [mbind result_bind].
  apply (lookup_loop_returns m key i); try done; [by apply home_lt|].
  pose proof (distance_lt (capacity m) _ i (home_lt m key Hpos) Hi). lia.
Qed.

Lemma at_safe m key fuel :
  safe m → capacity m ≤ fuel → ∃ r, at_ fuel key m = Ok r.
Proof.
  intros Hsafe Hfuel.
  destruct (lookup_safe m key fuel Hsafe Hfuel) as (p & Hl & Hp & Hs).
  unfold at_. apply bind_Ok in Hl as (start & -> & Hl).
  cbn [mbind result_bind]. rewrite Hl. cbn [mbind result_bind].
  unfold state_at. destruct Hs as [Hs|Hs]; rewrite Hs;
    cbn [mbind result_bind]; case_decide; try done; [by eexists|].
  destruct Hsafe as (_ & _ & _ & _ & _ & _ & Hdang & _).
  destruct (record_at_is_Ok m p Hdang Hs) as [kv ->]. by eexists.
Qed.

Lemma erase_safe m key fuel :
  safe m → capacity m ≤ fuel →
  ∃ m', erase fuel key m = Ok m' ∧ safe m'
        ∧ capacity m' = capacity m ∧ occupancy m' = occupancy m.
Proof.
  intros Hsafe Hfuel.
  destruct (lookup_safe m key fuel Hsafe Hfuel) as (p & Hl & Hp & Hs).
  unfold erase. apply bind_Ok in Hl as (start & -> & Hl).
  cbn [mbind result_bind]. rewrite Hl. cbn [mbind result_bind].
  unfold state_at. destruct Hs as [Hs|Hs]; rewrite Hs;
    cbn [mbind result_bind]; case_decide; try done; [by exists m|].
  destruct Hsafe
    as (Hlen & Hquarter & Hfilled & Hcount & Hnd & Hlt & Hdang & Hinj).
  destruct (Hdang p Hs) as (ptr & Hptr & Hin).
  unfold pointer_at. rewrite Hptr. cbn [mbind result_bind].
  destruct (list_erase_is_Some _ _ Hin Hnd)
    as (values' & -> & Hlen' & Hnd' & Hin').
  eexists. split; [done|].
  pose proof (count_state_insert STATE_ERASED _ p _ STATE_ERASED Hs) as He.
  pose proof (count_state_insert STATE_FILLED _ p _ STATE_ERASED Hs) as Hf.
  rewrite decide_True in Hf by done.
  rewrite decide_False in Hf by done.
  rewrite decide_False in He by done.
  rewrite decide_True in He by done.
  revert He Hf.
  unfold safe, quarter_full, no_dangling, capacity.
  cbn [states pointers values occupancy next_node hash].
  unfold capacity in *. rewrite !length_insert. intros He Hf.
  split; [|done].
  split; [done|]. split; [done|]. split; [lia|]. split; [lia|].
  split; [done|]. split; [intros a [Ha _]%Hin'; auto|]. split.
  - intros q Hq. destruct (decide (q = p)) as [->|Hqp].
    { rewrite list_lookup_insert_eq in Hq by lia. done. }
    rewrite list_lookup_insert_ne in Hq by done.
    destruct (Hdang q Hq) as (ptr' & Hptr' & Hin''). exists ptr'.
    split; [done|]. apply Hin'. split; [done|].
    intros ->. apply Hqp. by apply (Hinj q p ptr).
  - intros q1 q2 ptr' Hq1 Hq2.
    destruct (decide (q1 = p)) as [->|Hq1p].
    { rewrite list_lookup_insert_eq in Hq1 by lia. done. }
    destruct (decide (q2 = p)) as [->|Hq2p].
    { rewrite list_lookup_insert_eq in Hq2 by lia. done. }
    rewrite list_lookup_insert_ne in Hq1 by done.
    rewrite list_lookup_insert_ne in Hq2 by done.
    by apply Hinj.
Qed.

Lemma insert_safe m pair fuel :
  safe m → capacity m ≤ fuel → occupancy m * 8 ≤ fuel →
  ∃ m', insert true fuel pair m = Ok m' ∧ safe m'
        ∧ occupancy m' ≤ S (occupancy m)
        ∧ (capacity m' = capacity m
           ∨ capacity m' = capacity m * 2
             ∧ capacity m ≤ occupancy m * OCCUPANCY_COEFFICIENT).
Proof.
  intros Hsafe Hfuel Hfuel'.
  destruct (check_size_safe fuel m Hsafe Hfuel Hfuel')
    as (m1 & Hcs & Hsafe1 & Hstrict & _ & Hocc1 & Hcap1).
  unfold insert. rewrite Hcs. cbn [mbind result_bind].
  destruct (safe_empty_slot m1 Hsafe1) as (Hpos & i & Hi & Hs).
  assert (capacity m1 ≤ fuel) as Hfuel1.
  { unfold OCCUPANCY_COEFFICIENT in *. lia. }
  unfold slot_of. fold (capacity m1). case_decide; [lia|].
  cbn [mbind result_bind].
  pose proof Hsafe1 as (Hlen & _ & _ & _ & _ & _ & Hdang & _).
  destruct (insert_loop_returns m1 pair.1 i STATE_EMPTY Hdang Hlen Hi Hs
              ltac:(done) fuel (hash m1 pair.1 mod capacity m1))
    as (r & -> & Hr); [by apply home_lt| |].
  { pose proof (distance_lt (capacity m1) _ i (home_lt m1 pair.1 Hpos) Hi).
    lia. }
  cbn [mbind result_bind]. destruct r as [p|].
  - destruct (Hr p eq_refl) as (Hp & s & Hs' & Hne).
    destruct (fill_slot_safe m1 pair p s Hsafe1 Hstrict Hp Hs' Hne)
      as (m' & -> & Hsafe' & Hcap' & _ & Hocc' & _).
    exists m'. split; [done|]. split; [done|]. split; [lia|].
    rewrite Hcap'. done.
  - exists m1. split; [done|]. split; [done|]. split; [lia|done].
Qed.

Lemma index_safe m key fuel :
  safe m → capacity m ≤ fuel → occupancy m * 8 ≤ fuel →
  ∃ m' v, index default_value true fuel key m = Ok (m', v) ∧ safe m'
          ∧ occupancy m' ≤ S (occupancy m)
          ∧ (capacity m' = capacity m
             ∨ capacity m' = capacity m * 2
               ∧ capacity m ≤ occupancy m * OCCUPANCY_COEFFICIENT).
Proof.
  intros Hsafe Hfuel Hfuel'.
  destruct (check_size_safe fuel m Hsafe Hfuel Hfuel')
    as (m1 & Hcs & Hsafe1 & Hstrict & _ & Hocc1 & Hcap1).
  unfold index. rewrite Hcs. cbn [mbind result_bind].
  assert (capacity m1 ≤ fuel) as Hfuel1.
  { unfold OCCUPANCY_COEFFICIENT in *. lia. }
  destruct (lookup_safe m1 key fuel Hsafe1 Hfuel1) as (p & Hl & Hp & Hs).
  apply bind_Ok in Hl as (start & -> & Hl).
  cbn [mbind result_bind]. rewrite Hl. cbn [mbind result_bind].
  unfold state_at. destruct Hs as [Hs|Hs]; rewrite Hs;
    cbn [mbind result_bind]; case_decide; try done.
  - destruct (fill_slot_safe m1 (key, default_value) p STATE_EMPTY
                Hsafe1 Hstrict Hp Hs ltac:(done))
      as (m' & -> & Hsafe' & Hcap' & _ & Hocc' & Hrec).
    cbn [mbind result_bind]. rewrite Hrec. cbn [mbind result_bind].
    exists m', default_value. split; [done|]. split; [done|]. split; [lia|].
    rewrite Hcap'. done.
  - cbn [mbind result_bind].
    pose proof Hsafe1 as (_ & _ & _ & _ & _ & _ & Hdang & _).
    destruct (record_at_is_Ok m1 p Hdang Hs) as [kv ->].
    cbn [mbind result_bind].
    exists m1, kv.2. split; [done|]. split; [done|]. split; [lia|done].
Qed.

(** After [k] calls [occupancy] is at most [k] and the capacity at most
    [8 (k + 1)]. *)
Definition bounded m (k : nat) : Prop :=
  occupancy m ≤ k ∧ capacity m ≤ 8 * (k + 1).

Lemma step_safe fuel m o (k : nat) :
  safe m → bounded m k → 8 * (k + 1) ≤ fuel → o ≠ op_clear →
  ∃ m', step default_value fuel m o = Ok m' ∧ safe m' ∧ bounded m' (S k).
Proof.
  intros Hsafe [Hocc Hcap] Hfuel Hclear. unfold bounded.
  unfold OCCUPANCY_COEFFICIENT in *.
  destruct o as [key value|key|key|]; cbn [step]; [| | |done].
  - destruct (insert_safe m (key, value) fuel Hsafe)
      as (m' & -> & Hsafe' & Hocc' & Hcap'); [lia|lia|].
    exists m'. split; [done|]. split; [done|].
    unfold OCCUPANCY_COEFFICIENT in *. lia.
  - destruct (index_safe m key fuel Hsafe)
      as (m' & v & -> & Hsafe' & Hocc' & Hcap'); [lia|lia|].
    exists m'. split; [done|]. split; [done|].
    unfold OCCUPANCY_COEFFICIENT in *. lia.
  - destruct (erase_safe m key fuel Hsafe)
      as (m' & -> & Hsafe' & Hcap' & Hocc'); [lia|].
    exists m'. split; [done|]. split; [done|]. lia.
Qed.

Lemma run_safe fuel ops :
  Forall (λ o, o ≠ op_clear) ops →
  ∀ m (k : nat),
    safe m → bounded m k → 8 * (k + length ops) ≤ fuel →
    ∃ m', run default_value fuel ops m = Ok m'
          ∧ safe m' ∧ bounded m' (k + length ops).
Proof.
  induction 1 as [|o ops Ho Hops IH]; intros m k Hsafe Hb Hfuel.
  - exists m. cbn [length]. rewrite Nat.add_0_r. by split.
  - cbn [length] in *. unfold run. cbn [for_each].
    destruct (step_safe fuel m o k Hsafe Hb) as (m1 & -> & Hsafe1 & Hb1);
      [lia|done|].
    cbn [mbind result_bind].
    destruct (IH m1 (S k) Hsafe1 Hb1) as (m' & Hr & Hsafe' & Hb'); [lia|].
    exists m'. split; [done|]. split; [done|].
    by replace (k + S (length ops)) with (S k + length ops) by lia.
Qed.

(** Every sequence of [insert], [operator[]] and [erase] calls on a new
    table runs to its end, and leaves a table on which [at] returns or
    throws for every key. *)
Lemma calls_without_clear_return h ops fuel key :
  Forall (λ o, o ≠ op_clear) ops → 8 * (length ops + 1) ≤ fuel →
  ∃ m, run default_value fuel ops (HashMap_new h) = Ok m
       ∧ (∃ i, i < capacity m ∧ states m !! i = Some STATE_EMPTY)
       ∧ ∃ r, at_ fuel key m = Ok r.
Proof.
  intros Hops Hfuel.
  destruct (run_safe fuel ops Hops (HashMap_new h) 0 (safe_new h))
    as (m & Hr & Hsafe & [_ Hcap]); [split; cbn; lia|lia|].
  exists m. split; [done|]. split; [by apply safe_empty_slot|].
  apply at_safe; [done|]. cbn in Hcap. lia.
Qed.

(** *** The probe chains of a table that was never cleared

    [erase] leaves a tombstone in the slot of the record it removes, so the
    walk from the home slot of a record to its slot never meets an empty
    slot.  This is what the lookups of [at], [operator[]], [erase] and
    [find] rely on. *)

(** The walk from the home slot of a record to its slot meets no empty slot,
    and every record has a slot. *)
Definition linked m : Prop :=
  (∀ p ptr kv,
     states m !! p = Some STATE_FILLED → pointers m !! p = Some (Some ptr) →
     deref (values m) ptr = Some kv →
     ∀ q, comes_before m (hash m kv.1 mod capacity m) q p →
          states m !! q ≠ Some STATE_EMPTY)
  ∧ (∀ ptr, ptr ∈ (values m).*1 →
            ∃ p, p < capacity m ∧ states m !! p = Some STATE_FILLED
                 ∧ pointers m !! p = Some (Some ptr)).

Lemma linked_new h : linked (HashMap_new (ValueType:=ValueType) h).
Proof.
  unfold linked, HashMap_new. cbn [states pointers values]. split.
  - intros p ptr kv [? _]%lookup_replicate. done.
  - intros ptr Hin. by apply elem_of_nil in Hin.
Qed.

Lemma distance_inj size position i j :
  position < size → i < size → j < size →
  distance size position i = distance size position j → i = j.
Proof. unfold distance; intros; repeat case_decide; lia. Qed.

Lemma distance_self size position : distance size position position = 0.
Proof. unfold distance; case_decide; lia. Qed.

Lemma deref_elem_of l (a : addr) kv : deref l a = Some kv → (a, kv) ∈ l.
Proof.
  induction l as [|[b kv'] l IH]; cbn; [done|]. case_decide as Hb.
  - intros [= ->]. subst. by left.
  - intros Hd. right. auto.
Qed.

Lemma elem_of_deref l (a : addr) kv :
  NoDup l.*1 → (a, kv) ∈ l → deref l a = Some kv.
Proof.
  induction l as [|[b kv'] l IH]; cbn; [by intros _ ?%elem_of_nil|].
  intros [Hb Hnd]%NoDup_cons [[= -> ->]|Hin]%elem_of_cons.
  - by case_decide.
  - case_decide as Hab; [|auto]. subst b. exfalso. apply Hb.
    by apply (list_elem_of_fmap_2 fst) in Hin.
Qed.

Lemma deref_list_erase l (a b : addr) l' :
  list_erase l a = Some l' → b ≠ a → deref l' b = deref l b.
Proof.
  revert l'. induction l as [|[c kv] l IH]; intros l'; [done|].
  cbn [list_erase deref]. case_decide as Hc.
  - intros [= <-] Hne. subst c. by rewrite decide_False.
  - intros He Hne. destruct (list_erase l a) as [l''|] eqn:Hl; [|done].
    injection He as <-. cbn [deref]. case_decide; [done|]. by apply IH.
Qed.

Lemma record_at_Ok m (p : nat) kv :
  record_at m p = Ok kv →
  ∃ ptr, pointers m !! p = Some (Some ptr) ∧ deref (values m) ptr = Some kv.
Proof.
  unfold record_at, pointer_at.
  destruct (pointers m !! p) as [[ptr|]|]; cbn [mbind result_bind]; try done.
  destruct (deref (values m) ptr) as [kv'|] eqn:Hd; [|done].
  intros [= ->]. eauto.
Qed.

Lemma no_erased_slot sts (q : nat) :
  count_state STATE_ERASED sts = 0 → sts !! q ≠ Some STATE_ERASED.
Proof. intros Hc Hq%count_state_lookup. lia. Qed.

Lemma filled_insert sts (p q : nat) :
  sts !! q = Some STATE_FILLED →
  <[p := STATE_FILLED]> sts !! q = Some STATE_FILLED.
Proof.
  intros Hq. destruct (decide (p = q)) as [->|Hne].
  - apply list_lookup_insert_eq. by apply lookup_lt_Some in Hq.
  - by rewrite list_lookup_insert_ne.
Qed.

Lemma not_empty_insert sts (p q : nat) s :
  s ≠ STATE_EMPTY → sts !! q ≠ Some STATE_EMPTY →
  <[p := s]> sts !! q ≠ Some STATE_EMPTY.
Proof.
  intros Hs Hq Hq'. destruct (decide (p = q)) as [->|Hne].
  - pose proof (lookup_lt_Some _ _ _ Hq') as Hlt.
    rewrite length_insert in Hlt.
    rewrite list_lookup_insert_eq in Hq' by done. congruence.
  - by rewrite list_lookup_insert_ne in Hq'.
Qed.

(** **** What the probe loops have walked over when they stop *)

Lemma rehash_loop_Ok fuel size sts :
  ∀ position p,
    position < size → length sts = size →
    rehash_loop fuel size sts position = Ok p →
    p < size
    ∧ (∃ s, sts !! p = Some s ∧ s ≠ STATE_FILLED)
    ∧ ∀ q, q < size → distance size position q < distance size position p →
           sts !! q = Some STATE_FILLED.
Proof.
  induction fuel as [|fuel IH]; intros position p Hpos Hlen Hl; [done|].
  cbn [rehash_loop] in Hl.
  destruct (sts !! position) as [s|] eqn:Hs; [|done].
  case_decide as Hf.
  - apply IH in Hl as (Hp & (s' & Hs' & Hne) & Hpath);
      [|apply advance_lt; lia|done].
    split; [done|]. split; [eauto|]. intros q Hq Hd.
    destruct (decide (position = q)) as [<-|Hq']; [congruence|].
    assert (position ≠ p) by (intros ->; congruence).
    apply Hpath; [done|].
    pose proof (distance_advance size position q Hpos Hq Hq').
    pose proof (distance_advance size position p Hpos Hp). lia.
  - injection Hl as <-. split; [done|]. split; [eauto|].
    intros q _. rewrite distance_self. lia.
Qed.

Lemma insert_loop_Some fuel m key :
  length (states m) = capacity m →
  ∀ position p,
    position < capacity m →
    insert_loop fuel m key position = Ok (Some p) →
    p < capacity m
    ∧ (∃ s, states m !! p = Some s ∧ s ≠ STATE_FILLED)
    ∧ ∀ q, comes_before m position q p → filled_with_other m key q.
Proof.
  intros Hlen.
  induction fuel as [|fuel IH]; intros position p Hpos Hl; [done|].
  cbn [insert_loop] in Hl. apply bind_Ok in Hl as (s & Hs%state_at_Ok & Hl).
  case_decide as Hf.
  - subst s. apply bind_Ok in Hl as (kv & Hr & Hl).
    case_decide as Hk; [done|].
    apply IH in Hl as (Hp & (s' & Hs' & Hne) & Hpath);
      [|apply advance_lt; lia].
    split; [done|]. split; [eauto|]. intros q [Hq Hd].
    destruct (decide (position = q)) as [<-|Hq'].
    + apply record_at_Ok in Hr as (ptr & Hptr & Hdr).
      by exists ptr, kv.
    + assert (position ≠ p) by (intros ->; congruence).
      apply Hpath. split; [done|].
      pose proof (distance_advance (capacity m) position q Hpos Hq Hq').
      pose proof (distance_advance (capacity m) position p Hpos Hp).
      unfold capacity in *. lia.
  - injection Hl as <-. split; [done|]. split; [eauto|].
    intros q [_ Hd]. rewrite distance_self in Hd. lia.
Qed.

Lemma insert_loop_None fuel m key :
  ∀ position,
    insert_loop fuel m key position = Ok None →
    ∃ p kv, states m !! p = Some STATE_FILLED
            ∧ record_at m p = Ok kv ∧ kv.1 = key.
Proof.
  induction fuel as [|fuel IH]; intros position Hl; [done|].
  cbn [insert_loop] in Hl. apply bind_Ok in Hl as (s & Hs%state_at_Ok & Hl).
  case_decide as Hf; [|done]. subst s. apply bind_Ok in Hl as (kv & Hr & Hl).
  case_decide as Hk; [eauto|]. eauto.
Qed.

Lemma lookup_loop_path fuel m key :
  length (states m) = capacity m →
  ∀ position p,
    position < capacity m →
    lookup_loop fuel m key position = Ok p →
    p < capacity m
    ∧ (states m !! p = Some STATE_EMPTY
       ∨ ∃ kv, states m !! p = Some STATE_FILLED
               ∧ record_at m p = Ok kv ∧ kv.1 = key)
    ∧ ∀ q, comes_before m position q p → steps_over m key q.
Proof.
  intros Hlen.
  induction fuel as [|fuel IH]; intros position p Hpos Hl; [done|].
  cbn [lookup_loop] in Hl. apply bind_Ok in Hl as (s & Hs%state_at_Ok & Hl).
  assert (steps_over m key position →
          lookup_loop fuel m key (advance (length (pointers m)) position)
          = Ok p →
          p < capacity m
          ∧ (states m !! p = Some STATE_EMPTY
             ∨ ∃ kv, states m !! p = Some STATE_FILLED
                     ∧ record_at m p = Ok kv ∧ kv.1 = key)
          ∧ ∀ q, comes_before m position q p → steps_over m key q)
    as Hnext.
  { intros Hover Hl'.
    apply IH in Hl' as (Hp & Hstop & Hpath); [|apply advance_lt; lia].
    split; [done|]. split; [done|]. intros q [Hq Hd].
    destruct (decide (position = q)) as [<-|Hq']; [done|].
    assert (position ≠ p).
    { intros ->. rewrite distance_self in Hd. lia. }
    apply Hpath. split; [done|].
    pose proof (distance_advance (capacity m) position q Hpos Hq Hq').
    pose proof (distance_advance (capacity m) position p Hpos Hp).
    unfold capacity in *. lia. }
  destruct s.
  - injection Hl as <-. split; [done|]. split; [by left|].
    intros q [_ Hd]. rewrite distance_self in Hd. lia.
  - apply bind_Ok in Hl as (kv & Hr & Hl). case_decide as Hk.
    + injection Hl as <-. split; [done|]. split; [right; eauto|].
      intros q [_ Hd]. rewrite distance_self in Hd. lia.
    + apply Hnext; [|done]. right.
      apply record_at_Ok in Hr as (ptr & Hptr & Hdr). by exists ptr, kv.
  - apply Hnext; [by left|done].
Qed.

(** **** [check_size] rebuilds the chains *)

(** The loop of [check_size] after the records [processed], on a table of
    [n2] slots with hash [h]; [all] is the whole record list. *)
Definition rehash_chain h (n2 : nat)
    (all processed : list (@record KeyType ValueType))
    (acc : list (option addr) * list slot_state * nat) : Prop :=
  (∀ p ptr kv,
     acc.1.2 !! p = Some STATE_FILLED → acc.1.1 !! p = Some (Some ptr) →
     deref all ptr = Some kv →
     ∀ q, q < n2 →
          distance n2 (h kv.1 mod n2) q < distance n2 (h kv.1 mod n2) p →
          acc.1.2 !! q = Some STATE_FILLED)
  ∧ (∀ ptr, ptr ∈ processed.*1 →
            ∃ p, p < n2 ∧ acc.1.2 !! p = Some STATE_FILLED
                 ∧ acc.1.1 !! p = Some (Some ptr)).

Lemma rehash_step_chain fuel h n2 all processed acc it acc' :
  rehash_inv n2 processed acc → rehash_chain h n2 all processed acc →
  deref all it.1 = Some it.2 → 0 < n2 →
  rehash_step fuel h acc it = Ok acc' →
  rehash_chain h n2 all (processed ++ [it]) acc'.
Proof.
  destruct acc as [[new_pointers sts] occ].
  unfold rehash_inv, rehash_chain. cbn [fst snd].
  intros (Hnp & Hsts & _) [Hchain Hslot] Hit Hpos Hstep.
  unfold rehash_step, slot_of in Hstep. rewrite Hnp in Hstep.
  case_decide; [lia|]. cbn [mbind result_bind] in Hstep.
  apply bind_Ok in Hstep as (p & Hloop & Hstep).
  case_decide; [done|]. injection Hstep as <-. cbn [fst snd].
  apply rehash_loop_Ok in Hloop as (Hp & (s & Hs & Hne) & Hpath);
    [|by apply Nat.mod_upper_bound|done].
  split.
  - intros p' ptr kv Hp' Hptr Hd q Hq Hdist. apply filled_insert.
    destruct (decide (p' = p)) as [->|Hp'p].
    + rewrite list_lookup_insert_eq in Hptr by lia. injection Hptr as <-.
      assert (kv = it.2) as -> by congruence. by apply Hpath.
    + rewrite list_lookup_insert_ne in Hp' by done.
      rewrite list_lookup_insert_ne in Hptr by done. eauto.
  - intros ptr Hin. rewrite fmap_app in Hin.
    apply elem_of_app in Hin as [Hin|Hin].
    + destruct (Hslot ptr Hin) as (p0 & Hp0 & Hs0 & Hptr0).
      assert (p0 ≠ p) by (intros ->; congruence).
      exists p0. by rewrite !list_lookup_insert_ne.
    + apply list_elem_of_singleton in Hin as ->.
      exists p. rewrite !list_lookup_insert_eq by lia. done.
Qed.

Lemma rehash_chain_fold fuel h n2 all l :
  ∀ processed acc acc',
    rehash_inv n2 processed acc → rehash_chain h n2 all processed acc →
    (∀ it, it ∈ l → deref all it.1 = Some it.2) →
    NoDup (processed ++ l).*1 → length (processed ++ l) < n2 → n2 ≤ fuel →
    for_each (rehash_step fuel h) l acc = Ok acc' →
    rehash_inv n2 (processed ++ l) acc'
    ∧ rehash_chain h n2 all (processed ++ l) acc'.
Proof.
  induction l as [|it l IH];
    intros processed acc acc' Hinv Hchain Hall Hnd Hlen Hfuel Hfold.
  - cbn in Hfold. injection Hfold as <-. by rewrite app_nil_r.
  - cbn [for_each] in Hfold. apply bind_Ok in Hfold as (acc1 & Hstep & Hfold).
    destruct (rehash_step_inv fuel h n2 processed acc it Hinv)
      as (acc1' & Hstep' & Hinv1); [| |done|].
    { rewrite fmap_app in Hnd. apply NoDup_app in Hnd as (_ & Hdis & _).
      intros Hin. apply (Hdis _ Hin). cbn. by left. }
    { rewrite length_app in Hlen. cbn in Hlen. lia. }
    assert (acc1' = acc1) as -> by congruence.
    rewrite (cons_middle it processed l), app_assoc.
    apply (IH (processed ++ [it]) acc1 acc'); try done.
    + apply (rehash_step_chain fuel h n2 all processed acc it); try done;
        [|lia]. apply Hall. by left.
    + intros it' Hin. apply Hall. by right.
    + by rewrite <- app_assoc.
    + by rewrite <- app_assoc.
Qed.

Lemma check_size_linked fuel m m' :
  safe m → linked m → capacity m ≤ fuel → occupancy m * 8 ≤ fuel →
  check_size true fuel m = Ok m' →
  linked m' ∧ values m' = values m
  ∧ (count_state STATE_ERASED (states m) = 0 →
     count_state STATE_ERASED (states m') = 0).
Proof.
  intros Hsafe Hlinked Hfuel Hfuel' Hcs.
  pose proof Hsafe
    as (Hlen & [[c Hc] Hocc] & Hfilled & Hcount & Hnd & Hlt & Hdang & Hinj).
  unfold OCCUPANCY_COEFFICIENT in *.
  unfold check_size, OCCUPANCY_COEFFICIENT in Hcs. fold (capacity m) in Hcs.
  case_decide as Hgrow; [|by injection Hcs as <-].
  apply bind_Ok in Hcs as ([[np sts] occ] & Hfold & Hcs).
  injection Hcs as <-. split; [|split; [done|]].
  all: rewrite !length_replicate in Hfold.
  all: apply (rehash_chain_fold fuel (hash m) (capacity m * 2) (values m)
                (values m) []) in Hfold as [Hinv [Hchain Hslot]];
    [|unfold rehash_inv; cbn [fst snd length fmap list_fmap];
      rewrite !length_replicate, !count_state_replicate;
      repeat case_decide; try done; repeat split; try done;
      [intros p [? _]%lookup_replicate; done
      |intros p q ptr [? _]%lookup_replicate; done]
     |split; [intros p ptr kv [? _]%lookup_replicate; done
             |intros ptr Hin; by apply elem_of_nil in Hin]
     |intros [a kv] Hin; by apply elem_of_deref
     |done|cbn [app]; lia|lia].
  - destruct Hinv as (Hnp & Hsts & _). cbn [fst snd app] in *.
    unfold linked, comes_before, capacity.
    cbn [states pointers values hash]. rewrite Hnp. split; [|done].
    intros p ptr kv Hp Hptr Hd q [Hq Hdist].
    by rewrite (Hchain p ptr kv Hp Hptr Hd q Hq Hdist).
  - destruct Hinv as (_ & _ & Herased & _). done.
Qed.

(** **** The probe on a table with its chains *)

(** A probe that stepped over erased slots and other keys up to an empty
    slot: the key is not in the table. *)
Lemma probe_miss m key (p : nat) :
  safe m → linked m →
  p < capacity m → states m !! p = Some STATE_EMPTY →
  (∀ q, comes_before m (hash m key mod capacity m) q p → steps_over m key q) →
  key ∉ (iteration m).*1.
Proof.
  intros (_ & _ & _ & _ & Hnd & _) [Hchain Hslot] Hp Hs Hpath Hin.
  apply list_elem_of_fmap in Hin as (kv & -> & Hin).
  apply list_elem_of_fmap in Hin as ([ptr kv'] & -> & Hin). cbn [snd] in *.
  destruct (Hslot ptr) as (pk & Hpk & Hsk & Hptr).
  { by apply (list_elem_of_fmap_2 fst) in Hin. }
  pose proof (elem_of_deref _ _ _ Hnd Hin) as Hd.
  assert (hash m kv'.1 mod capacity m < capacity m) as Hhome
    by (apply Nat.mod_upper_bound; lia).
  destruct (decide (distance (capacity m) (hash m kv'.1 mod capacity m) pk
                    < distance (capacity m) (hash m kv'.1 mod capacity m) p))
    as [Hlt|Hge].
  - destruct (Hpath pk) as [?|(ptr' & kv'' & _ & Hptr' & Hd' & Hk)];
      [by split|congruence|congruence].
  - destruct (decide (distance (capacity m) (hash m kv'.1 mod capacity m) p
                      < distance (capacity m) (hash m kv'.1 mod capacity m) pk))
      as [Hlt|Hge'].
    + by apply (Hchain pk ptr kv' Hsk Hptr Hd p).
    + assert (pk = p); [|congruence].
      apply (distance_inj (capacity m) (hash m kv'.1 mod capacity m));
        try done. lia.
Qed.

(** A slot with a record: the record is in the list. *)
Lemma probe_hit m (p : nat) kv : record_at m p = Ok kv → kv ∈ iteration m.
Proof.
  intros (ptr & _ & Hd%deref_elem_of)%record_at_Ok.
  by apply (list_elem_of_fmap_2 snd) in Hd.
Qed.

Lemma fill_slot_linked m pair (p : nat) s m' :
  safe m → linked m →
  p < capacity m → states m !! p = Some s → s ≠ STATE_FILLED →
  (∀ q, comes_before m (hash m pair.1 mod capacity m) q p →
        states m !! q ≠ Some STATE_EMPTY) →
  fill_slot m pair p = Ok m' →
  linked m'.
Proof.
  intros (Hlen & _ & _ & _ & Hnd & Hlt & Hdang & _) [Hchain Hslot]
         Hp Hs Hne Hpath Hfill.
  unfold fill_slot in Hfill. fold (capacity m) in Hfill.
  case_decide; [lia|]. apply bind_Ok in Hfill as (s' & _ & Hfill).
  injection Hfill as <-.
  assert (next_node m ∉ (values m).*1) as Hfresh.
  { intros Hin%Hlt. lia. }
  unfold linked, comes_before, capacity in *.
  cbn [states pointers values hash]. rewrite length_insert. split.
  - intros p' ptr kv Hp' Hptr Hd q Hq. apply not_empty_insert; [done|].
    destruct (decide (p' = p)) as [->|Hp'p].
    + rewrite list_lookup_insert_eq in Hptr by lia. injection Hptr as <-.
      rewrite deref_app_new in Hd by done. injection Hd as <-. auto.
    + rewrite list_lookup_insert_ne in Hp' by done.
      rewrite list_lookup_insert_ne in Hptr by done.
      destruct (Hdang p' Hp') as (ptr' & Hptr' & Hin).
      assert (ptr' = ptr) as -> by congruence.
      rewrite deref_app_l in Hd by done. eauto.
  - intros ptr Hin. rewrite fmap_app in Hin.
    apply elem_of_app in Hin as [Hin|Hin].
    + destruct (Hslot ptr Hin) as (p0 & Hp0 & Hs0 & Hptr0).
      assert (p0 ≠ p) by (intros ->; congruence).
      exists p0. by rewrite !list_lookup_insert_ne.
    + apply list_elem_of_singleton in Hin as ->.
      exists p. rewrite !list_lookup_insert_eq by lia. done.
Qed.

Lemma steps_over_not_empty m key (q : nat) :
  steps_over m key q → states m !! q ≠ Some STATE_EMPTY.
Proof. intros [?|(? & ? & ? & _)]; congruence. Qed.

Lemma filled_with_other_steps_over m key (q : nat) :
  filled_with_other m key q → steps_over m key q.
Proof. intros ?. by right. Qed.

Lemma insert_linked fuel pair m m' :
  safe m → linked m → capacity m ≤ fuel → occupancy m * 8 ≤ fuel →
  insert true fuel pair m = Ok m' → linked m'.
Proof.
  intros Hsafe Hlinked Hfuel Hfuel' Hins.
  destruct (check_size_safe fuel m Hsafe Hfuel Hfuel')
    as (m1 & Hcs & Hsafe1 & _).
  destruct (check_size_linked fuel m m1 Hsafe Hlinked Hfuel Hfuel' Hcs)
    as (Hlinked1 & _).
  unfold insert in Hins. rewrite Hcs in Hins. cbn [mbind result_bind] in Hins.
  destruct (safe_empty_slot m1 Hsafe1) as (Hpos & _).
  unfold slot_of in Hins. fold (capacity m1) in Hins.
  case_decide; [lia|]. cbn [mbind result_bind] in Hins.
  apply bind_Ok in Hins as (r & Hloop & Hins).
  destruct r as [p|]; [|by injection Hins as <-].
  apply insert_loop_Some in Hloop as (Hp & (s & Hs & Hne) & Hpath);
    [|apply Hsafe1|by apply home_lt].
  apply (fill_slot_linked m1 pair p s); try done.
  intros q Hq.
  by apply (steps_over_not_empty m1 pair.1), filled_with_other_steps_over, Hpath.
Qed.

Lemma index_linked fuel key m m' v :
  safe m → linked m → capacity m ≤ fuel → occupancy m * 8 ≤ fuel →
  index default_value true fuel key m = Ok (m', v) → linked m'.
Proof.
  intros Hsafe Hlinked Hfuel Hfuel' Hidx.
  destruct (check_size_safe fuel m Hsafe Hfuel Hfuel')
    as (m1 & Hcs & Hsafe1 & _).
  destruct (check_size_linked fuel m m1 Hsafe Hlinked Hfuel Hfuel' Hcs)
    as (Hlinked1 & _).
  unfold index in Hidx. rewrite Hcs in Hidx. cbn [mbind result_bind] in Hidx.
  destruct (safe_empty_slot m1 Hsafe1) as (Hpos & _).
  unfold slot_of in Hidx. fold (capacity m1) in Hidx.
  case_decide; [lia|]. cbn [mbind result_bind] in Hidx.
  apply bind_Ok in Hidx as (p & Hloop & Hidx).
  apply bind_Ok in Hidx as (s & Hs%state_at_Ok & Hidx).
  apply bind_Ok in Hidx as (m2 & Hm2 & Hidx).
  apply bind_Ok in Hidx as (kv & _ & Hidx). injection Hidx as <- _.
  case_decide as Hf; [by injection Hm2 as <-|].
  apply lookup_loop_path in Hloop as (Hp & _ & Hpath);
    [|apply Hsafe1|by apply home_lt].
  apply (fill_slot_linked m1 (key, default_value) p s); try done.
  intros q Hq. by apply (steps_over_not_empty m1 key), Hpath.
Qed.

Lemma erase_linked fuel key m m' :
  safe m → linked m → erase fuel key m = Ok m' → linked m'.
Proof.
  intros (Hlen & _ & _ & _ & Hnd & _ & Hdang & Hinj) [Hchain Hslot] He.
  unfold erase in He.
  apply bind_Ok in He as (start & _ & He).
  apply bind_Ok in He as (p & _ & He).
  apply bind_Ok in He as (s & Hs%state_at_Ok & He).
  case_decide as Hf; [|by injection He as <-]. subst s.
  destruct (Hdang p Hs) as (ptr & Hptr & Hin).
  unfold pointer_at in He. rewrite Hptr in He. cbn [mbind result_bind] in He.
  destruct (list_erase_is_Some _ _ Hin Hnd) as (values' & Hl & _ & _ & Hin').
  rewrite Hl in He. injection He as <-.
  unfold linked, comes_before, capacity in *.
  cbn [states pointers values hash]. split.
  - intros p' ptr' kv Hp' Hptr' Hd q Hq. apply not_empty_insert; [done|].
    destruct (decide (p' = p)) as [->|Hp'p].
    { apply lookup_lt_Some in Hs.
      rewrite list_lookup_insert_eq in Hp' by done. done. }
    rewrite list_lookup_insert_ne in Hp' by done.
    assert (ptr' ≠ ptr) as Hne.
    { intros ->. apply Hp'p. by apply (Hinj p' p ptr). }
    rewrite (deref_list_erase _ _ _ _ Hl Hne) in Hd. eauto.
  - intros ptr' [Hin'' Hne]%Hin'.
    destruct (Hslot ptr' Hin'') as (p0 & Hp0 & Hs0 & Hptr0).
    assert (p0 ≠ p) by (intros ->; congruence).
    exists p0. by rewrite list_lookup_insert_ne.
Qed.

Lemma step_linked fuel m o (k : nat) m' :
  safe m → linked m → bounded m k → 8 * (k + 1) ≤ fuel → o ≠ op_clear →
  step default_value fuel m o = Ok m' → linked m'.
Proof.
  intros Hsafe Hlinked [Hocc Hcap] Hfuel Hclear Hstep.
  destruct o as [key value|key|key|]; cbn [step] in Hstep; [| | |done].
  - apply (insert_linked fuel (key, value) m); try done; lia.
  - apply bind_Ok in Hstep as ([m2 v] & Hidx & [= ->]).
    apply (index_linked fuel key m m' v); try done; lia.
  - by apply (erase_linked fuel key m).
Qed.

Lemma run_linked fuel ops :
  Forall (λ o, o ≠ op_clear) ops →
  ∀ m (k : nat),
    safe m → linked m → bounded m k → 8 * (k + length ops) ≤ fuel →
    ∃ m', run default_value fuel ops m = Ok m'
          ∧ safe m' ∧ linked m' ∧ bounded m' (k + length ops).
Proof.
  induction 1 as [|o ops Ho Hops IH]; intros m k Hsafe Hlinked Hb Hfuel.
  - exists m. cbn [length]. rewrite Nat.add_0_r.
    split; [done|]. split; [done|]. by split.
  - cbn [length] in *. unfold run. cbn [for_each].
    destruct (step_safe fuel m o k Hsafe Hb) as (m1 & Hstep & Hsafe1 & Hb1);
      [lia|done|].
    assert (linked m1) as Hlinked1.
    { apply (step_linked fuel m o k); try done. lia. }
    rewrite Hstep. cbn [mbind result_bind].
    destruct (IH m1 (S k) Hsafe1 Hlinked1 Hb1) as (m' & Hr & ? & ? & ?); [lia|].
    exists m'. split; [done|]. split; [done|]. split; [done|].
    by replace (k + S (length ops)) with (S k + length ops) by lia.
Qed.

(** [at] on a table that keeps its chains: it throws when no record has the
    key, and returns the value of a record of the key when there is one. *)
Lemma at_linked m key fuel :
  safe m → linked m → capacity m ≤ fuel →
  (key ∉ (iteration m).*1 → at_ fuel key m = Ok at_throws_out_of_range)
  ∧ (key ∈ (iteration m).*1 →
     ∃ v, (key, v) ∈ iteration m ∧ at_ fuel key m = Ok (at_returns v)).
Proof.
  intros Hsafe Hlinked Hfuel.
  destruct (lookup_safe m key fuel Hsafe Hfuel) as (p & Hloop & Hp & _).
  destruct (safe_empty_slot m Hsafe) as (Hpos & _).
  unfold at_. unfold slot_of in *. fold (capacity m) in *.
  case_decide; [lia|]. cbn [mbind result_bind] in *.
  rewrite Hloop. cbn [mbind result_bind].
  apply lookup_loop_path in Hloop as (_ & Hstop & Hpath);
    [|apply Hsafe|by apply home_lt].
  unfold state_at. destruct Hstop as [Hempty|(kv & Hs & Hr & Hk)].
  - pose proof (probe_miss m key p Hsafe Hlinked Hp Hempty Hpath) as Hmiss.
    rewrite Hempty. cbn [mbind result_bind]. by rewrite decide_False.
  - pose proof (probe_hit m p kv Hr) as Hhit.
    rewrite Hs. cbn [mbind result_bind]. rewrite decide_True by done.
    rewrite Hr. cbn [mbind result_bind]. split.
    + intros Hmiss. exfalso. apply Hmiss. rewrite <- Hk.
      by apply list_elem_of_fmap_2.
    + intros _. exists kv.2. split; [|done].
      by rewrite <- Hk, <- surjective_pairing.
Qed.

(** X15.  When every allocation of [check_size] succeeds: after any sequence
    of [insert], [operator[]] and [erase] calls on a new table, [at] throws
    for an absent key and returns the value of a record of the key for a
    present one. *)
Lemma at_after_calls_without_clear h ops fuel key :
  Forall (λ o, o ≠ op_clear) ops → 8 * (length ops + 1) ≤ fuel →
  ∃ m, run default_value fuel ops (HashMap_new h) = Ok m
       ∧ (key ∉ (iteration m).*1 → at_ fuel key m = Ok at_throws_out_of_range)
       ∧ (key ∈ (iteration m).*1 →
          ∃ v, (key, v) ∈ iteration m ∧ at_ fuel key m = Ok (at_returns v)).
Proof.
  intros Hops Hfuel.
  destruct (run_linked fuel ops Hops (HashMap_new h) 0
              (safe_new h) (linked_new h))
    as (m & Hr & Hsafe & Hlinked & [_ Hcap]); [split; cbn; lia|lia|].
  exists m. split; [done|]. apply at_linked; [done|done|]. cbn in Hcap. lia.
Qed.

(** *** The record list and the specification

    [operator[]] and [erase] look the key up with a loop that steps over
    erased slots, so they find every key that is in the table.  The loop of
    [insert] stops at an erased slot: it finds every key only as long as
    the table has no erased slot. *)

(** The record list after a call, as the specification words it: [insert]
    of a key that is there changes nothing, otherwise it appends the pair;
    [operator[]] inserts the key with a default value when it is missing;
    [erase] removes the record of the key; [clear] empties the list. *)
Definition spec_insert pair (pairs : list (KeyType * ValueType))
  : list (KeyType * ValueType) :=
  if decide (pair.1 ∈ pairs.*1) then pairs else pairs ++ [pair].

Definition spec_erase key (pairs : list (KeyType * ValueType))
  : list (KeyType * ValueType) :=
  filter (λ kv, kv.1 ≠ key) pairs.

Definition spec_step (pairs : list (KeyType * ValueType)) (o : op)
  : list (KeyType * ValueType) :=
  match o with
  | op_insert key value => spec_insert (key, value) pairs
  | op_index key => spec_insert (key, default_value) pairs
  | op_erase key => spec_erase key pairs
  | op_clear => []
  end.

Definition spec_run (ops : list op) : list (KeyType * ValueType) :=
  fold_left spec_step ops [].

(** The chains are there and no key has two records. *)
Definition distinct m : Prop := linked m ∧ NoDup (iteration m).*1.

Definition no_erased m : Prop := count_state STATE_ERASED (states m) = 0.

Lemma distinct_new h : distinct (HashMap_new (ValueType:=ValueType) h).
Proof. split; [apply linked_new|constructor]. Qed.

Lemma no_erased_new h : no_erased (HashMap_new (ValueType:=ValueType) h).
Proof.
  unfold no_erased, HashMap_new. cbn [states].
  rewrite count_state_replicate. by case_decide.
Qed.

Lemma spec_insert_present pair (pairs : list (KeyType * ValueType)) :
  pair.1 ∈ pairs.*1 → spec_insert pair pairs = pairs.
Proof. intros Hin. unfold spec_insert. by rewrite decide_True. Qed.

Lemma spec_insert_absent pair (pairs : list (KeyType * ValueType)) :
  pair.1 ∉ pairs.*1 → spec_insert pair pairs = pairs ++ [pair].
Proof. intros Hin. unfold spec_insert. by rewrite decide_False. Qed.

Lemma spec_erase_absent key (pairs : list (KeyType * ValueType)) :
  key ∉ pairs.*1 → spec_erase key pairs = pairs.
Proof.
  unfold spec_erase. induction pairs as [|kv pairs IH]; [done|].
  cbn [fmap list_fmap]. intros [Hne Hnot]%not_elem_of_cons.
  rewrite filter_cons_True by (intros ?; by apply Hne). f_equal. auto.
Qed.

Lemma spec_erase_present kv (before after : list (KeyType * ValueType)) :
  NoDup (before ++ kv :: after).*1 →
  spec_erase kv.1 (before ++ kv :: after) = before ++ after.
Proof.
  rewrite fmap_app. cbn [fmap list_fmap].
  intros (_ & Hdis & [Hafter _]%NoDup_cons)%NoDup_app.
  unfold spec_erase. rewrite filter_app, filter_cons_False by (intros ?; done).
  fold (spec_erase kv.1 before). fold (spec_erase kv.1 after).
  rewrite !spec_erase_absent; [done|done|].
  intros Hin. apply (Hdis _ Hin). by left.
Qed.

Lemma fill_slot_refines m pair (p : nat) m' :
  safe m → distinct m →
  p < capacity m → states m !! p = Some STATE_EMPTY →
  (∀ q, comes_before m (hash m pair.1 mod capacity m) q p →
        steps_over m pair.1 q) →
  fill_slot m pair p = Ok m' →
  distinct m' ∧ iteration m' = spec_insert pair (iteration m)
  ∧ (no_erased m → no_erased m').
Proof.
  intros Hsafe [Hlinked Hkeys] Hp Hs Hpath Hfill.
  pose proof (probe_miss m pair.1 p Hsafe Hlinked Hp Hs Hpath) as Hmiss.
  assert (linked m') as Hlinked'.
  { apply (fill_slot_linked m pair p STATE_EMPTY); try done.
    intros q Hq. by apply (steps_over_not_empty m pair.1), Hpath. }
  rewrite spec_insert_absent by done.
  unfold fill_slot in Hfill. case_decide; [done|].
  apply bind_Ok in Hfill as (s & _ & Hfill). injection Hfill as <-.
  pose proof (count_state_insert STATE_ERASED _ p _ STATE_FILLED Hs) as He.
  rewrite !decide_False in He by done.
  unfold distinct, no_erased, iteration in *. cbn [states values] in *.
  rewrite !fmap_app. cbn [fmap list_fmap snd fst].
  split; [|split; [done|lia]]. split; [done|].
  apply NoDup_app. split; [done|]. split; [|apply NoDup_singleton].
  intros k Hk Hk'%list_elem_of_singleton. by subst.
Qed.

Lemma check_size_distinct fuel m m' :
  safe m → distinct m → capacity m ≤ fuel → occupancy m * 8 ≤ fuel →
  check_size true fuel m = Ok m' →
  distinct m' ∧ iteration m' = iteration m ∧ (no_erased m → no_erased m').
Proof.
  intros Hsafe [Hlinked Hkeys] Hfuel Hfuel' Hcs.
  destruct (check_size_linked fuel m m' Hsafe Hlinked Hfuel Hfuel' Hcs)
    as (Hlinked' & Hvalues & Herased).
  unfold distinct, iteration. rewrite Hvalues. done.
Qed.

(** [insert] on a table without erased slots does what the specification
    says. *)
Lemma insert_refines fuel pair m m' :
  safe m → distinct m → no_erased m →
  capacity m ≤ fuel → occupancy m * 8 ≤ fuel →
  insert true fuel pair m = Ok m' →
  distinct m' ∧ iteration m' = spec_insert pair (iteration m) ∧ no_erased m'.
Proof.
  intros Hsafe Hdistinct Herased Hfuel Hfuel' Hins.
  destruct (check_size_safe fuel m Hsafe Hfuel Hfuel')
    as (m1 & Hcs & Hsafe1 & _).
  destruct (check_size_distinct fuel m m1 Hsafe Hdistinct Hfuel Hfuel' Hcs)
    as (Hdistinct1 & <- & Herased1).
  unfold insert in Hins. rewrite Hcs in Hins. cbn [mbind result_bind] in Hins.
  destruct (safe_empty_slot m1 Hsafe1) as (Hpos & _).
  unfold slot_of in Hins. fold (capacity m1) in Hins.
  case_decide; [lia|]. cbn [mbind result_bind] in Hins.
  apply bind_Ok in Hins as (r & Hloop & Hins).
  destruct r as [p|].
  - apply insert_loop_Some in Hloop as (Hp & (s & Hs & Hne) & Hpath);
      [|apply Hsafe1|by apply home_lt].
    assert (s = STATE_EMPTY) as ->.
    { destruct s; [done|done|].
      apply no_erased_slot in Hs; [done|by apply Herased1]. }
    destruct (fill_slot_refines m1 pair p m') as (? & ? & ?); auto.
    intros q Hq. by apply filled_with_other_steps_over, Hpath.
  - injection Hins as <-. split; [done|]. split; [|auto].
    apply insert_loop_None in Hloop as (p & kv & _ & Hr & Hk).
    symmetry. apply spec_insert_present. rewrite <- Hk.
    by eapply list_elem_of_fmap_2, probe_hit.
Qed.

(** [operator[]] does what the specification says, erased slots or not. *)
Lemma index_refines fuel key m m' v :
  safe m → distinct m → capacity m ≤ fuel → occupancy m * 8 ≤ fuel →
  index default_value true fuel key m = Ok (m', v) →
  distinct m' ∧ iteration m' = spec_insert (key, default_value) (iteration m)
  ∧ (no_erased m → no_erased m').
Proof.
  intros Hsafe Hdistinct Hfuel Hfuel' Hidx.
  destruct (check_size_safe fuel m Hsafe Hfuel Hfuel')
    as (m1 & Hcs & Hsafe1 & _).
  destruct (check_size_distinct fuel m m1 Hsafe Hdistinct Hfuel Hfuel' Hcs)
    as (Hdistinct1 & <- & Herased1).
  unfold index in Hidx. rewrite Hcs in Hidx. cbn [mbind result_bind] in Hidx.
  destruct (safe_empty_slot m1 Hsafe1) as (Hpos & _).
  unfold slot_of in Hidx. fold (capacity m1) in Hidx.
  case_decide; [lia|]. cbn [mbind result_bind] in Hidx.
  apply bind_Ok in Hidx as (p & Hloop & Hidx).
  apply bind_Ok in Hidx as (s & Hs%state_at_Ok & Hidx).
  apply bind_Ok in Hidx as (m2 & Hm2 & Hidx).
  apply bind_Ok in Hidx as (kv & _ & Hidx). injection Hidx as <- _.
  apply lookup_loop_path in Hloop as (Hp & Hstop & Hpath);
    [|apply Hsafe1|by apply home_lt].
  case_decide as Hf.
  - injection Hm2 as <-. split; [done|]. split; [|done].
    destruct Hstop as [?|(kv' & _ & Hr & Hk)]; [congruence|].
    symmetry. apply spec_insert_present. cbn [fst]. rewrite <- Hk.
    by eapply list_elem_of_fmap_2, probe_hit.
  - destruct Hstop as [Hempty|(kv' & ? & _)]; [|congruence].
    destruct (fill_slot_refines m1 (key, default_value) p m2)
      as (? & ? & ?); auto.
Qed.

(** [erase] does what the specification says, erased slots or not. *)
Lemma erase_refines fuel key m m' :
  safe m → distinct m → erase fuel key m = Ok m' →
  distinct m' ∧ iteration m' = spec_erase key (iteration m).
Proof.
  intros Hsafe [Hlinked Hkeys] He.
  pose proof (erase_linked fuel key m m' Hsafe Hlinked He) as Hlinked'.
  destruct (safe_empty_slot m Hsafe) as (Hpos & _).
  unfold erase, slot_of in He. fold (capacity m) in He.
  case_decide; [lia|]. cbn [mbind result_bind] in He.
  apply bind_Ok in He as (p & Hloop & He).
  apply bind_Ok in He as (s & Hs%state_at_Ok & He).
  apply lookup_loop_path in Hloop as (Hp & Hstop & Hpath);
    [|apply Hsafe|by apply home_lt].
  case_decide as Hf.
  - destruct Hstop as [?|(kv & _ & Hr & Hk)]; [congruence|].
    apply record_at_Ok in Hr as (ptr & Hptr & Hd).
    unfold pointer_at in He. rewrite Hptr in He.
    cbn [mbind result_bind] in He.
    destruct (list_erase (values m) ptr) as [values'|] eqn:Hl; [|done].
    injection He as <-.
    destruct (list_erase_Some _ _ _ _ Hl Hd) as (l1 & l2 & Hv & ->).
    unfold distinct, iteration in *. cbn [values] in *. rewrite Hv in *.
    rewrite !fmap_app in *. cbn [fmap list_fmap snd] in *.
    rewrite <- Hk. rewrite spec_erase_present by by rewrite fmap_app.
    split; [|done]. split; [done|].
    apply NoDup_app in Hkeys as (Hk1 & Hdis & [_ Hk2]%NoDup_cons).
    apply NoDup_app. split; [done|]. split; [|done].
    intros k Hin Hin'. apply (Hdis k Hin). by right.
  - injection He as <-. split; [done|].
    destruct Hstop as [Hempty|(kv & ? & _)]; [|congruence].
    symmetry. apply spec_erase_absent.
    by apply (probe_miss m key p).
Qed.

(** **** Sequences of calls *)

(** The calls that only add records, and the calls that look the key up with
    the loop that steps over erased slots. *)
Definition adds (o : @op KeyType ValueType) : Prop :=
  match o with
  | op_insert _ _ | op_index _ => True
  | op_erase _ | op_clear => False
  end.

Definition looks_up (o : @op KeyType ValueType) : Prop :=
  match o with
  | op_index _ | op_erase _ => True
  | op_insert _ _ | op_clear => False
  end.

Lemma step_adds fuel m o (k : nat) m' :
  adds o → safe m → distinct m ∧ no_erased m → bounded m k →
  8 * (k + 1) ≤ fuel → step default_value fuel m o = Ok m' →
  (distinct m' ∧ no_erased m') ∧ iteration m' = spec_step (iteration m) o.
Proof.
  intros Ho Hsafe [Hdistinct Herased] [Hocc Hcap] Hfuel Hstep.
  destruct o as [key value|key|key|]; cbn [step spec_step] in *; try done.
  - destruct (insert_refines fuel (key, value) m m') as (? & ? & ?);
      try done; lia.
  - apply bind_Ok in Hstep as ([m2 v] & Hidx & [= ->]).
    destruct (index_refines fuel key m m' v) as (? & ? & ?);
      try done; [lia|lia|auto].
Qed.

Lemma step_looks_up fuel m o (k : nat) m' :
  looks_up o → safe m → distinct m → bounded m k →
  8 * (k + 1) ≤ fuel → step default_value fuel m o = Ok m' →
  distinct m' ∧ iteration m' = spec_step (iteration m) o.
Proof.
  intros Ho Hsafe Hdistinct [Hocc Hcap] Hfuel Hstep.
  destruct o as [key value|key|key|]; cbn [step spec_step] in *; try done.
  - apply bind_Ok in Hstep as ([m2 v] & Hidx & [= ->]).
    destruct (index_refines fuel key m m' v) as (? & ? & ?);
      try done; lia.
  - by apply (erase_refines fuel key m m').
Qed.

(** A sequence of calls of a kind that keeps [I] and steps as the
    specification says runs to its end and refines the specification. *)
Lemma run_refines (I : @HashMap KeyType ValueType → Prop)
    (allowed : @op KeyType ValueType → Prop) fuel :
  (∀ o, allowed o → o ≠ op_clear) →
  (∀ m o (k : nat) m',
     allowed o → safe m → I m → bounded m k → 8 * (k + 1) ≤ fuel →
     step default_value fuel m o = Ok m' →
     I m' ∧ iteration m' = spec_step (iteration m) o) →
  ∀ ops, Forall allowed ops →
  ∀ m (k : nat),
    safe m → I m → bounded m k → 8 * (k + length ops) ≤ fuel →
    ∃ m', run default_value fuel ops m = Ok m'
          ∧ safe m' ∧ I m' ∧ bounded m' (k + length ops)
          ∧ iteration m' = fold_left spec_step ops (iteration m).
Proof.
  intros Hclear Hkeeps ops.
  induction 1 as [|o ops Ho Hops IH]; intros m k Hsafe HI Hb Hfuel.
  - exists m. cbn [length]. rewrite Nat.add_0_r.
    split; [done|]. split; [done|]. split; [done|]. by split.
  - cbn [length] in *. unfold run. cbn [for_each fold_left].
    destruct (step_safe fuel m o k Hsafe Hb) as (m1 & Hstep & Hsafe1 & Hb1);
      [lia|auto|].
    destruct (Hkeeps m o k m1) as [HI1 <-]; try done; [lia|].
    rewrite Hstep. cbn [mbind result_bind].
    destruct (IH m1 (S k) Hsafe1 HI1 Hb1) as (m' & Hr & ? & ? & ? & ?); [lia|].
    exists m'. split; [done|]. split; [done|]. split; [done|]. split; [|done].
    by replace (k + S (length ops)) with (S k + length ops) by lia.
Qed.

Lemma adds_not_clear o : adds o → o ≠ op_clear.
Proof. by destruct o. Qed.

Lemma looks_up_not_clear o : looks_up o → o ≠ op_clear.
Proof. by destruct o. Qed.

(** Every sequence of calls on a new table in which no [insert] follows an
    [erase], and that does not call [clear], runs to its end; the table then
    iterates the record list of the specification: the keys that were
    inserted and not erased since, in the order of their insertion, each
    once. *)
Lemma calls_refine h ops1 ops2 fuel :
  Forall adds ops1 → Forall looks_up ops2 →
  8 * (length (ops1 ++ ops2) + 1) ≤ fuel →
  ∃ m, run default_value fuel (ops1 ++ ops2) (HashMap_new h) = Ok m
       ∧ iteration m = spec_run (ops1 ++ ops2)
       ∧ NoDup (iteration m).*1.
Proof.
  intros Hops1 Hops2 Hfuel. rewrite length_app in Hfuel.
  destruct (run_refines (λ m, distinct m ∧ no_erased m) adds fuel
              adds_not_clear (step_adds fuel) ops1 Hops1 (HashMap_new h) 0
              (safe_new h) (conj (distinct_new h) (no_erased_new h)))
    as (m1 & Hr1 & Hsafe1 & [Hdistinct1 _] & Hb1 & Hit1);
    [split; cbn; lia|lia|].
  destruct (run_refines distinct looks_up fuel looks_up_not_clear
              (step_looks_up fuel) ops2 Hops2 m1 (0 + length ops1)
              Hsafe1 Hdistinct1 Hb1)
    as (m & Hr2 & _ & Hdistinct & _ & Hit); [lia|].
  exists m. unfold run, spec_run in *.
  rewrite for_each_app, Hr1, fold_left_app. cbn [mbind result_bind].
  split; [done|]. split; [by rewrite Hit, Hit1|apply Hdistinct].
Qed.

(** **** The copy constructor *)

(** The hash object of a table is the one given to its constructor: no call
    changes it. *)
Lemma hash_insert alloc_ok fuel pair m m' :
  insert alloc_ok fuel pair m = Ok m' → hash m' = hash m.
Proof.
  unfold insert. intros Hi. do 3 inv_bind Hi.
  assert (hash x = hash m) as <-.
  { destruct alloc_ok.
    - apply check_size_Ok in E as [[_ ->]|(_ & _ & _ & _ & ? & _)]; done.
    - rewrite check_size_no_alloc in E. congruence. }
  destruct x1 as [position|]; [|congruence].
  by apply fill_slot_Ok in Hi as (_ & _ & ? & _).
Qed.

Lemma hash_function_copy alloc_ok fuel (other : @HashMap KeyType ValueType) h m :
  HashMap_copy alloc_ok fuel other h = Ok m → hash_function m = h.
Proof.
  unfold HashMap_copy, hash_function. intros Hc.
  apply (for_each_invariant (λ m, hash m = h)
           (λ m it, insert alloc_ok fuel it.2 m))
    with (l := values other) (s := HashMap_new h); [|done|done].
  intros s x s' <- Hi. eauto using hash_insert.
Qed.

Lemma inserts_refine fuel l :
  ∀ m (k : nat),
    safe m → distinct m ∧ no_erased m → bounded m k →
    8 * (k + length l) ≤ fuel →
    ∃ m', for_each (λ m it, insert true fuel it.2 m) l m = Ok m'
          ∧ safe m' ∧ (distinct m' ∧ no_erased m') ∧ bounded m' (k + length l)
          ∧ iteration m'
            = fold_left (λ pairs pair, spec_insert pair pairs) (snd <$> l)
                        (iteration m).
Proof.
  induction l as [|it l IH]; intros m k Hsafe HI Hb Hfuel.
  - exists m. cbn [length]. rewrite Nat.add_0_r.
    split; [done|]. split; [done|]. split; [done|]. by split.
  - cbn [length for_each fmap list_fmap fold_left] in *.
    destruct (step_safe fuel m (op_insert it.2.1 it.2.2) k Hsafe Hb)
      as (m1 & Hstep & Hsafe1 & Hb1); [lia|done|].
    destruct (step_adds fuel m (op_insert it.2.1 it.2.2) k m1)
      as [HI1 Hit]; try done; [lia|].
    cbn [step spec_step] in Hstep, Hit.
    rewrite <- surjective_pairing in Hstep, Hit.
    rewrite Hstep. cbn [mbind result_bind]. rewrite <- Hit.
    destruct (IH m1 (S k) Hsafe1 HI1 Hb1) as (m' & Hr & ? & ? & ? & ?); [lia|].
    exists m'. split; [done|]. split; [done|]. split; [done|]. split; [|done].
    by replace (k + S (length l)) with (S k + length l) by lia.
Qed.

Lemma spec_inserts_distinct (pairs : list (KeyType * ValueType)) :
  ∀ acc : list (KeyType * ValueType),
    NoDup (acc ++ pairs).*1 →
    fold_left (λ pairs pair, spec_insert pair pairs) pairs acc = acc ++ pairs.
Proof.
  induction pairs as [|pair pairs IH]; intros acc Hnd; cbn [fold_left].
  - by rewrite app_nil_r.
  - rewrite (cons_middle pair acc pairs), app_assoc in Hnd |- *.
    rewrite <- (IH (acc ++ [pair])) by done. f_equal.
    apply spec_insert_absent.
    rewrite !fmap_app in Hnd.
    apply NoDup_app in Hnd as [Hnd _]. apply NoDup_app in Hnd as (_ & Hdis & _).
    intros Hin. apply (Hdis _ Hin). cbn. by left.
Qed.

(** X23.  When every allocation of [check_size] succeeds: the copy
    constructor re-inserts the records of the source in their order and
    returns; the copy iterates the source's records without those whose key
    an earlier record has.  When the keys of the source are pairwise
    distinct the copy iterates the same pairs in the same order. *)
Lemma copy_refines fuel (other : @HashMap KeyType ValueType) h :
  8 * (size other + 1) ≤ fuel →
  ∃ m, HashMap_copy true fuel other h = Ok m
       ∧ hash_function m = h
       ∧ iteration m
         = fold_left (λ pairs pair, spec_insert pair pairs) (iteration other) []
       ∧ (NoDup (iteration other).*1 → iteration m = iteration other).
Proof.
  intros Hfuel. unfold size in Hfuel.
  destruct (inserts_refine fuel (values other) (HashMap_new h) 0
              (safe_new h))
    as (m & Hr & _ & _ & _ & Hit);
    [split; [apply distinct_new|apply no_erased_new]|split; cbn; lia|lia|].
  exists m. split; [done|].
  split; [by apply (hash_function_copy true fuel other)|].
  split; [done|]. intros Hnd. rewrite Hit. by apply spec_inserts_distinct.
Qed.

(** *** More on the calls of a table that was never cleared *)

Lemma find_linked m key fuel :
  safe m → linked m → capacity m ≤ fuel →
  (key ∉ (iteration m).*1 → find fuel key m = Ok None)
  ∧ (key ∈ (iteration m).*1 →
     ∃ ptr v, find fuel key m = Ok (Some ptr)
              ∧ deref (values m) ptr = Some (key, v)).
Proof.
  intros Hsafe Hlinked Hfuel.
  destruct (lookup_safe m key fuel Hsafe Hfuel) as (p & Hloop & Hp & _).
  destruct (safe_empty_slot m Hsafe) as (Hpos & _).
  unfold find. unfold slot_of in *. fold (capacity m) in *.
  case_decide; [lia|]. cbn [mbind result_bind] in *.
  rewrite Hloop. cbn [mbind result_bind].
  apply lookup_loop_path in Hloop as (_ & Hstop & Hpath);
    [|apply Hsafe|by apply home_lt].
  unfold state_at. destruct Hstop as [Hempty|(kv & Hs & Hr & Hk)].
  - pose proof (probe_miss m key p Hsafe Hlinked Hp Hempty Hpath) as Hmiss.
    rewrite Hempty. cbn [mbind result_bind]. by rewrite decide_False.
  - pose proof (probe_hit m p kv Hr) as Hhit.
    apply record_at_Ok in Hr as (ptr & Hptr & Hd).
    rewrite Hs. cbn [mbind result_bind]. rewrite decide_True by done.
    unfold pointer_at. rewrite Hptr. cbn [mbind result_bind]. split.
    + intros Hmiss. exfalso. apply Hmiss. rewrite <- Hk.
      by apply list_elem_of_fmap_2.
    + intros _. exists ptr, kv.2. split; [done|].
      by rewrite <- Hk, <- surjective_pairing.
Qed.

(** X16.  When every allocation of [check_size] succeeds: after any sequence
    of [insert], [operator[]] and [erase] calls on a new table, [find]
    returns [end()] for a key that no record has, and for a key that a
    record has an iterator to a record of that key. *)
Lemma find_after_calls_without_clear h ops fuel key :
  Forall (λ o, o ≠ op_clear) ops → 8 * (length ops + 1) ≤ fuel →
  ∃ m, run default_value fuel ops (HashMap_new h) = Ok m
       ∧ (key ∉ (iteration m).*1 → find fuel key m = Ok None)
       ∧ (key ∈ (iteration m).*1 →
          ∃ ptr v, find fuel key m = Ok (Some ptr)
                   ∧ deref (values m) ptr = Some (key, v)).
Proof.
  intros Hops Hfuel.
  destruct (run_linked fuel ops Hops (HashMap_new h) 0
              (safe_new h) (linked_new h))
    as (m & Hr & Hsafe & Hlinked & [_ Hcap]); [split; cbn; lia|lia|].
  exists m. split; [done|]. apply find_linked; [done|done|]. cbn in Hcap. lia.
Qed.

(** [operator[]] on a table that keeps its chains: for a key that a record
    has, it returns the value of a record of the key and leaves the record
    list; for a key that no record has, it appends the key with a default
    value and returns that value. *)
Lemma index_linked_value fuel key m m' v :
  safe m → linked m → capacity m ≤ fuel → occupancy m * 8 ≤ fuel →
  index default_value true fuel key m = Ok (m', v) →
  (key ∈ (iteration m).*1 →
   iteration m' = iteration m ∧ (key, v) ∈ iteration m)
  ∧ (key ∉ (iteration m).*1 →
     iteration m' = iteration m ++ [(key, default_value)]
     ∧ v = default_value).
Proof.
  intros Hsafe Hlinked Hfuel Hfuel' Hidx.
  destruct (check_size_safe fuel m Hsafe Hfuel Hfuel')
    as (m1 & Hcs & Hsafe1 & Hstrict & _).
  destruct (check_size_linked fuel m m1 Hsafe Hlinked Hfuel Hfuel' Hcs)
    as (Hlinked1 & Hvalues & _).
  unfold index in Hidx. rewrite Hcs in Hidx. cbn [mbind result_bind] in Hidx.
  destruct (safe_empty_slot m1 Hsafe1) as (Hpos & _).
  unfold slot_of in Hidx. fold (capacity m1) in Hidx.
  case_decide; [lia|]. cbn [mbind result_bind] in Hidx.
  apply bind_Ok in Hidx as (p & Hloop & Hidx).
  apply bind_Ok in Hidx as (s & Hs%state_at_Ok & Hidx).
  apply bind_Ok in Hidx as (m2 & Hm2 & Hidx).
  apply bind_Ok in Hidx as (kv & Hrec & Hidx). injection Hidx as <- <-.
  apply lookup_loop_path in Hloop as (Hp & Hstop & Hpath);
    [|apply Hsafe1|by apply home_lt].
  assert (iteration m = iteration m1) as ->.
  { unfold iteration. by rewrite Hvalues. }
  case_decide as Hf.
  - injection Hm2 as <-.
    destruct Hstop as [?|(kv' & _ & Hr & Hk)]; [congruence|].
    assert (kv' = kv) as -> by congruence.
    pose proof (probe_hit m1 p kv Hr) as Hhit. split.
    + intros _. split; [done|]. by rewrite <- Hk, <- surjective_pairing.
    + intros Hmiss. exfalso. apply Hmiss. rewrite <- Hk.
      by apply list_elem_of_fmap_2.
  - destruct Hstop as [Hempty|(kv' & ? & _)]; [|congruence].
    pose proof (probe_miss m1 key p Hsafe1 Hlinked1 Hp Hempty Hpath) as Hmiss.
    destruct (fill_slot_safe m1 (key, default_value) p STATE_EMPTY
                Hsafe1 Hstrict Hp Hempty ltac:(done))
      as (m2' & Hfill & _ & _ & _ & _ & Hrec').
    assert (m2' = m2) as -> by congruence.
    assert (kv = (key, default_value)) as -> by congruence.
    apply fill_slot_Ok in Hfill as (_ & _ & _ & Hv & _).
    split; [done|]. intros _. split; [|done].
    unfold iteration. by rewrite Hv, fmap_app.
Qed.

(** X17.  When every allocation of [check_size] succeeds, that of the call
    itself included: after any sequence of [insert], [operator[]] and
    [erase] calls on a new table, [operator[]] returns; for a key that a
    record has it returns the value of a record of that key and leaves the
    record list as it is, and for a key that no record has it appends the
    key with [ValueType()] and returns that value. *)
Lemma index_after_calls_without_clear h ops fuel key :
  Forall (λ o, o ≠ op_clear) ops → 8 * (length ops + 2) ≤ fuel →
  ∃ m m' v,
    run default_value fuel ops (HashMap_new h) = Ok m
    ∧ index default_value true fuel key m = Ok (m', v)
    ∧ (key ∈ (iteration m).*1 →
       iteration m' = iteration m ∧ (key, v) ∈ iteration m)
    ∧ (key ∉ (iteration m).*1 →
       iteration m' = iteration m ++ [(key, default_value)]
       ∧ v = default_value).
Proof.
  intros Hops Hfuel.
  destruct (run_linked fuel ops Hops (HashMap_new h) 0
              (safe_new h) (linked_new h))
    as (m & Hr & Hsafe & Hlinked & [Hocc Hcap]); [split; cbn; lia|lia|].
  cbn [Nat.add] in Hocc, Hcap.
  destruct (index_safe m key fuel Hsafe) as (m' & v & Hidx & _); [lia|lia|].
  exists m, m', v. split; [done|]. split; [done|].
  apply (index_linked_value fuel key m m' v); try done; lia.
Qed.

(** X14.  Every sequence of [insert], [operator[]]
    and [erase] calls on a new table runs to its end without undefined
    behaviour (no slot index out of range, no iterator of an erased record
    dereferenced), and leaves more than half of the slots empty, so that
    every probe loop ends. *)
Lemma calls_without_clear_safe h ops fuel :
  Forall (λ o, o ≠ op_clear) ops → 8 * (length ops + 1) ≤ fuel →
  ∃ m, run default_value fuel ops (HashMap_new h) = Ok m
       ∧ length (states m) = length (pointers m)
       ∧ 2 * (count_state STATE_FILLED (states m)
              + count_state STATE_ERASED (states m))
         < length (pointers m)
       ∧ size m = count_state STATE_FILLED (states m).
Proof.
  intros Hops Hfuel.
  destruct (run_safe fuel ops Hops (HashMap_new h) 0 (safe_new h))
    as (m & Hr & Hsafe & _); [split; cbn; lia|lia|].
  exists m. split; [done|].
  destruct Hsafe as (Hlen & [_ Hocc] & Hfilled & Hcount & _).
  unfold capacity, OCCUPANCY_COEFFICIENT, size in *.
  split; [done|]. split; [lia|done].
Qed.

(** *** The hash object *)

Lemma hash_index alloc_ok fuel key m m' v :
  index default_value alloc_ok fuel key m = Ok (m', v) → hash m' = hash m.
Proof.
  unfold index. intros Hi.
  apply bind_Ok in Hi as (m1 & Hcs & Hi).
  apply bind_Ok in Hi as (start & _ & Hi).
  apply bind_Ok in Hi as (p & _ & Hi).
  apply bind_Ok in Hi as (s & _ & Hi).
  apply bind_Ok in Hi as (m2 & Hm2 & Hi).
  apply bind_Ok in Hi as (kv & _ & Hi). injection Hi as <- _.
  assert (hash m1 = hash m) as <-.
  { destruct alloc_ok.
    - apply check_size_Ok in Hcs as [[_ ->]|(_ & _ & _ & _ & ? & _)]; done.
    - rewrite check_size_no_alloc in Hcs. congruence. }
  case_decide; [congruence|].
  by apply fill_slot_Ok in Hm2 as (_ & _ & ? & _).
Qed.

Lemma hash_run fuel ops m m' :
  run default_value fuel ops m = Ok m' → hash m' = hash m.
Proof.
  intros Hr.
  apply (for_each_invariant (λ m', hash m' = hash m) (step default_value fuel))
    with (l := ops) (s := m); [|done|done].
  intros s o s' <- Hs. destruct o as [key value|key|key|]; cbn [step] in Hs.
  - eauto using hash_insert.
  - apply bind_Ok in Hs as ([m2 v] & Hidx & [= ->]). eauto using hash_index.
  - by apply erase_Ok in Hs as (_ & _ & ? & _).
  - by apply clear_Ok in Hs as (_ & ? & _).
Qed.

(** X26.  Whatever calls are made on a table,
    [clear] included, [hash_function()] returns the hash object the table
    was constructed with. *)
Lemma hash_function_after_calls h ops fuel m :
  run default_value fuel ops (HashMap_new h) = Ok m → hash_function m = h.
Proof. intros Hr. unfold hash_function. by rewrite (hash_run _ _ _ _ Hr). Qed.

(** *** The constructors from a range *)

Lemma inserts_of_pairs_refine fuel (pairs : list (KeyType * ValueType)) :
  ∀ m (k : nat),
    safe m → distinct m ∧ no_erased m → bounded m k →
    8 * (k + length pairs) ≤ fuel →
    ∃ m', for_each (λ m pair, insert true fuel pair m) pairs m = Ok m'
          ∧ safe m' ∧ (distinct m' ∧ no_erased m')
          ∧ bounded m' (k + length pairs)
          ∧ hash m' = hash m
          ∧ iteration m'
            = fold_left (λ pairs pair, spec_insert pair pairs) pairs
                        (iteration m).
Proof.
  induction pairs as [|pair pairs IH]; intros m k Hsafe HI Hb Hfuel.
  - exists m. cbn [length]. rewrite Nat.add_0_r.
    split; [done|]. split; [done|]. split; [done|]. by split.
  - cbn [length for_each fold_left] in *.
    destruct (step_safe fuel m (op_insert pair.1 pair.2) k Hsafe Hb)
      as (m1 & Hstep & Hsafe1 & Hb1); [lia|done|].
    destruct (step_adds fuel m (op_insert pair.1 pair.2) k m1)
      as [HI1 Hit]; try done; [lia|].
    cbn [step spec_step] in Hstep, Hit.
    rewrite <- surjective_pairing in Hstep, Hit.
    rewrite Hstep. cbn [mbind result_bind]. rewrite <- Hit.
    destruct (IH m1 (S k) Hsafe1 HI1 Hb1)
      as (m' & Hr & ? & ? & ? & Hh & ?); [lia|].
    exists m'. split; [done|]. split; [done|]. split; [done|].
    split; [by replace (k + S (length pairs)) with (S k + length pairs) by lia|].
    split; [|done]. rewrite Hh. eauto using hash_insert.
Qed.

(** X24.  When every allocation of [check_size] succeeds: the constructors
    from a range and from an initializer list return, and build a table that
    iterates the pairs of the range in their order, without those whose key
    an earlier pair has: when the keys of the range are pairwise distinct,
    exactly the pairs of the range. *)
Lemma from_range_refines fuel (pairs : list (KeyType * ValueType)) h :
  8 * (length pairs + 1) ≤ fuel →
  ∃ m, HashMap_from true fuel pairs h = Ok m
       ∧ hash_function m = h
       ∧ iteration m
         = fold_left (λ pairs pair, spec_insert pair pairs) pairs []
       ∧ NoDup (iteration m).*1
       ∧ (NoDup pairs.*1 → iteration m = pairs).
Proof.
  intros Hfuel.
  destruct (inserts_of_pairs_refine fuel pairs (HashMap_new h) 0 (safe_new h))
    as (m & Hr & _ & [[_ Hkeys] _] & _ & Hh & Hit);
    [split; [apply distinct_new|apply no_erased_new]|split; cbn; lia|lia|].
  exists m. split; [done|]. split; [done|]. split; [done|]. split; [done|].
  intros Hnd. rewrite Hit. by apply spec_inserts_distinct.
Qed.

(** *** clear *)





(** **** clear on a table without erased slots *)

(** The inner loop of [clear] from [position], on slots of which one is
    empty: it empties the slots before the first empty slot [e] and leaves
    the other slots. *)
Lemma clear_loop_effect size :
  ∀ fuel sts (position i : nat),
    length sts = size → i < size → sts !! i = Some STATE_EMPTY →
    position < size → distance size position i < fuel →
    ∃ (e : nat) sts',
      clear_loop fuel size sts position = Ok sts'
      ∧ length sts' = size
      ∧ e < size ∧ sts !! e = Some STATE_EMPTY
      ∧ distance size position e ≤ distance size position i
      ∧ (∀ q : nat, q < size →
           sts' !! q
           = if decide (distance size position q < distance size position e)
             then Some STATE_EMPTY else sts !! q).
Proof.
  induction fuel as [|fuel IH]; intros sts position i Hlen Hi Hs Hp Hd; [lia|].
  cbn [clear_loop].
  destruct (lookup_lt_is_Some_states sts position) as [s Hps]; [lia|].
  rewrite Hps. case_decide as He.
  { subst s. exists position, sts. rewrite distance_self.
    split; [done|]. split; [done|]. split; [done|]. split; [done|].
    split; [lia|]. intros q Hq. by rewrite decide_False by lia. }
  assert (position ≠ i) as Hne by (intros ->; congruence).
  pose proof (distance_advance size position i Hp Hi Hne) as Hadv.
  destruct (IH (<[position := STATE_EMPTY]> sts)
               (advance size position) i)
    as (e & sts' & -> & Hlen' & He' & Hse & Hde & Hchar).
  - by rewrite length_insert.
  - done.
  - by rewrite list_lookup_insert_ne.
  - apply advance_lt. lia.
  - lia.
  - pose proof (distance_advance_self size position Hp) as Hself.
    pose proof (distance_lt size position i Hp Hi) as Hlt.
    assert (position ≠ e) as Hpe by (intros ->; lia).
    pose proof (distance_advance size position e Hp He' Hpe) as Hadve.
    rewrite list_lookup_insert_ne in Hse by done.
    exists e, sts'. split; [done|]. split; [done|]. split; [done|].
    split; [done|]. split; [lia|]. intros q Hq. rewrite (Hchar q Hq).
    destruct (decide (position = q)) as [<-|Hpq].
    + rewrite distance_self. rewrite (decide_True (P := 0 < _)) by lia.
      rewrite list_lookup_insert_eq by lia. by case_decide.
    + pose proof (distance_advance size position q Hp Hq Hpq) as Hadvq.
      rewrite list_lookup_insert_ne by done.
      repeat case_decide; try done; lia.
Qed.

(** Cyclic order: a slot [e] that the walk from [h'] meets after [q] and not
    after [q'] lies between them on the walk from [h] too. *)
Lemma distance_between size (h h' q e q' : nat) :
  h < size → h' < size → q < size → e < size → q' < size →
  distance size h' q < distance size h' e →
  distance size h' e ≤ distance size h' q' →
  distance size h q ≤ distance size h q' →
  distance size h q ≤ distance size h e
  ∧ distance size h e ≤ distance size h q'.
Proof. unfold distance. intros. repeat case_decide; lia. Qed.

(** The loop of [clear] over the records, after the records [processed], on
    the table [m]: the slots are empty or as in [m]; on the walk from the
    home slot of a record to its slot, the slots after an empty slot are
    empty; the slots of the processed records are empty. *)
Definition clear_inv m (processed : list (@record KeyType ValueType))
    sts : Prop :=
  length sts = capacity m
  ∧ (∀ (q : nat) s, sts !! q = Some s →
       s = STATE_EMPTY ∨ states m !! q = Some s)
  ∧ (∀ (p : nat) ptr kv,
       states m !! p = Some STATE_FILLED → pointers m !! p = Some (Some ptr) →
       deref (values m) ptr = Some kv →
       ∀ q q' : nat,
         q < capacity m → q' < capacity m →
         distance (capacity m) (hash m kv.1 mod capacity m) q
         ≤ distance (capacity m) (hash m kv.1 mod capacity m) q' →
         distance (capacity m) (hash m kv.1 mod capacity m) q'
         ≤ distance (capacity m) (hash m kv.1 mod capacity m) p →
         sts !! q = Some STATE_EMPTY → sts !! q' = Some STATE_EMPTY)
  ∧ (∀ (p : nat) ptr,
       states m !! p = Some STATE_FILLED → pointers m !! p = Some (Some ptr) →
       ptr ∈ processed.*1 → sts !! p = Some STATE_EMPTY).

Lemma clear_inv_start m : safe m → linked m → clear_inv m [] (states m).
Proof.
  intros (Hlen & _) [Hchain _]. split; [done|]. split; [by right|]. split.
  - intros p ptr kv Hp Hptr Hd q q' Hq Hq' Hqq' Hq'p Hempty. exfalso.
    assert (hash m kv.1 mod capacity m < capacity m) as Hhome
      by (apply Nat.mod_upper_bound; lia).
    destruct (decide (q = p)) as [->|Hne]; [congruence|].
    apply (Hchain p ptr kv Hp Hptr Hd q); [|done]. split; [done|].
    assert (p < capacity m).
    { apply lookup_lt_Some in Hp. lia. }
    destruct (decide (distance (capacity m) (hash m kv.1 mod capacity m) q
                      = distance (capacity m) (hash m kv.1 mod capacity m) p))
      as [Heq|?]; [|lia].
    by apply distance_inj in Heq.
  - intros p ptr _ _ Hin. by apply elem_of_nil in Hin.
Qed.

Lemma clear_step_inv fuel m processed sts it :
  safe m → linked m → clear_inv m processed sts →
  it ∈ values m → capacity m < fuel →
  ∃ sts', clear_step fuel (hash m) (capacity m) sts it = Ok sts'
          ∧ clear_inv m (processed ++ [it]) sts'.
Proof.
  intros Hsafe Hlinked (Hlen & Hkeep & Hpath & Hdone) Hit Hfuel.
  destruct (safe_empty_slot m Hsafe) as (Hpos & i & Hi & Hsi).
  pose proof Hsafe as (Hlenm & _ & _ & _ & Hnd & _).
  assert (sts !! i = Some STATE_EMPTY) as Hsi'.
  { destruct (lookup_lt_is_Some_states sts i) as [s Hs]; [lia|].
    destruct (Hkeep i s Hs) as [->|?]; congruence. }
  unfold clear_step, slot_of. case_decide; [lia|]. cbn [mbind result_bind].
  set (start := hash m it.2.1 mod capacity m).
  assert (start < capacity m) as Hstart
    by (apply Nat.mod_upper_bound; lia).
  destruct (clear_loop_effect (capacity m) fuel sts start i)
    as (e & sts' & -> & Hlen' & He & Hse & _ & Hchar); try done.
  { pose proof (distance_lt (capacity m) start i Hstart Hi). lia. }
  assert (∀ q : nat, q < capacity m → sts !! q = Some STATE_EMPTY →
                     sts' !! q = Some STATE_EMPTY) as Hstays.
  { intros q Hq Hsq. rewrite (Hchar q Hq). by case_decide. }
  exists sts'. split; [done|]. split; [done|]. split; [|split].
  - intros q s Hq. assert (q < capacity m) as Hq'.
    { apply lookup_lt_Some in Hq. lia. }
    rewrite (Hchar q Hq') in Hq. case_decide; [left; congruence|].
    by apply Hkeep.
  - intros p ptr kv Hp Hptr Hd q q' Hq Hq' Hqq' Hq'p Hempty.
    set (home := hash m kv.1 mod capacity m) in *.
    assert (home < capacity m) as Hhome
      by (apply Nat.mod_upper_bound; lia).
    rewrite (Hchar q Hq) in Hempty. rewrite (Hchar q' Hq').
    destruct (decide (distance (capacity m) start q'
                      < distance (capacity m) start e)) as [Hcq'|Hcq'];
      [done|].
    destruct (decide (distance (capacity m) start q
                      < distance (capacity m) start e)) as [Hcq|Hcq].
    + assert (distance (capacity m) home q ≤ distance (capacity m) home e
              ∧ distance (capacity m) home e ≤ distance (capacity m) home q')
        as [Hqe Heq']
        by (apply (distance_between _ home start q e q'); (done || lia)).
      by apply (Hpath p ptr kv Hp Hptr Hd e q').
    + by apply (Hpath p ptr kv Hp Hptr Hd q q').
  - intros p ptr Hp Hptr Hin. rewrite fmap_app in Hin.
    assert (p < capacity m) as Hp'.
    { apply lookup_lt_Some in Hp. lia. }
    apply elem_of_app in Hin as [Hin|Hin]; [by eauto|].
    apply list_elem_of_singleton in Hin as ->.
    assert (deref (values m) it.1 = Some it.2) as Hd.
    { apply elem_of_deref; [done|]. by destruct it. }
    rewrite (Hchar p Hp').
    destruct (decide (distance (capacity m) start p
                      < distance (capacity m) start e)) as [Hc|Hc]; [done|].
    apply (Hpath p it.1 it.2 Hp Hptr Hd e p); try done.
    fold start. lia.
Qed.

Lemma clear_fold_inv fuel m l :
  safe m → linked m → capacity m < fuel →
  ∀ processed sts,
    clear_inv m processed sts → (∀ it, it ∈ l → it ∈ values m) →
    ∃ sts', for_each (clear_step fuel (hash m) (capacity m)) l sts = Ok sts'
            ∧ clear_inv m (processed ++ l) sts'.
Proof.
  intros Hsafe Hlinked Hfuel.
  induction l as [|it l IH]; intros processed sts Hinv Hl.
  - exists sts. by rewrite app_nil_r.
  - cbn [for_each].
    destruct (clear_step_inv fuel m processed sts it Hsafe Hlinked Hinv)
      as (sts1 & -> & Hinv1); [apply Hl; by left|done|].
    cbn [mbind result_bind]. rewrite (cons_middle it processed l), app_assoc.
    apply IH; [done|]. intros it' Hin. apply Hl. by right.
Qed.

(** On a table without erased slots, [clear] empties every slot. *)
Lemma clear_no_erased m fuel :
  safe m → linked m → no_erased m → capacity m < fuel →
  clear fuel m
  = Ok {| hash := hash m;
          pointers := pointers m;
          values := [];
          states := replicate (capacity m) STATE_EMPTY;
          occupancy := 0;
          next_node := next_node m |}.
Proof.
  intros Hsafe Hlinked Herased Hfuel.
  destruct (clear_fold_inv fuel m (values m) Hsafe Hlinked Hfuel []
              (states m) (clear_inv_start m Hsafe Hlinked))
    as (sts' & Hfold & Hlen & Hkeep & _ & Hdone); [done|].
  unfold clear. fold (capacity m). rewrite Hfold. cbn [mbind result_bind].
  do 2 f_equal. apply list_eq. intros q.
  destruct (decide (q < capacity m)) as [Hq|Hq].
  2:{ rewrite (proj2 (lookup_ge_None _ _)) by lia.
      symmetry. apply lookup_ge_None. rewrite length_replicate. lia. }
  rewrite lookup_replicate_2 by done.
  destruct (lookup_lt_is_Some_states sts' q) as [s Hs]; [lia|].
  rewrite Hs. f_equal.
  destruct (Hkeep q s Hs) as [->|Hm]; [done|].
  destruct s; [done| |by apply no_erased_slot in Hm].
  destruct Hsafe as (_ & _ & _ & _ & _ & _ & Hdang & _).
  destruct (Hdang q Hm) as (ptr & Hptr & Hin).
  rewrite (Hdone q ptr Hm Hptr Hin) in Hs. congruence.
Qed.

(** **** Sequences of calls with [clear] *)

(** The calls that erase no single record: on a table that only such calls
    were made on, no slot is erased. *)
Definition builds (o : @op KeyType ValueType) : Prop :=
  match o with
  | op_insert _ _ | op_index _ | op_clear => True
  | op_erase _ => False
  end.

Lemma adds_builds o : adds o → builds o.
Proof. by destruct o. Qed.

Lemma cleared_safe m :
  safe m → 8 ≤ capacity m →
  safe {| hash := hash m;
          pointers := pointers m;
          values := [];
          states := replicate (capacity m) STATE_EMPTY;
          occupancy := 0;
          next_node := next_node m |}.
Proof.
  intros (_ & [Hc _] & _) Hcap.
  unfold safe, quarter_full, no_dangling, capacity in *.
  cbn [states pointers values occupancy next_node].
  rewrite length_replicate, !count_state_replicate.
  repeat case_decide; try done.
  split; [done|]. split; [split; [done|lia]|]. split; [done|].
  split; [lia|]. split; [constructor|].
  split; [intros a Ha; by apply elem_of_nil in Ha|]. split.
  - intros p [? _]%lookup_replicate. done.
  - intros p q ptr [? _]%lookup_replicate. done.
Qed.

Lemma cleared_distinct m :
  distinct {| hash := hash m;
              pointers := pointers m;
              values := [];
              states := replicate (capacity m) STATE_EMPTY;
              occupancy := 0;
              next_node := next_node m |}
  ∧ no_erased {| hash := hash m;
                 pointers := pointers m;
                 values := [];
                 states := replicate (capacity m) STATE_EMPTY;
                 occupancy := 0;
                 next_node := next_node m |}.
Proof.
  unfold distinct, linked, no_erased, iteration.
  cbn [states pointers values]. rewrite count_state_replicate.
  split; [|by case_decide]. split; [|constructor]. split.
  - intros p ptr kv [? _]%lookup_replicate. done.
  - intros ptr Hin. by apply elem_of_nil in Hin.
Qed.

Lemma step_builds fuel m o (k : nat) :
  builds o → safe m → distinct m ∧ no_erased m → 8 ≤ capacity m →
  bounded m k → 8 * (k + 1) < fuel →
  ∃ m', step default_value fuel m o = Ok m'
        ∧ safe m' ∧ (distinct m' ∧ no_erased m') ∧ 8 ≤ capacity m'
        ∧ bounded m' (S k)
        ∧ iteration m' = spec_step (iteration m) o.
Proof.
  intros Ho Hsafe [Hdistinct Herased] Hcap [Hocc Hle] Hfuel.
  unfold bounded, OCCUPANCY_COEFFICIENT in *.
  destruct o as [key value|key|key|]; cbn [step spec_step]; [| |done|].
  - destruct (insert_safe m (key, value) fuel Hsafe)
      as (m' & Hins & Hsafe' & Hocc' & Hcap'); [lia|lia|].
    destruct (insert_refines fuel (key, value) m m') as (? & ? & ?);
      try done; [lia|lia|].
    exists m'. unfold OCCUPANCY_COEFFICIENT in *.
    split; [done|]. split; [done|]. split; [done|]. split; [lia|].
    split; [lia|done].
  - destruct (index_safe m key fuel Hsafe)
      as (m' & v & Hidx & Hsafe' & Hocc' & Hcap'); [lia|lia|].
    destruct (index_refines fuel key m m' v) as (? & ? & ?);
      try done; [lia|lia|].
    rewrite Hidx. cbn [mbind result_bind].
    exists m'. unfold OCCUPANCY_COEFFICIENT in *.
    split; [done|]. split; [done|]. split; [auto|]. split; [lia|].
    split; [lia|done].
  - rewrite clear_no_erased; [|done|apply Hdistinct|done|lia].
    eexists. split; [done|]. split; [by apply cleared_safe|].
    split; [apply cleared_distinct|].
    unfold capacity in *. cbn [pointers occupancy]. split; [done|].
    split; [lia|done].
Qed.

Lemma run_builds fuel ops :
  Forall builds ops →
  ∀ m (k : nat),
    safe m → distinct m ∧ no_erased m → 8 ≤ capacity m → bounded m k →
    8 * (k + length ops) < fuel →
    ∃ m', run default_value fuel ops m = Ok m'
          ∧ safe m' ∧ (distinct m' ∧ no_erased m') ∧ 8 ≤ capacity m'
          ∧ bounded m' (k + length ops)
          ∧ iteration m' = fold_left spec_step ops (iteration m).
Proof.
  induction 1 as [|o ops Ho Hops IH]; intros m k Hsafe HI Hcap Hb Hfuel.
  - exists m. cbn [length]. rewrite Nat.add_0_r.
    split; [done|]. split; [done|]. split; [done|]. split; [done|]. by split.
  - cbn [length] in *. unfold run. cbn [for_each fold_left].
    destruct (step_builds fuel m o k Ho Hsafe HI Hcap Hb)
      as (m1 & -> & Hsafe1 & HI1 & Hcap1 & Hb1 & <-); [lia|].
    cbn [mbind result_bind].
    destruct (IH m1 (S k) Hsafe1 HI1 Hcap1 Hb1)
      as (m' & Hr & ? & ? & ? & ? & ?); [lia|].
    exists m'. split; [done|]. split; [done|]. split; [done|].
    split; [done|]. split; [|done].
    by replace (k + S (length ops)) with (S k + length ops) by lia.
Qed.

Lemma new_capacity h : 8 ≤ capacity (HashMap_new (ValueType:=ValueType) h).
Proof. unfold capacity. cbn. lia. Qed.

Lemma new_bounded h : bounded (HashMap_new (ValueType:=ValueType) h) 0.
Proof. split; cbn; lia. Qed.

(** X18.  When every allocation of [check_size] succeeds: every sequence of
    calls on a new table in which no [insert] and no [clear] follows an
    [erase] runs to its end; the table then iterates the record list of the
    specification: the keys that were put in since the last [clear] and not
    erased since, in the order in which they were put in, each once with
    the value it was put in with. *)
Lemma calls_with_clear_refine h ops1 ops2 fuel :
  Forall builds ops1 → Forall looks_up ops2 →
  8 * (length (ops1 ++ ops2) + 1) < fuel →
  ∃ m, run default_value fuel (ops1 ++ ops2) (HashMap_new h) = Ok m
       ∧ iteration m = spec_run (ops1 ++ ops2)
       ∧ NoDup (iteration m).*1.
Proof.
  intros Hops1 Hops2 Hfuel. rewrite length_app in Hfuel.
  destruct (run_builds fuel ops1 Hops1 (HashMap_new h) 0 (safe_new h)
              (conj (distinct_new h) (no_erased_new h)) (new_capacity h)
              (new_bounded h))
    as (m1 & Hr1 & Hsafe1 & [Hdistinct1 _] & _ & Hb1 & Hit1); [lia|].
  destruct (run_refines distinct looks_up fuel looks_up_not_clear
              (step_looks_up fuel) ops2 Hops2 m1 (0 + length ops1)
              Hsafe1 Hdistinct1 Hb1)
    as (m & Hr2 & _ & Hdistinct & _ & Hit); [lia|].
  exists m. unfold run, spec_run in *.
  rewrite for_each_app, Hr1, fold_left_app. cbn [mbind result_bind].
  split; [done|]. split; [by rewrite Hit, Hit1|apply Hdistinct].
Qed.

(** X22.  On a table on which only [insert],
    [operator[]] and [clear] were called, so that no slot is erased,
    [clear] resets every slot to empty: with an empty record list and
    [occupancy] 0 the table is as a new one, but for its capacity. *)
Lemma clear_after_building h ops fuel :
  Forall builds ops → 8 * (length ops + 1) < fuel →
  ∃ m m', run default_value fuel ops (HashMap_new h) = Ok m
          ∧ clear fuel m = Ok m'
          ∧ states m' = replicate (length (pointers m)) STATE_EMPTY
          ∧ length (pointers m') = length (pointers m)
          ∧ size m' = 0 ∧ occupancy m' = 0.
Proof.
  intros Hops Hfuel.
  destruct (run_builds fuel ops Hops (HashMap_new h) 0 (safe_new h)
              (conj (distinct_new h) (no_erased_new h)) (new_capacity h)
              (new_bounded h))
    as (m & Hr & Hsafe & [[Hlinked _] Herased] & _ & [_ Hcap] & _); [lia|].
  exists m. eexists. split; [done|].
  split; [apply clear_no_erased; try done; cbn [Nat.add] in Hcap; lia|].
  done.
Qed.

(** X25.  When every allocation of [check_size] succeeds: copy assignment
    to a table on which only [insert], [operator[]] and [clear] were called
    returns; the table then iterates the records of the source in their
    order, without those whose key an earlier record has; when the keys of
    the source are pairwise distinct, exactly the records of the source.
    Its hash object stays its own. *)
Lemma assign_refines h ops fuel (other : @HashMap KeyType ValueType) :
  Forall builds ops → 8 * (length ops + size other + 1) < fuel →
  ∃ m m', run default_value fuel ops (HashMap_new h) = Ok m
          ∧ assign true fuel other m = Ok m'
          ∧ hash_function m' = h
          ∧ iteration m'
            = fold_left (λ pairs pair, spec_insert pair pairs)
                        (iteration other) []
          ∧ (NoDup (iteration other).*1 → iteration m' = iteration other).
Proof.
  intros Hops Hfuel. unfold size in Hfuel.
  destruct (run_builds fuel ops Hops (HashMap_new h) 0 (safe_new h)
              (conj (distinct_new h) (no_erased_new h)) (new_capacity h)
              (new_bounded h))
    as (m & Hr & Hsafe & [[Hlinked _] Herased] & Hcap8 & [_ Hcap] & _); [lia|].
  cbn [Nat.add] in Hcap.
  pose proof (hash_run fuel ops _ m Hr) as Hh. cbn [hash HashMap_new] in Hh.
  exists m. unfold assign.
  rewrite clear_no_erased; [|done|done|done|lia]. cbn [mbind result_bind].
  destruct (inserts_refine fuel (values other) _ (length ops)
              (cleared_safe m Hsafe Hcap8) (cleared_distinct m))
    as (m' & Hfor & _ & _ & _ & Hit).
  { split; [cbn; lia|]. unfold capacity in *. cbn [pointers]. lia. }
  { lia. }
  exists m'. split; [done|]. split; [done|]. split.
  { unfold hash_function. rewrite <- Hh.
    apply (for_each_invariant (λ m', hash m' = hash m)
             (λ m it, insert true fuel it.2 m))
      with (l := values other)
           (s := {| hash := hash m;
                    pointers := pointers m;
                    values := [];
                    states := replicate (capacity m) STATE_EMPTY;
                    occupancy := 0;
                    next_node := next_node m |}); [|done|done].
    intros s x s' <- Hi. eauto using hash_insert. }
  split; [done|]. intros Hnd. rewrite Hit. by apply spec_inserts_distinct.
Qed.

(** *** The claims that hold for every key and value type *)

(** The [occupancy] field, when every allocation of [check_size] succeeds:
    after any sequence of [insert], [operator[]], [erase] and [clear] calls
    on a new table the field is at most a quarter of the capacity, and less
    than a quarter after the [check_size] with which [insert] and
    [operator[]] begin.  The field is not the number of slots that are not
    empty: [check_size] and [clear] set it to 0. *)
Theorem occupancy_bound_after_calls h fuel ops m :
  run default_value fuel ops (HashMap_new h) = Ok m →
  occupancy m * OCCUPANCY_COEFFICIENT ≤ length (pointers m)
  ∧ ∀ fuel' m', check_size true fuel' m = Ok m' →
      occupancy m' * OCCUPANCY_COEFFICIENT < length (pointers m').
Proof.
  intros Hr.
  apply quarter_full_run in Hr as [Hpos Hq];
    [|cbn; lia|apply quarter_full_new].
  split; [apply Hq|].
  intros fuel' m' Hcs.
  by destruct (quarter_full_check_size _ _ _ Hpos Hq Hcs) as (_ & _ & ?).
Qed.

(** C9, as amended.  From any slot of the table, the probe loop of [insert]
    ends within [capacity] iterations when some slot is not filled, and the
    probe loop of [operator[]], [at], [erase] and [find] ends within
    [capacity] iterations when some slot is empty. *)
Theorem probe_loops_terminate m key position fuel :
  position < length (pointers m) → length (pointers m) ≤ fuel →
  ((∃ i s, i < length (pointers m) ∧ states m !! i = Some s
           ∧ s ≠ STATE_FILLED) →
   insert_loop fuel m key position ≠ OutOfFuel)
  ∧ ((∃ i, i < length (pointers m) ∧ states m !! i = Some STATE_EMPTY) →
     lookup_loop fuel m key position ≠ OutOfFuel).
Proof.
  intros Hp Hfuel. split.
  - intros (i & s & Hi & Hs & Hne).
    apply (insert_loop_fuel m key i s); try done.
    pose proof (distance_lt (capacity m) position i Hp Hi).
    unfold capacity in *. lia.
  - intros (i & Hi & Hs).
    apply (lookup_loop_fuel m key i); try done.
    pose proof (distance_lt (capacity m) position i Hp Hi).
    unfold capacity in *. lia.
Qed.

End facts.
End hash_map_facts.


(** ** The Set container *)
Module avl_set_facts.
Import avl_set.

Section facts.
Context {ValueType : Type}.
Context (less : ValueType → ValueType → bool).
Implicit Types (p l r node n heap : @Node_ptr ValueType) (value : ValueType).

(** *** Heights *)

(** The height of the subtree a pointer owns, counted on the tree itself. *)
Fixpoint depth p : nat :=
  match p with
  | nullptr => 0
  | Node _ l r _ _ _ => S (Nat.max (depth l) (depth r))
  end.

(** Every [height] field holds the height of its node. *)
Fixpoint heights_ok p : Prop :=
  match p with
  | nullptr => True
  | Node _ l r _ _ height =>
      heights_ok l ∧ heights_ok r ∧ height = S (Nat.max (depth l) (depth r))
  end.

(** At every node the heights of the two subtrees differ by at most one. *)
Fixpoint balanced p : Prop :=
  match p with
  | nullptr => True
  | Node _ l r _ _ _ =>
      balanced l ∧ balanced r
      ∧ depth l ≤ depth r + 1 ∧ depth r ≤ depth l + 1
  end.

Lemma height_or_0_depth p : heights_ok p → height_or_0 p = depth p.
Proof. destruct p; simpl; [done|]. by intros (_ & _ & ->). Qed.

Lemma update_height_eq self l r parent value height :
  update_height (Node self l r parent value height)
  = Node self l r parent value (S (Nat.max (height_or_0 l) (height_or_0 r))).
Proof. simpl. f_equal. destruct l, r; simpl; lia. Qed.

Lemma depth_set_parent p q : depth (set_parent p q) = depth p.
Proof. by destruct p. Qed.

Lemma heights_ok_set_parent p q : heights_ok (set_parent p q) ↔ heights_ok p.
Proof. by destruct p. Qed.

Lemma balanced_set_parent p q : balanced (set_parent p q) ↔ balanced p.
Proof. by destruct p. Qed.

Lemma height_or_0_set_parent p q : height_or_0 (set_parent p q) = height_or_0 p.
Proof. by destruct p. Qed.

Lemma depth_0 p : depth p = 0 → p = nullptr.
Proof. destruct p; simpl; [done|lia]. Qed.

(** [get_balance] in machine arithmetic: the left height is cast to [int],
    the subtraction is done in [size_t], and the difference is converted to
    the [int] that is returned.  For heights below [2^31] this is the
    difference of the heights, which is what [get_balance] computes. *)
Definition to_int (z : Z) : Z := ((z + 2 ^ 31) mod 2 ^ 32 - 2 ^ 31)%Z.
Definition to_size_t (z : Z) : Z := (z mod 2 ^ 64)%Z.
Definition machine_balance (left_height right_height : Z) : Z :=
  to_int (to_size_t (to_size_t (to_int left_height) - right_height)).

Lemma machine_balance_eq (left_height right_height : Z) :
  (0 ≤ left_height < 2 ^ 31)%Z → (0 ≤ right_height < 2 ^ 31)%Z →
  machine_balance left_height right_height
  = (left_height - right_height)%Z.
Proof.
  intros Hl Hr. unfold machine_balance, to_int, to_size_t.
  rewrite (Z.mod_small (left_height + 2 ^ 31)) by lia.
  replace (left_height + 2 ^ 31 - 2 ^ 31)%Z with left_height by lia.
  rewrite (Z.mod_small left_height) by lia.
  destruct (decide (right_height ≤ left_height)%Z).
  - rewrite (Z.mod_small (left_height - right_height)) by lia.
    rewrite Z.mod_small by lia. lia.
  - replace ((left_height - right_height) mod 2 ^ 64)%Z
      with (left_height - right_height + 2 ^ 64)%Z.
    2:{ apply Z.mod_unique with (-1)%Z; lia. }
    replace ((left_height - right_height + 2 ^ 64 + 2 ^ 31) mod 2 ^ 32)%Z
      with (left_height - right_height + 2 ^ 31)%Z; [lia|].
    apply Z.mod_unique with (2 ^ 32)%Z; lia.
Qed.

(** The rotations, with the new [height] fields written out. *)
Lemma rotate_left_eq a l b m n b_parent b_value b_height a_parent a_value a_height :
  rotate_left (Node a l (Node b m n b_parent b_value b_height)
                    a_parent a_value a_height)
  = Ok (Node b
          (Node a l (set_parent m (Some a)) (Some b) a_value
                (S (Nat.max (height_or_0 l) (height_or_0 m))))
          n a_parent b_value
          (S (Nat.max (S (Nat.max (height_or_0 l) (height_or_0 m)))
                      (height_or_0 n)))).
Proof.
  unfold rotate_left. rewrite update_height_eq, update_height_eq.
  by rewrite height_or_0_set_parent.
Qed.

Lemma rotate_right_eq a b l m n b_parent b_value b_height a_parent a_value a_height :
  rotate_right (Node a (Node b l m b_parent b_value b_height) n
                     a_parent a_value a_height)
  = Ok (Node b l
          (Node a (set_parent m (Some a)) n (Some b) a_value
                (S (Nat.max (height_or_0 m) (height_or_0 n))))
          a_parent b_value
          (S (Nat.max (height_or_0 l)
                      (S (Nat.max (height_or_0 m) (height_or_0 n)))))).
Proof.
  unfold rotate_right. rewrite update_height_eq, update_height_eq.
  by rewrite height_or_0_set_parent.
Qed.

Lemma big_rotate_left_eq a k b c l m n c_parent c_value c_height
    b_parent b_value b_height a_parent a_value a_height :
  big_rotate_left
    (Node a k (Node b (Node c l m c_parent c_value c_height) n
                    b_parent b_value b_height) a_parent a_value a_height)
  = Ok (Node c
          (Node a k (set_parent l (Some a)) (Some c) a_value
                (S (Nat.max (height_or_0 k) (height_or_0 l))))
          (Node b (set_parent m (Some b)) n (Some c) b_value
                (S (Nat.max (height_or_0 m) (height_or_0 n))))
          a_parent c_value
          (S (Nat.max (S (Nat.max (height_or_0 k) (height_or_0 l)))
                      (S (Nat.max (height_or_0 m) (height_or_0 n)))))).
Proof.
  unfold big_rotate_left. rewrite rotate_right_eq.
  cbn [mbind result_bind]. by rewrite rotate_left_eq.
Qed.

Lemma big_rotate_right_eq a n b k c l m c_parent c_value c_height
    b_parent b_value b_height a_parent a_value a_height :
  big_rotate_right
    (Node a (Node b k (Node c l m c_parent c_value c_height)
                  b_parent b_value b_height) n a_parent a_value a_height)
  = Ok (Node c
          (Node b k (set_parent l (Some b)) (Some c) b_value
                (S (Nat.max (height_or_0 k) (height_or_0 l))))
          (Node a (set_parent m (Some a)) n (Some c) a_value
                (S (Nat.max (height_or_0 m) (height_or_0 n))))
          a_parent c_value
          (S (Nat.max (S (Nat.max (height_or_0 k) (height_or_0 l)))
                      (S (Nat.max (height_or_0 m) (height_or_0 n)))))).
Proof.
  unfold big_rotate_right. rewrite rotate_left_eq.
  cbn [mbind result_bind]. by rewrite rotate_right_eq.
Qed.

(** The cases of [balance_node]. *)
Inductive balance_case : Node_ptr → Node_ptr → Prop :=
  | balance_big_left a k b c l m n c_parent c_value c_height
        b_parent b_value b_height a_parent a_value a_height :
      (Z.of_nat (height_or_0 k) - Z.of_nat b_height = -2)%Z →
      (Z.of_nat c_height - Z.of_nat (height_or_0 n) = 1)%Z →
      balance_case
        (Node a k (Node b (Node c l m c_parent c_value c_height) n
                        b_parent b_value b_height)
              a_parent a_value a_height)
        (Node c
          (Node a k (set_parent l (Some a)) (Some c) a_value
                (S (Nat.max (height_or_0 k) (height_or_0 l))))
          (Node b (set_parent m (Some b)) n (Some c) b_value
                (S (Nat.max (height_or_0 m) (height_or_0 n))))
          a_parent c_value
          (S (Nat.max (S (Nat.max (height_or_0 k) (height_or_0 l)))
                      (S (Nat.max (height_or_0 m) (height_or_0 n))))))
  | balance_left a l b m n b_parent b_value b_height a_parent a_value a_height :
      (Z.of_nat (height_or_0 l) - Z.of_nat b_height = -2)%Z →
      (Z.of_nat (height_or_0 m) - Z.of_nat (height_or_0 n) ≠ 1)%Z →
      balance_case
        (Node a l (Node b m n b_parent b_value b_height)
              a_parent a_value a_height)
        (Node b
          (Node a l (set_parent m (Some a)) (Some b) a_value
                (S (Nat.max (height_or_0 l) (height_or_0 m))))
          n a_parent b_value
          (S (Nat.max (S (Nat.max (height_or_0 l) (height_or_0 m)))
                      (height_or_0 n))))
  | balance_big_right a n b k c l m c_parent c_value c_height
        b_parent b_value b_height a_parent a_value a_height :
      (Z.of_nat b_height - Z.of_nat (height_or_0 n) = 2)%Z →
      (Z.of_nat (height_or_0 k) - Z.of_nat c_height = -1)%Z →
      balance_case
        (Node a (Node b k (Node c l m c_parent c_value c_height)
                      b_parent b_value b_height)
              n a_parent a_value a_height)
        (Node c
          (Node b k (set_parent l (Some b)) (Some c) b_value
                (S (Nat.max (height_or_0 k) (height_or_0 l))))
          (Node a (set_parent m (Some a)) n (Some c) a_value
                (S (Nat.max (height_or_0 m) (height_or_0 n))))
          a_parent c_value
          (S (Nat.max (S (Nat.max (height_or_0 k) (height_or_0 l)))
                      (S (Nat.max (height_or_0 m) (height_or_0 n))))))
  | balance_right a b l m n b_parent b_value b_height a_parent a_value a_height :
      (Z.of_nat b_height - Z.of_nat (height_or_0 n) = 2)%Z →
      (Z.of_nat (height_or_0 l) - Z.of_nat (height_or_0 m) ≠ -1)%Z →
      balance_case
        (Node a (Node b l m b_parent b_value b_height) n
              a_parent a_value a_height)
        (Node b l
          (Node a (set_parent m (Some a)) n (Some b) a_value
                (S (Nat.max (height_or_0 m) (height_or_0 n))))
          a_parent b_value
          (S (Nat.max (height_or_0 l)
                      (S (Nat.max (height_or_0 m) (height_or_0 n))))))
  | balance_none a l r a_parent a_value a_height :
      (Z.of_nat (height_or_0 l) - Z.of_nat (height_or_0 r) ≠ -2)%Z →
      (Z.of_nat (height_or_0 l) - Z.of_nat (height_or_0 r) ≠ 2)%Z →
      balance_case (Node a l r a_parent a_value a_height)
                   (Node a l r a_parent a_value a_height).

(** [balance_node] never dereferences a null pointer: a balance of [-2] or
    [2] comes with a child, and a child's balance of [1] or [-1] with a
    grandchild.  Its result is given by one of the five cases. *)
Lemma balance_node_cases self l r parent value height :
  ∃ n, balance_node (Node self l r parent value height) = Ok n
       ∧ balance_case (Node self l r parent value height) n.
Proof.
  unfold balance_node. cbn [get_balance mbind result_bind].
  case_decide as H2.
  - destruct r as [|b m n b_parent b_value b_height]; simpl in H2; [lia|].
    cbn [get_balance mbind result_bind].
    case_decide as H1.
    + destruct m as [|c ml mr c_parent c_value c_height]; simpl in H1; [lia|].
      rewrite big_rotate_left_eq. eexists; split; [done|].
      by apply balance_big_left.
    + rewrite rotate_left_eq. eexists; split; [done|].
      by apply balance_left.
  - case_decide as H2'.
    + destruct l as [|b m n b_parent b_value b_height]; simpl in H2'; [lia|].
      cbn [get_balance mbind result_bind].
      case_decide as H1.
      * destruct n as [|c nl nr c_parent c_value c_height]; simpl in H1; [lia|].
        rewrite big_rotate_right_eq. eexists; split; [done|].
        by apply balance_big_right.
      * rewrite rotate_right_eq. eexists; split; [done|].
        by apply balance_right.
    + eexists; split; [done|]. by apply balance_none.
Qed.

Lemma balance_node_Ok node n :
  balance_node node = Ok n → balance_case node n.
Proof.
  destruct node as [|self l r parent value height]; [discriminate|].
  destruct (balance_node_cases self l r parent value height) as (n' & -> & Hc).
  by intros [= <-].
Qed.

Lemma balance_node_total node :
  node ≠ nullptr → ∃ n, balance_node node = Ok n.
Proof.
  destruct node as [|self l r parent value height]; [done|]. intros _.
  destruct (balance_node_cases self l r parent value height) as (n & ? & _).
  eauto.
Qed.

(** [balance_node] on a node whose subtrees are balanced and differ in height
    by at most two, after [update_height]: the result is balanced, its height
    fields are right, and its height is that of the higher subtree or one
    more; it is one more when the subtrees differed by at most one. *)
Lemma balance_node_balanced self l r parent value height n :
  heights_ok l → heights_ok r → balanced l → balanced r →
  depth l ≤ depth r + 2 → depth r ≤ depth l + 2 →
  balance_node (update_height (Node self l r parent value height)) = Ok n →
  heights_ok n ∧ balanced n
  ∧ Nat.max (depth l) (depth r) ≤ depth n
  ∧ depth n ≤ S (Nat.max (depth l) (depth r))
  ∧ (depth l ≤ depth r + 1 → depth r ≤ depth l + 1 →
     depth n = S (Nat.max (depth l) (depth r))).
Proof.
  intros Hl Hr Bl Br Hlr Hrl Hb.
  rewrite update_height_eq in Hb. apply balance_node_Ok in Hb.
  inversion Hb; subst; clear Hb; cbn [heights_ok balanced depth] in *;
    repeat match goal with
    | H : _ ∧ _ |- _ => destruct H
    | H : heights_ok ?p |- _ =>
        is_var p; rewrite ?(height_or_0_depth p H) in *;
        revert H
    end; intros;
    rewrite ?heights_ok_set_parent, ?balanced_set_parent, ?depth_set_parent;
    repeat split; auto; try lia.
Qed.

(** *** The heights stay far from the range of int *)

(** A balanced tree of height [2 k] or more has at least [2^k - 1] nodes. *)
Lemma balanced_nodes p (k : nat) :
  balanced p → 2 * k ≤ depth p → (2 ^ Z.of_nat k ≤ Z.of_nat (nodes p) + 1)%Z.
Proof.
  revert k. induction p as [|self l IHl r IHr parent v h]; intros k.
  - cbn [depth nodes]. intros _ Hk. assert (k = 0) as -> by lia. done.
  - cbn [balanced depth nodes]. intros (Bl & Br & Hlr & Hrl) Hk.
    destruct k as [|k]; [cbn; lia|].
    assert (2 * k ≤ depth l) as Hkl by lia.
    assert (2 * k ≤ depth r) as Hkr by lia.
    specialize (IHl k Bl Hkl). specialize (IHr k Br Hkr).
    rewrite Nat2Z.inj_succ, Z.pow_succ_r by lia. lia.
Qed.

Lemma balanced_depth p :
  balanced p → (Z.of_nat (nodes p) < 2 ^ 64)%Z → depth p < 130.
Proof.
  intros Hb Hn. destruct (decide (depth p < 130)) as [|Hd]; [done|].
  pose proof (balanced_nodes p 65 Hb ltac:(lia)) as Hk.
  change (2 ^ Z.of_nat 65)%Z with (2 * 2 ^ 64)%Z in Hk. lia.
Qed.

(** So on a tree that fits the address space [get_balance] is the machine
    computation. *)
Lemma get_balance_machine self l r parent value height :
  heights_ok l → heights_ok r → balanced l → balanced r →
  (Z.of_nat (nodes l) < 2 ^ 64)%Z → (Z.of_nat (nodes r) < 2 ^ 64)%Z →
  get_balance (Node self l r parent value height)
  = Ok (machine_balance (Z.of_nat (height_or_0 l)) (Z.of_nat (height_or_0 r))).
Proof.
  intros Hl Hr Bl Br Nl Nr. cbn [get_balance].
  rewrite machine_balance_eq; [done| |].
  - rewrite (height_or_0_depth l Hl).
    pose proof (balanced_depth l Bl Nl). lia.
  - rewrite (height_or_0_depth r Hr).
    pose proof (balanced_depth r Br Nr). lia.
Qed.

(** *** insert_value and erase_value never fail *)

Lemma update_height_not_null self l r parent value height :
  update_height (Node self l r parent value height) ≠ nullptr.
Proof. done. Qed.

Lemma rebalance_total self l r parent value height (num : nat) :
  ∃ n, (node' ← balance_node
                  (update_height (Node self l r parent value height));
        Ok (node', num)) = Ok (n, num)
       ∧ balance_node (update_height (Node self l r parent value height)) = Ok n.
Proof.
  destruct (balance_node_total
              (update_height (Node self l r parent value height)))
    as [n Hn]; [done|].
  exists n. by rewrite Hn.
Qed.

Lemma insert_value_total p value parent fresh num :
  ∃ p' num', insert_value less p value parent fresh num = Ok (p', num').
Proof.
  revert parent num.
  induction p as [|self l IHl r IHr node_parent node_value height];
    intros parent num; cbn [insert_value]; [eauto|].
  destruct (equal less node_value value); [eauto|].
  destruct (less value node_value).
  - destruct (IHl (Some self) num) as (l' & num' & ->). cbn [mbind result_bind].
    destruct (rebalance_total self l' r node_parent node_value height num')
      as (n & -> & _). eauto.
  - destruct (IHr (Some self) num) as (r' & num' & ->). cbn [mbind result_bind].
    destruct (rebalance_total self l r' node_parent node_value height num')
      as (n & -> & _). eauto.
Qed.

Lemma leftmost_value_not_null p : is_null p = false → is_Some (leftmost_value p).
Proof.
  induction p as [|self l IHl r IHr parent v h]; [done|]. intros _.
  simpl. destruct l; [eauto|]. by apply IHl.
Qed.

Lemma rightmost_value_not_null p : is_null p = false → is_Some (rightmost_value p).
Proof.
  induction p as [|self l IHl r IHr parent v h]; [done|]. intros _.
  simpl. destruct r; [eauto|]. by apply IHr.
Qed.

Lemma erase_value_total p value num :
  ∃ p' num', erase_value less p value num = Ok (p', num').
Proof.
  remember (nodes p) as k eqn:Hk. revert p Hk num.
  induction k as [k IH] using lt_wf_ind. intros p -> num.
  destruct p as [|self l r parent node_value height];
    simp erase_value; [eauto|].
  assert (∀ q num, nodes q < nodes (Node self l r parent node_value height) →
            ∃ q' num', erase_value less q value num = Ok (q', num')) as IH'.
  { intros q num0 Hq. by apply (IH (nodes q)). }
  destruct (equal less node_value value).
  - destruct (is_null l && is_null r) eqn:Hnull; [eauto|].
    destruct (is_null l || negb (is_null r)
                && bool_decide (height_or_0 l < height_or_0 r)) eqn:Hside.
    + assert (is_null r = false) as Hr.
      { destruct l, r; simpl in *; done. }
      destruct (leftmost_value_not_null r Hr) as [near_value ->].
      destruct (IH' (set_leftmost_value r node_value) num)
        as (r' & num' & ->).
      { rewrite nodes_set_leftmost_value. simpl. lia. }
      cbn [mbind result_bind].
      destruct (rebalance_total self l r' parent near_value height num')
        as (n & -> & _). eauto.
    + assert (is_null l = false) as Hl.
      { destruct l, r; simpl in *; done. }
      destruct (rightmost_value_not_null l Hl) as [near_value ->].
      destruct (IH' (set_rightmost_value l node_value) num)
        as (l' & num' & ->).
      { rewrite nodes_set_rightmost_value. simpl. lia. }
      cbn [mbind result_bind].
      destruct (rebalance_total self l' r parent near_value height num')
        as (n & -> & _). eauto.
  - destruct (less value node_value).
    + destruct (IH' l num) as (l' & num' & ->); [simpl; lia|]. cbn [mbind result_bind].
      destruct (rebalance_total self l' r parent node_value height num')
        as (n & -> & _). eauto.
    + destruct (IH' r num) as (r' & num' & ->); [simpl; lia|]. cbn [mbind result_bind].
      destruct (rebalance_total self l r' parent node_value height num')
        as (n & -> & _). eauto.
Qed.

(** *** The runs of insert_value and erase_value *)

(** [inserted value fresh parent p p']: the call
    [insert_value(p, value, parent)] leaves [p'] in the place of [p]. *)
Inductive inserted (value : ValueType) (fresh : addr)
  : option addr → Node_ptr → Node_ptr → Prop :=
  | inserted_new parent :
      inserted value fresh parent nullptr
               (Node fresh nullptr nullptr parent value 1)
  | inserted_equal parent self l r node_parent node_value height :
      equal less node_value value = true →
      inserted value fresh parent
               (Node self l r node_parent node_value height)
               (Node self l r node_parent node_value height)
  | inserted_left parent self l r node_parent node_value height l' n :
      equal less node_value value = false →
      less value node_value = true →
      inserted value fresh (Some self) l l' →
      balance_node (update_height
                      (Node self l' r node_parent node_value height)) = Ok n →
      inserted value fresh parent
               (Node self l r node_parent node_value height) n
  | inserted_right parent self l r node_parent node_value height r' n :
      equal less node_value value = false →
      less value node_value = false →
      inserted value fresh (Some self) r r' →
      balance_node (update_height
                      (Node self l r' node_parent node_value height)) = Ok n →
      inserted value fresh parent
               (Node self l r node_parent node_value height) n.

Lemma insert_value_inserted p value parent fresh num p' num' :
  insert_value less p value parent fresh num = Ok (p', num') →
  inserted value fresh parent p p'.
Proof.
  revert parent num p' num'.
  induction p as [|self l IHl r IHr node_parent node_value height];
    intros parent num p' num' Hi; cbn [insert_value] in Hi.
  - injection Hi as <- _. constructor.
  - destruct (equal less node_value value) eqn:Heq.
    { injection Hi as <- _. by constructor. }
    destruct (less value node_value) eqn:Hlt.
    + inv_bind Hi. destruct x as [l' num1]. inv_bind Hi.
      injection Hi as <- _. eapply inserted_left; eauto.
    + inv_bind Hi. destruct x as [r' num1]. inv_bind Hi.
      injection Hi as <- _. eapply inserted_right; eauto.
Qed.

(** [erased value p p']: the call [erase_value(p, value)] leaves [p'] in the
    place of [p]. *)
Inductive erased (value : ValueType) : Node_ptr → Node_ptr → Prop :=
  | erased_null : erased value nullptr nullptr
  | erased_leaf self parent node_value height :
      equal less node_value value = true →
      erased value (Node self nullptr nullptr parent node_value height) nullptr
  | erased_swap_right self l r parent node_value height near_value r' n :
      equal less node_value value = true →
      is_null r = false →
      is_null l = true ∨ height_or_0 l < height_or_0 r →
      leftmost_value r = Some near_value →
      erased value (set_leftmost_value r node_value) r' →
      balance_node (update_height
                      (Node self l r' parent near_value height)) = Ok n →
      erased value (Node self l r parent node_value height) n
  | erased_swap_left self l r parent node_value height near_value l' n :
      equal less node_value value = true →
      is_null l = false →
      is_null r = true ∨ height_or_0 r ≤ height_or_0 l →
      rightmost_value l = Some near_value →
      erased value (set_rightmost_value l node_value) l' →
      balance_node (update_height
                      (Node self l' r parent near_value height)) = Ok n →
      erased value (Node self l r parent node_value height) n
  | erased_left self l r parent node_value height l' n :
      equal less node_value value = false →
      less value node_value = true →
      erased value l l' →
      balance_node (update_height
                      (Node self l' r parent node_value height)) = Ok n →
      erased value (Node self l r parent node_value height) n
  | erased_right self l r parent node_value height r' n :
      equal less node_value value = false →
      less value node_value = false →
      erased value r r' →
      balance_node (update_height
                      (Node self l r' parent node_value height)) = Ok n →
      erased value (Node self l r parent node_value height) n.

Lemma erase_value_erased p value num p' num' :
  erase_value less p value num = Ok (p', num') → erased value p p'.
Proof.
  remember (nodes p) as k eqn:Hk. revert p Hk num p' num'.
  induction k as [k IH] using lt_wf_ind. intros p -> num p' num' He.
  destruct p as [|self l r parent node_value height];
    simp erase_value in He.
  { injection He as <- _. constructor. }
  assert (∀ q num q' num',
            nodes q < nodes (Node self l r parent node_value height) →
            erase_value less q value num = Ok (q', num') →
            erased value q q') as IH'.
  { intros q num0 q' num0' Hq. by apply (IH (nodes q)). }
  destruct (equal less node_value value) eqn:Heq.
  - destruct (is_null l && is_null r) eqn:Hnull.
    { injection He as <- _. destruct l, r; try done. by constructor. }
    destruct (is_null l || negb (is_null r)
                && bool_decide (height_or_0 l < height_or_0 r)) eqn:Hside.
    + destruct (leftmost_value r) as [near_value|] eqn:Hnear; [|done].
      inv_bind He. destruct x as [r' num1]. inv_bind He.
      injection He as <- _.
      eapply erased_swap_right; eauto.
      * destruct l, r; simpl in *; done.
      * destruct l; [by left|right]. simpl in Hside.
        apply andb_true_iff in Hside as [_ Hside].
        by apply bool_decide_eq_true in Hside.
      * eapply IH'; [|done]. rewrite nodes_set_leftmost_value. simpl. lia.
    + destruct (rightmost_value l) as [near_value|] eqn:Hnear; [|done].
      inv_bind He. destruct x as [l' num1]. inv_bind He.
      injection He as <- _.
      eapply erased_swap_left; eauto.
      * destruct l, r; simpl in *; done.
      * destruct r; [by left|right]. destruct l; [done|]. simpl in Hside.
        apply bool_decide_eq_false in Hside. simpl. lia.
      * eapply IH'; [|done]. rewrite nodes_set_rightmost_value. simpl. lia.
  - destruct (less value node_value) eqn:Hlt.
    + inv_bind He. destruct x as [l' num1]. inv_bind He.
      injection He as <- _.
      eapply erased_left; eauto. eapply IH'; [|done]. simpl. lia.
    + inv_bind He. destruct x as [r' num1]. inv_bind He.
      injection He as <- _.
      eapply erased_right; eauto. eapply IH'; [|done]. simpl. lia.
Qed.

(** *** C2: the tree stays balanced *)

Lemma inserted_balanced value fresh parent p p' :
  inserted value fresh parent p p' →
  heights_ok p → balanced p →
  heights_ok p' ∧ balanced p'
  ∧ depth p ≤ depth p' ∧ depth p' ≤ S (depth p).
Proof.
  induction 1 as [parent|parent self l r node_parent node_value height Heq
    |parent self l r node_parent node_value height l' n Heq Hlt Hi IH Hb
    |parent self l r node_parent node_value height r' n Heq Hlt Hi IH Hb];
    cbn [heights_ok balanced depth].
  - intros _ _. simpl. repeat split; lia.
  - intros (? & ? & ?) (? & ? & ? & ?). repeat split; auto.
  - intros (Hl & Hr & ->) (Bl & Br & ? & ?).
    destruct (IH Hl Bl) as (Hl' & Bl' & ? & ?).
    apply balance_node_balanced in Hb as (? & ? & ? & ? & Hsame);
      [|done|done|done|done|lia|lia].
    repeat split; auto; lia.
  - intros (Hl & Hr & ->) (Bl & Br & ? & ?).
    destruct (IH Hr Br) as (Hr' & Br' & ? & ?).
    apply balance_node_balanced in Hb as (? & ? & ? & ? & Hsame);
      [|done|done|done|done|lia|lia].
    repeat split; auto; lia.
Qed.

Lemma set_leftmost_value_left self l r parent v h x :
  is_null l = false →
  set_leftmost_value (Node self l r parent v h) x
  = Node self (set_leftmost_value l x) r parent v h.
Proof. by destruct l. Qed.

Lemma set_rightmost_value_right self l r parent v h x :
  is_null r = false →
  set_rightmost_value (Node self l r parent v h) x
  = Node self l (set_rightmost_value r x) parent v h.
Proof. by destruct r. Qed.

Lemma is_null_true p : is_null p = true → p = nullptr.
Proof. by destruct p. Qed.

(** Case analysis on the left (right) child being null, for the functions
    that walk to the leftmost (rightmost) node. *)
Ltac leftmost_cases l x :=
  let E := fresh "E" in
  destruct (is_null l) eqn:E;
  [apply is_null_true in E; subst l
  |rewrite ?(set_leftmost_value_left _ l _ _ _ _ x E)].

Ltac rightmost_cases r x :=
  let E := fresh "E" in
  destruct (is_null r) eqn:E;
  [apply is_null_true in E; subst r
  |rewrite ?(set_rightmost_value_right _ _ r _ _ _ x E)].

Lemma depth_set_leftmost_value p x : depth (set_leftmost_value p x) = depth p.
Proof.
  induction p as [|self l IHl r IHr parent v h]; [done|].
  leftmost_cases l x; [done|]. cbn [depth]. by rewrite IHl.
Qed.

Lemma depth_set_rightmost_value p x : depth (set_rightmost_value p x) = depth p.
Proof.
  induction p as [|self l IHl r IHr parent v h]; [done|].
  rightmost_cases r x; [done|]. cbn [depth]. by rewrite IHr.
Qed.

Lemma heights_ok_set_leftmost_value p x :
  heights_ok p → heights_ok (set_leftmost_value p x).
Proof.
  induction p as [|self l IHl r IHr parent v h]; [done|].
  leftmost_cases l x; [done|]. cbn [heights_ok].
  rewrite depth_set_leftmost_value. tauto.
Qed.

Lemma heights_ok_set_rightmost_value p x :
  heights_ok p → heights_ok (set_rightmost_value p x).
Proof.
  induction p as [|self l IHl r IHr parent v h]; [done|].
  rightmost_cases r x; [done|]. cbn [heights_ok].
  rewrite depth_set_rightmost_value. tauto.
Qed.

Lemma balanced_set_leftmost_value p x :
  balanced p → balanced (set_leftmost_value p x).
Proof.
  induction p as [|self l IHl r IHr parent v h]; [done|].
  leftmost_cases l x; [done|]. cbn [balanced].
  rewrite depth_set_leftmost_value. tauto.
Qed.

Lemma balanced_set_rightmost_value p x :
  balanced p → balanced (set_rightmost_value p x).
Proof.
  induction p as [|self l IHl r IHr parent v h]; [done|].
  rightmost_cases r x; [done|]. cbn [balanced].
  rewrite depth_set_rightmost_value. tauto.
Qed.

Lemma erased_balanced value p p' :
  erased value p p' →
  heights_ok p → balanced p →
  heights_ok p' ∧ balanced p'
  ∧ depth p' ≤ depth p ∧ depth p ≤ S (depth p').
Proof.
  induction 1 as [|self parent node_value height Heq
    |self l r parent node_value height near_value r' n Heq Hr Hside Hnear He IH Hb
    |self l r parent node_value height near_value l' n Heq Hl Hside Hnear He IH Hb
    |self l r parent node_value height l' n Heq Hlt He IH Hb
    |self l r parent node_value height r' n Heq Hlt He IH Hb];
    cbn [heights_ok balanced depth].
  - intros _ _. repeat split; lia.
  - intros _ _. simpl. repeat split; lia.
  - intros (Hl & Hr' & ->) (Bl & Br & ? & ?).
    destruct IH as (Hr'' & Br'' & ? & ?);
      [by apply heights_ok_set_leftmost_value
      |by apply balanced_set_leftmost_value|].
    rewrite depth_set_leftmost_value in *.
    apply balance_node_balanced in Hb as (? & ? & ? & ? & Hsame);
      [|done|done|done|done|lia|lia].
    repeat split; auto; lia.
  - intros (Hl' & Hr & ->) (Bl & Br & ? & ?).
    destruct IH as (Hl'' & Bl'' & ? & ?);
      [by apply heights_ok_set_rightmost_value
      |by apply balanced_set_rightmost_value|].
    rewrite depth_set_rightmost_value in *.
    apply balance_node_balanced in Hb as (? & ? & ? & ? & Hsame);
      [|done|done|done|done|lia|lia].
    repeat split; auto; lia.
  - intros (Hl & Hr & ->) (Bl & Br & ? & ?).
    destruct (IH Hl Bl) as (Hl' & Bl' & ? & ?).
    apply balance_node_balanced in Hb as (? & ? & ? & ? & Hsame);
      [|done|done|done|done|lia|lia].
    repeat split; auto; lia.
  - intros (Hl & Hr & ->) (Bl & Br & ? & ?).
    destruct (IH Hr Br) as (Hr' & Br' & ? & ?).
    apply balance_node_balanced in Hb as (? & ? & ? & ? & Hsame);
      [|done|done|done|done|lia|lia].
    repeat split; auto; lia.
Qed.

(** *** Search-tree order *)

(** The values of a tree, left to right. *)
Fixpoint elements p : list ValueType :=
  match p with
  | nullptr => []
  | Node _ l r _ value _ => elements l ++ value :: elements r
  end.

Definition lt_value : relation ValueType := λ x y, less x y = true.

(** In-order, the values are strictly ascending. *)
Definition ordered p : Prop := StronglySorted lt_value (elements p).

Lemma elements_set_parent p q : elements (set_parent p q) = elements p.
Proof. by destruct p. Qed.

Lemma elements_update_height p : elements (update_height p) = elements p.
Proof. by destruct p. Qed.

(** A rotation keeps the in-order sequence. *)
Lemma balance_case_elements node n :
  balance_case node n → elements n = elements node.
Proof.
  destruct 1; cbn [elements]; rewrite ?elements_set_parent;
    repeat (rewrite <- ?app_assoc; cbn [app]); done.
Qed.

Lemma rebalance_elements self l r parent value height n :
  balance_node (update_height (Node self l r parent value height)) = Ok n →
  elements n = elements l ++ value :: elements r.
Proof.
  intros Hb. apply balance_node_Ok, balance_case_elements in Hb.
  by rewrite Hb, elements_update_height.
Qed.

Lemma sorted_node (l1 l2 : list ValueType) x :
  StronglySorted lt_value (l1 ++ x :: l2) ↔
    StronglySorted lt_value l1 ∧ StronglySorted lt_value l2
    ∧ (∀ a, a ∈ l1 → lt_value a x) ∧ (∀ b, b ∈ l2 → lt_value x b)
    ∧ (∀ a b, a ∈ l1 → b ∈ l2 → lt_value a b).
Proof.
  rewrite StronglySorted_app, StronglySorted_cons, Forall_forall.
  split.
  - intros (Happ & Hl1 & Hx & Hl2). repeat split; auto.
    + intros a Ha. apply Happ; [done|]. by left.
    + intros a b Ha Hb. apply Happ; [done|]. by right.
  - intros (Hl1 & Hl2 & Ha & Hb & Hab). repeat split; auto.
    intros a b Hin [->|Hin']%elem_of_cons; auto.
Qed.

Lemma leftmost_value_elements p near_value x :
  leftmost_value p = Some near_value →
  ∃ rest, elements p = near_value :: rest
          ∧ elements (set_leftmost_value p x) = x :: rest.
Proof.
  induction p as [|self l IHl r IHr parent v h]; [done|].
  leftmost_cases l x.
  - intros [= ->]. by eexists.
  - intros Hn. assert (leftmost_value l = Some near_value) as Hl.
    { by destruct l. }
    destruct (IHl Hl) as (rest & E1 & E2).
    exists (rest ++ v :: elements r). cbn [elements]. by rewrite E1, E2.
Qed.

Lemma rightmost_value_elements p near_value x :
  rightmost_value p = Some near_value →
  ∃ init, elements p = init ++ [near_value]
          ∧ elements (set_rightmost_value p x) = init ++ [x].
Proof.
  induction p as [|self l IHl r IHr parent v h]; [done|].
  rightmost_cases r x.
  - intros [= ->]. by eexists.
  - intros Hn. assert (rightmost_value r = Some near_value) as Hr.
    { by destruct r. }
    destruct (IHr Hr) as (init & E1 & E2).
    exists (elements l ++ v :: init). cbn [elements]. rewrite E1, E2.
    by rewrite <- !app_assoc.
Qed.


(** *** Addresses and parent links *)

(** The addresses of the nodes of a tree, left to right. *)
Fixpoint addrs p : list addr :=
  match p with
  | nullptr => []
  | Node self l r _ _ _ => addrs l ++ self :: addrs r
  end.

(** Every [parent] field holds the address of the node above; [up] is what
    the field of the topmost node holds. *)
Fixpoint parents_ok p (up : option addr) : Prop :=
  match p with
  | nullptr => True
  | Node self l r parent _ _ =>
      parent = up ∧ parents_ok l (Some self) ∧ parents_ok r (Some self)
  end.

Lemma NoDup_node (l1 l2 : list addr) a :
  NoDup (l1 ++ a :: l2) ↔
    NoDup l1 ∧ NoDup l2 ∧ (a ∉ l1) ∧ (a ∉ l2) ∧ (∀ x, x ∈ l1 → x ∉ l2).
Proof.
  rewrite NoDup_app, NoDup_cons. split.
  - intros (H1 & H12 & Ha & H2). repeat split; auto.
    + intros Hin. apply (H12 a Hin). by left.
    + intros x Hx Hx2. apply (H12 x Hx). by right.
  - intros (H1 & H2 & Ha1 & Ha2 & H12). repeat split; auto.
    intros x Hx [->|Hx2]%elem_of_cons; [done|]. by apply (H12 x).
Qed.

Lemma addrs_set_parent p q : addrs (set_parent p q) = addrs p.
Proof. by destruct p. Qed.

Lemma addrs_update_height p : addrs (update_height p) = addrs p.
Proof. by destruct p. Qed.

Lemma parents_ok_set_parent p up q :
  parents_ok p up → parents_ok (set_parent p q) q.
Proof. destruct p; [done|]. simpl. tauto. Qed.

Lemma parents_ok_update_height p up :
  parents_ok (update_height p) up ↔ parents_ok p up.
Proof. by destruct p. Qed.

(** A rotation keeps the addresses in order and sets every [parent] field
    it has to. *)
Lemma balance_case_addrs node n :
  balance_case node n → addrs n = addrs node.
Proof.
  destruct 1; cbn [addrs]; rewrite ?addrs_set_parent;
    repeat (rewrite <- ?app_assoc; cbn [app]); done.
Qed.

Lemma balance_case_parents_ok node n up :
  balance_case node n → parents_ok node up → parents_ok n up.
Proof.
  destruct 1; cbn [parents_ok]; intros;
    repeat match goal with H : _ ∧ _ |- _ => destruct H end;
    repeat split; eauto using parents_ok_set_parent.
Qed.

Lemma rebalance_addrs self l r parent value height n :
  balance_node (update_height (Node self l r parent value height)) = Ok n →
  addrs n = addrs l ++ self :: addrs r.
Proof.
  intros Hb. apply balance_node_Ok, balance_case_addrs in Hb.
  by rewrite Hb, addrs_update_height.
Qed.

Lemma rebalance_parents_ok self l r parent value height n up :
  balance_node (update_height (Node self l r parent value height)) = Ok n →
  parent = up → parents_ok l (Some self) → parents_ok r (Some self) →
  parents_ok n up.
Proof.
  intros Hb Hp Hl Hr. apply balance_node_Ok in Hb.
  eapply balance_case_parents_ok; [done|].
  rewrite update_height_eq. by cbn [parents_ok].
Qed.

Lemma inserted_addrs value fresh parent p p' :
  inserted value fresh parent p p' →
  parents_ok p parent → NoDup (addrs p) → fresh ∉ addrs p →
  parents_ok p' parent ∧ NoDup (addrs p')
  ∧ ∀ a, a ∈ addrs p' → a = fresh ∨ a ∈ addrs p.
Proof.
  induction 1 as [parent|parent self l r node_parent node_value height Heq
    |parent self l r node_parent node_value height l' n Heq Hlt Hi IH Hb
    |parent self l r node_parent node_value height r' n Heq Hlt Hi IH Hb].
  - intros _ _ _. cbn [parents_ok addrs app]. repeat split.
    + apply NoDup_singleton.
    + intros a Ha%list_elem_of_singleton. by left.
  - intros Hp Hn Hf. split; [done|]. split; [done|]. auto.
  - cbn [parents_ok addrs].
    intros (Hp & Hl & Hr) (Nl & Nr & Sl & Sr & Dlr)%NoDup_node
           Hf%not_elem_of_app.
    destruct Hf as [Hfl Hf]. apply not_elem_of_cons in Hf as [Hfs Hfr].
    destruct (IH Hl Nl Hfl) as (Hl' & Nl' & Sub).
    rewrite (rebalance_addrs _ _ _ _ _ _ _ Hb).
    split; [by eapply rebalance_parents_ok|]. split.
    + apply NoDup_node. repeat split; [done|done| |done|].
      * intros [->|Ha]%Sub; done.
      * intros x [->|Hx]%Sub; [done|by apply Dlr].
    + intros a. rewrite !elem_of_app, !elem_of_cons.
      intros [[->|Ha]%Sub|[->|Ha]]; tauto.
  - cbn [parents_ok addrs].
    intros (Hp & Hl & Hr) (Nl & Nr & Sl & Sr & Dlr)%NoDup_node
           Hf%not_elem_of_app.
    destruct Hf as [Hfl Hf]. apply not_elem_of_cons in Hf as [Hfs Hfr].
    destruct (IH Hr Nr Hfr) as (Hr' & Nr' & Sub).
    rewrite (rebalance_addrs _ _ _ _ _ _ _ Hb).
    split; [by eapply rebalance_parents_ok|]. split.
    + apply NoDup_node. repeat split; [done|done|done| |].
      * intros [->|Ha]%Sub; done.
      * intros x Hx [->|Hx']%Sub; [done|by apply (Dlr x)].
    + intros a. rewrite !elem_of_app, !elem_of_cons.
      intros [Ha|[->|[->|Ha]%Sub]]; tauto.
Qed.

Lemma addrs_set_leftmost_value p x : addrs (set_leftmost_value p x) = addrs p.
Proof.
  induction p as [|self l IHl r IHr parent v h]; [done|].
  leftmost_cases l x; [done|]. cbn [addrs]. by rewrite IHl.
Qed.

Lemma addrs_set_rightmost_value p x : addrs (set_rightmost_value p x) = addrs p.
Proof.
  induction p as [|self l IHl r IHr parent v h]; [done|].
  rightmost_cases r x; [done|]. cbn [addrs]. by rewrite IHr.
Qed.

Lemma parents_ok_set_leftmost_value p x up :
  parents_ok p up → parents_ok (set_leftmost_value p x) up.
Proof.
  revert up. induction p as [|self l IHl r IHr parent v h]; [done|].
  intros up. leftmost_cases l x; [done|]. cbn [parents_ok].
  intros (? & ? & ?). auto.
Qed.

Lemma parents_ok_set_rightmost_value p x up :
  parents_ok p up → parents_ok (set_rightmost_value p x) up.
Proof.
  revert up. induction p as [|self l IHl r IHr parent v h]; [done|].
  intros up. rightmost_cases r x; [done|]. cbn [parents_ok].
  intros (? & ? & ?). auto.
Qed.

Lemma erased_addrs value p p' up :
  erased value p p' →
  parents_ok p up → NoDup (addrs p) →
  parents_ok p' up ∧ NoDup (addrs p') ∧ ∀ a, a ∈ addrs p' → a ∈ addrs p.
Proof.
  intros He. revert up.
  induction He as [|self parent node_value height Heq
    |self l r parent node_value height near_value r' n Heq Hr Hside Hnear He IH Hb
    |self l r parent node_value height near_value l' n Heq Hl Hside Hnear He IH Hb
    |self l r parent node_value height l' n Heq Hlt He IH Hb
    |self l r parent node_value height r' n Heq Hlt He IH Hb]; intros up.
  - done.
  - intros _ _. cbn [parents_ok addrs]. repeat split; [constructor|].
    intros a Ha. by apply elem_of_nil in Ha.
  - cbn [parents_ok addrs].
    intros (Hp & Hl & Hr') (Nl & Nr & Sl & Sr & Dlr)%NoDup_node.
    rewrite addrs_set_leftmost_value in IH.
    destruct (IH (Some self)) as (Hr'' & Nr' & Sub);
      [by apply parents_ok_set_leftmost_value|done|].
    rewrite (rebalance_addrs _ _ _ _ _ _ _ Hb).
    split; [by eapply rebalance_parents_ok|]. split.
    + apply NoDup_node. repeat split; [done|done|done| |].
      * intros Ha%Sub; done.
      * intros x Hx Hx'%Sub. by apply (Dlr x).
    + intros a. rewrite !elem_of_app, !elem_of_cons.
      intros [Ha|[->|Ha%Sub]]; tauto.
  - cbn [parents_ok addrs].
    intros (Hp & Hl' & Hr) (Nl & Nr & Sl & Sr & Dlr)%NoDup_node.
    rewrite addrs_set_rightmost_value in IH.
    destruct (IH (Some self)) as (Hl'' & Nl' & Sub);
      [by apply parents_ok_set_rightmost_value|done|].
    rewrite (rebalance_addrs _ _ _ _ _ _ _ Hb).
    split; [by eapply rebalance_parents_ok|]. split.
    + apply NoDup_node. repeat split; [done|done| |done|].
      * intros Ha%Sub; done.
      * intros x Hx%Sub. by apply Dlr.
    + intros a. rewrite !elem_of_app, !elem_of_cons.
      intros [Ha%Sub|[->|Ha]]; tauto.
  - cbn [parents_ok addrs].
    intros (Hp & Hl & Hr) (Nl & Nr & Sl & Sr & Dlr)%NoDup_node.
    destruct (IH (Some self) Hl Nl) as (Hl' & Nl' & Sub).
    rewrite (rebalance_addrs _ _ _ _ _ _ _ Hb).
    split; [by eapply rebalance_parents_ok|]. split.
    + apply NoDup_node. repeat split; [done|done| |done|].
      * intros Ha%Sub; done.
      * intros x Hx%Sub. by apply Dlr.
    + intros a. rewrite !elem_of_app, !elem_of_cons.
      intros [Ha%Sub|[->|Ha]]; tauto.
  - cbn [parents_ok addrs].
    intros (Hp & Hl & Hr) (Nl & Nr & Sl & Sr & Dlr)%NoDup_node.
    destruct (IH (Some self) Hr Nr) as (Hr' & Nr' & Sub).
    rewrite (rebalance_addrs _ _ _ _ _ _ _ Hb).
    split; [by eapply rebalance_parents_ok|]. split.
    + apply NoDup_node. repeat split; [done|done|done| |].
      * intros Ha%Sub; done.
      * intros x Hx Hx'%Sub. by apply (Dlr x).
    + intros a. rewrite !elem_of_app, !elem_of_cons.
      intros [Ha|[->|Ha%Sub]]; tauto.
Qed.

(** *** Reading nodes through their addresses *)

Lemma find_node_self self l r parent value height :
  find_node (Node self l r parent value height) self
  = Some (Node self l r parent value height).
Proof. simpl. by case_decide. Qed.

Lemma find_node_Some heap a n :
  find_node heap a = Some n →
  addr_of n = Some a ∧ ∀ x, x ∈ addrs n → x ∈ addrs heap.
Proof.
  induction heap as [|self l IHl r IHr parent v h]; [done|].
  cbn [find_node addrs]. case_decide as Hs.
  - intros [= <-]. by subst.
  - destruct (find_node l a) as [n'|] eqn:Hl.
    + intros [= ->]. destruct (IHl eq_refl) as [? Sub]. split; [done|].
      intros x Hx. apply elem_of_app. left. auto.
    + intros Hr. destruct (IHr Hr) as [? Sub]. split; [done|].
      intros x Hx. apply elem_of_app. right. right. auto.
Qed.

Lemma find_node_elem_of heap a n : find_node heap a = Some n → a ∈ addrs heap.
Proof.
  intros Hf. destruct (find_node_Some _ _ _ Hf) as [Ha Sub]. apply Sub.
  destruct n; [done|]. injection Ha as ->. cbn [addrs].
  apply elem_of_app. right. by left.
Qed.

Lemma find_node_None heap a : a ∉ addrs heap → find_node heap a = None.
Proof.
  intros Ha. destruct (find_node heap a) eqn:Hf; [|done].
  by apply find_node_elem_of in Hf.
Qed.

Lemma find_node_addr_of n a : addr_of n = Some a → find_node n a = Some n.
Proof. destruct n; [done|]. intros [= <-]. apply find_node_self. Qed.

Lemma addr_of_elem_of n a : addr_of n = Some a → a ∈ addrs n.
Proof.
  destruct n; [done|]. intros [= <-]. cbn [addrs].
  apply elem_of_app. right. by left.
Qed.

Lemma find_node_left self l r parent value height a :
  addr_of l = Some a → self ≠ a →
  find_node (Node self l r parent value height) a = Some l.
Proof.
  intros Ha Hs. cbn [find_node]. case_decide; [done|].
  by rewrite (find_node_addr_of l a).
Qed.

Lemma find_node_right self l r parent value height a :
  addr_of r = Some a → self ≠ a → a ∉ addrs l →
  find_node (Node self l r parent value height) a = Some r.
Proof.
  intros Ha Hs Hl. cbn [find_node]. case_decide; [done|].
  rewrite (find_node_None l a) by done. by apply find_node_addr_of.
Qed.

(** A node found inside a node found in the heap is found in the heap. *)
Lemma find_node_trans heap a n b n' :
  NoDup (addrs heap) →
  find_node heap a = Some n → find_node n b = Some n' →
  find_node heap b = Some n'.
Proof.
  intros Hnd Ha Hb. pose proof (find_node_elem_of _ _ _ Hb) as Hbn.
  induction heap as [|self l IHl r IHr parent v h]; [done|].
  cbn [find_node addrs] in *.
  apply NoDup_node in Hnd as (Nl & Nr & Sl & Sr & Dlr).
  case_decide as Hs; [by injection Ha as <-|].
  destruct (find_node l a) as [n0|] eqn:Hl.
  - injection Ha as ->.
    assert (b ∈ addrs l) as Hbl.
    { by apply (find_node_Some _ _ _ Hl). }
    case_decide as Hsb; [by subst|]. by rewrite (IHl Nl eq_refl).
  - assert (b ∈ addrs r) as Hbr.
    { by apply (find_node_Some _ _ _ Ha). }
    case_decide as Hsb; [by subst|].
    rewrite (find_node_None l b); [by apply IHr|].
    intros Hbl. by apply (Dlr b).
Qed.

(** *** The place of a subtree in the tree *)

(** [within heap d n next]: the subtree [n] hangs [d] links below the root of
    [heap], and [next] is the address of the node that follows the last node
    of [n] in order ([None] when [n] ends the tree). *)
Inductive within (heap : Node_ptr) : nat → Node_ptr → option addr → Prop :=
  | within_root : within heap 0 heap None
  | within_left d self l r parent value height next :
      within heap d (Node self l r parent value height) next →
      within heap (S d) l (Some self)
  | within_right d self l r parent value height next :
      within heap d (Node self l r parent value height) next →
      within heap (S d) r next.

Definition heap_ok (heap : Node_ptr) : Prop :=
  parents_ok heap None ∧ NoDup (addrs heap).

Lemma within_0 heap n next : within heap 0 n next → n = heap.
Proof. by inversion 1. Qed.

Lemma within_facts heap d n next :
  heap_ok heap → within heap d n next →
  NoDup (addrs n)
  ∧ (∃ up, parents_ok n up)
  ∧ d + nodes n ≤ nodes heap
  ∧ (0 < d → ∀ a, a ∈ addrs n → Some a ≠ addr_of heap)
  ∧ (∀ a, addr_of n = Some a → find_node heap a = Some n).
Proof.
  intros [Hp Hnd].
  induction 1 as [|d self l r parent value height next Hw IH
                  |d self l r parent value height next Hw IH].
  - repeat split; [done|eauto|lia|lia|].
    intros a Ha. destruct heap; [done|]. injection Ha as <-.
    apply find_node_self.
  - destruct IH as (Nn & [up Pn] & Hsize & Hroot & Hfind).
    cbn [addrs parents_ok nodes addr_of] in *.
    apply NoDup_node in Nn as (Nl & Nr & Sl & Sr & Dlr).
    destruct Pn as (-> & Pl & Pr).
    repeat split; [done|eauto|lia| |].
    + intros _ a Ha. destruct d as [|d].
      * apply within_0 in Hw as <-. cbn [addr_of]. by intros [= ->].
      * apply Hroot; [lia|]. apply elem_of_app. by left.
    + intros a Ha. eapply find_node_trans; [done|by apply Hfind|].
      apply find_node_left; [done|].
      intros ->. by apply Sl, addr_of_elem_of.
  - destruct IH as (Nn & [up Pn] & Hsize & Hroot & Hfind).
    cbn [addrs parents_ok nodes addr_of] in *.
    apply NoDup_node in Nn as (Nl & Nr & Sl & Sr & Dlr).
    destruct Pn as (-> & Pl & Pr).
    repeat split; [done|eauto|lia| |].
    + intros _ a Ha. destruct d as [|d].
      * apply within_0 in Hw as <-. cbn [addr_of]. by intros [= ->].
      * apply Hroot; [lia|]. apply elem_of_app. right. by right.
    + intros a Ha. pose proof (addr_of_elem_of r a Ha) as Hin.
      eapply find_node_trans; [done|by apply Hfind|].
      apply find_node_right; [done| |].
      * by intros ->.
      * intros Hl. by apply (Dlr a).
Qed.

(** *** C1: the iterator walks the tree in order *)

Lemma parents_ok_parent_of n up a :
  parents_ok n up → addr_of n = Some a → parent_of n = up.
Proof. destruct n; [done|]. by intros (-> & _) _. Qed.

Lemma load_within heap d n next a :
  heap_ok heap → within heap d n next → addr_of n = Some a →
  load heap (Some a) = Ok n.
Proof.
  intros Hh Hw Ha. destruct (within_facts _ _ _ _ Hh Hw) as (_ & _ & _ & _ & Hf).
  unfold load. by rewrite (Hf a Ha).
Qed.

(** The [else] branch of [operator++], from a node that has no right child or
    from any node above such a node: the climb stops below the first node
    that is reached from its left child, and the parent step lands on it. *)
Lemma climb_within heap d n next :
  heap_ok heap → within heap d n next →
  ∀ a fuel, addr_of n = Some a → d < fuel →
    ∃ nd n', climb fuel heap (addr_of heap) (Some a) = Ok nd
             ∧ load heap nd = Ok n' ∧ parent_of n' = next.
Proof.
  intros Hh.
  induction 1 as [|d self l r parent value height next Hw IH
                  |d self l r parent value height next Hw IH];
    intros a fuel Ha Hfuel; (destruct fuel as [|fuel]; [lia|]).
  - exists (Some a), heap. cbn [climb]. rewrite Ha.
    split; [by case_decide|]. split.
    + by apply (load_within heap 0 heap None a); [|constructor|].
    + destruct Hh as [Hp _]. by apply (parents_ok_parent_of heap None a).
  - (* [n] is a left child: the loop does not move *)
    pose proof (within_left _ _ _ _ _ _ _ _ _ Hw) as Hwl.
    destruct (within_facts _ _ _ _ Hh Hw) as (Nn & [up Pn] & _ & _ & _).
    destruct (within_facts _ _ _ _ Hh Hwl) as (_ & _ & _ & Hroot & _).
    cbn [addrs parents_ok] in *.
    apply NoDup_node in Nn as (Nl & Nr & Sl & Sr & Dlr).
    destruct Pn as (-> & Pl & Pr).
    pose proof (addr_of_elem_of l a Ha) as Hal.
    exists (Some a), l. split; [|split].
    + cbn [climb]. case_decide as Hrt.
      { exfalso. apply (Hroot ltac:(lia) a Hal). congruence. }
      rewrite (load_within _ _ _ _ a Hh Hwl Ha). cbn [mbind result_bind].
      rewrite (parents_ok_parent_of l (Some self) a Pl Ha).
      rewrite (load_within _ _ _ _ self Hh Hw eq_refl).
      cbn [mbind result_bind right_of].
      case_decide as Hr; [|done].
      exfalso. apply (Dlr a Hal). by apply addr_of_elem_of.
    + by apply (load_within _ _ _ _ a Hh Hwl Ha).
    + by apply (parents_ok_parent_of l (Some self) a Pl Ha).
  - (* [n] is a right child: the loop moves to the parent *)
    pose proof (within_right _ _ _ _ _ _ _ _ _ Hw) as Hwr.
    destruct (within_facts _ _ _ _ Hh Hw) as (Nn & [up Pn] & _ & _ & _).
    destruct (within_facts _ _ _ _ Hh Hwr) as (_ & _ & _ & Hroot & _).
    cbn [addrs parents_ok] in *.
    destruct Pn as (-> & Pl & Pr).
    pose proof (addr_of_elem_of r a Ha) as Har.
    destruct (IH self fuel eq_refl) as (nd & n' & Hc & Hl & Hp); [lia|].
    exists nd, n'. split; [|done].
    cbn [climb]. case_decide as Hrt.
    { exfalso. apply (Hroot ltac:(lia) a Har). congruence. }
    rewrite (load_within _ _ _ _ a Hh Hwr Ha). cbn [mbind result_bind].
    rewrite (parents_ok_parent_of r (Some self) a Pr Ha).
    rewrite (load_within _ _ _ _ self Hh Hw eq_refl).
    cbn [mbind result_bind right_of].
    case_decide as Hr; [done|congruence].
Qed.

(** Where a walk over the subtree [n] starts: at its leftmost node, or, for
    an empty subtree, at what follows it. *)
Definition start_of n (next : option addr) : option addr :=
  match leftmost_addr n with
  | Some a => Some a
  | None => next
  end.

Lemma leftmost_addr_not_null n : is_null n = false → is_Some (leftmost_addr n).
Proof.
  induction n as [|self l IHl r IHr parent v h]; [done|]. intros _.
  simpl. destruct l; [eauto|]. by apply IHl.
Qed.

Lemma start_of_not_null n next :
  is_null n = false → start_of n next = leftmost_addr n.
Proof.
  intros Hn. unfold start_of.
  by destruct (leftmost_addr_not_null n Hn) as [a ->].
Qed.

Lemma start_of_node self l r parent value height next :
  start_of (Node self l r parent value height) next = start_of l (Some self).
Proof.
  unfold start_of. destruct l as [|l_self ll lr l_parent l_value l_height];
    [done|].
  change (leftmost_addr (Node self (Node l_self ll lr l_parent l_value l_height)
                               r parent value height))
    with (leftmost_addr (Node l_self ll lr l_parent l_value l_height)).
  by destruct (leftmost_addr_not_null
                 (Node l_self ll lr l_parent l_value l_height) eq_refl)
    as [a ->].
Qed.

(** Walking the subtree [n] takes one iteration per node, appends the values
    of [n] in order, and leaves the iterator on the node that follows [n]. *)
Lemma visit_within heap end_it fuel :
  heap_ok heap → nodes heap ≤ fuel →
  node end_it = None →
  ∀ n d next count out,
    within heap d n next →
    visit (nodes n + count) fuel heap
          {| node := start_of n next; it_root := addr_of heap |} end_it out
    = visit count fuel heap
            {| node := next; it_root := addr_of heap |} end_it
            (out ++ elements n).
Proof.
  intros Hh Hfuel Hend.
  induction n as [|self l IHl r IHr parent value height];
    intros d next count out Hw.
  - cbn [nodes elements start_of leftmost_addr]. by rewrite app_nil_r.
  - pose proof (within_left _ _ _ _ _ _ _ _ _ Hw) as Hwl.
    pose proof (within_right _ _ _ _ _ _ _ _ _ Hw) as Hwr.
    destruct (within_facts _ _ _ _ Hh Hw) as (_ & _ & Hsize & _ & _).
    cbn [nodes] in Hsize.
    rewrite start_of_node. cbn [nodes elements].
    replace (S (nodes l + nodes r) + count)
      with (nodes l + S (nodes r + count)) by lia.
    rewrite (IHl _ _ _ _ Hwl).
    cbn [visit]. case_decide as Hit.
    { rewrite <- Hit in Hend. discriminate. }
    unfold dereference, increment. cbn [node it_root].
    rewrite (load_within _ _ _ _ self Hh Hw eq_refl).
    cbn [mbind result_bind right_of].
    destruct (is_null r) eqn:Hr; cbn [negb].
    + apply is_null_true in Hr. subst r.
      destruct (climb_within _ _ _ _ Hh Hw self fuel eq_refl)
        as (nd & n' & -> & Hl & Hp); [lia|].
      cbn [mbind result_bind]. rewrite Hl. cbn [mbind result_bind].
      rewrite Hp. cbn [nodes Nat.add elements]. by rewrite <- !app_assoc.
    + cbn [mbind result_bind].
      rewrite <- (start_of_not_null r next Hr).
      rewrite (IHr _ _ _ _ Hwr). by rewrite <- !app_assoc.
Qed.

Lemma traverse_elements (s : @Set_ ValueType) fuel :
  heap_ok (root s) → first_node s = leftmost_addr (root s) →
  nodes (root s) < fuel →
  traverse fuel s = Ok (elements (root s)).
Proof.
  intros Hh Hfirst Hfuel. unfold traverse, begin, end_.
  replace (first_node s) with (start_of (root s) None).
  2:{ rewrite Hfirst. unfold start_of. by destruct (leftmost_addr (root s)). }
  destruct (Nat.le_exists_sub (nodes (root s)) fuel) as (count & Hc & _); [lia|].
  rewrite Nat.add_comm in Hc. rewrite Hc at 1.
  rewrite (visit_within (root s) _ fuel Hh) with (d := 0);
    [|lia|done|constructor].
  destruct count as [|count]; [lia|]. cbn [visit]. by case_decide.
Qed.

(** *** num_values counts the nodes *)

Lemma nodes_set_parent p q : nodes (set_parent p q) = nodes p.
Proof. by destruct p. Qed.

Lemma balance_case_nodes node n : balance_case node n → nodes n = nodes node.
Proof. destruct 1; cbn [nodes]; rewrite ?nodes_set_parent; lia. Qed.

Lemma rebalance_nodes self l r parent value height n :
  balance_node (update_height (Node self l r parent value height)) = Ok n →
  nodes n = S (nodes l + nodes r).
Proof.
  intros Hb. apply balance_node_Ok, balance_case_nodes in Hb.
  by rewrite Hb, update_height_eq.
Qed.

Lemma insert_value_num p value parent fresh num p' num' :
  insert_value less p value parent fresh num = Ok (p', num') →
  num' + nodes p = num + nodes p'.
Proof.
  revert parent num p' num'.
  induction p as [|self l IHl r IHr node_parent node_value height];
    intros parent num p' num' Hi; cbn [insert_value] in Hi.
  - injection Hi as <- <-. simpl. lia.
  - destruct (equal less node_value value).
    { injection Hi as <- <-. lia. }
    destruct (less value node_value).
    + inv_bind Hi. destruct x as [l' num1]. inv_bind Hi.
      injection Hi as <- <-. apply IHl in E. apply rebalance_nodes in E0.
      cbn [nodes]. lia.
    + inv_bind Hi. destruct x as [r' num1]. inv_bind Hi.
      injection Hi as <- <-. apply IHr in E. apply rebalance_nodes in E0.
      cbn [nodes]. lia.
Qed.

Lemma erase_value_num p value num p' num' :
  erase_value less p value num = Ok (p', num') →
  nodes p ≤ num → num' + nodes p = num + nodes p'.
Proof.
  remember (nodes p) as k eqn:Hk. revert p Hk num p' num'.
  induction k as [k IH] using lt_wf_ind. intros p -> num p' num' He Hnum.
  destruct p as [|self l r parent node_value height];
    simp erase_value in He.
  { injection He as <- <-. lia. }
  assert (∀ q q' num',
            nodes q < nodes (Node self l r parent node_value height) →
            erase_value less q value num = Ok (q', num') →
            num' + nodes q = num + nodes q') as IH'.
  { intros q q' num0' Hq Hq'.
    apply (IH (nodes q) Hq q eq_refl num q' num0' Hq'). lia. }
  cbn [nodes] in *.
  destruct (equal less node_value value).
  - destruct (is_null l && is_null r) eqn:Hnull.
    { injection He as <- <-. destruct l, r; try done. simpl in *. lia. }
    destruct (is_null l || negb (is_null r)
                && bool_decide (height_or_0 l < height_or_0 r)).
    + destruct (leftmost_value r) as [near_value|]; [|done].
      inv_bind He. destruct x as [r' num1]. inv_bind He.
      injection He as <- <-. apply IH' in E.
      * rewrite nodes_set_leftmost_value in E.
        apply rebalance_nodes in E0. lia.
      * rewrite nodes_set_leftmost_value. lia.
    + destruct (rightmost_value l) as [near_value|]; [|done].
      inv_bind He. destruct x as [l' num1]. inv_bind He.
      injection He as <- <-. apply IH' in E.
      * rewrite nodes_set_rightmost_value in E.
        apply rebalance_nodes in E0. lia.
      * rewrite nodes_set_rightmost_value. lia.
  - destruct (less value node_value).
    + inv_bind He. destruct x as [l' num1]. inv_bind He.
      injection He as <- <-. apply IH' in E; [|lia].
      apply rebalance_nodes in E0. lia.
    + inv_bind He. destruct x as [r' num1]. inv_bind He.
      injection He as <- <-. apply IH' in E; [|lia].
      apply rebalance_nodes in E0. lia.
Qed.

(** *** Sequences of insert and erase calls *)

Lemma step_total (s : Set_) o : ∃ s', step less s o = Ok s'.
Proof.
  destruct o as [value|value]; cbn [step]; unfold insert, erase.
  - destruct (insert_value_total (root s) value None (next_addr s)
                (num_values s)) as (p' & num' & ->). by eexists.
  - destruct (erase_value_total (root s) value (num_values s))
      as (p' & num' & ->). by eexists.
Qed.

(** What a call does to the tree. *)
Lemma step_root (s s' : Set_) o :
  step less s o = Ok s' →
  first_node s' = leftmost_addr (root s')
  ∧ match o with
    | op_insert value =>
        inserted value (next_addr s) None (root s) (root s')
        ∧ next_addr s' = S (next_addr s)
        ∧ num_values s' + nodes (root s) = num_values s + nodes (root s')
    | op_erase value =>
        erased value (root s) (root s')
        ∧ next_addr s' = next_addr s
        ∧ (nodes (root s) ≤ num_values s →
           num_values s' + nodes (root s) = num_values s + nodes (root s'))
    end.
Proof.
  destruct o as [value|value]; cbn [step]; unfold insert, erase; intros Hs.
  - inv_bind Hs. destruct x as [p' num']. injection Hs as <-. cbn.
    repeat split; eauto using insert_value_inserted, insert_value_num.
  - inv_bind Hs. destruct x as [p' num']. injection Hs as <-. cbn.
    repeat split; eauto using erase_value_erased, erase_value_num.
Qed.

(** The tree is balanced and its [height] fields are right. *)
Definition avl (s : @Set_ ValueType) : Prop :=
  heights_ok (root s) ∧ balanced (root s).

Lemma step_avl (s s' : Set_) o : avl s → step less s o = Ok s' → avl s'.
Proof.
  intros [Hh Hb] Hs. apply step_root in Hs as [_ Hs].
  destruct o as [value|value]; destruct Hs as (Hs & _).
  - by destruct (inserted_balanced _ _ _ _ _ Hs Hh Hb) as (? & ? & _).
  - by destruct (erased_balanced _ _ _ Hs Hh Hb) as (? & ? & _).
Qed.

Lemma run_total ops (s : Set_) : ∃ s', run less ops s = Ok s'.
Proof.
  revert s. induction ops as [|o ops IH]; intros s; [by eexists|].
  unfold run. cbn [for_each]. destruct (step_total s o) as [s1 ->].
  apply IH.
Qed.

Lemma run_avl ops (s s' : Set_) : avl s → run less ops s = Ok s' → avl s'.
Proof.
  intros Hs Hr. apply (for_each_invariant avl (step less)) with ops s; auto.
  intros s1 o s2 ? ?. eauto using step_avl.
Qed.

(** C2.  After any sequence of [insert] and [erase] calls on an empty set,
    the heights of the two subtrees of every node differ by at most one (a
    missing child has height 0), and the [height] field of every node is one
    more than the greater of the heights of its two subtrees. *)
Theorem tree_balanced_after_calls (ops : list (@op ValueType)) :
  ∃ s, run less ops Set_new = Ok s
       ∧ balanced (root s) ∧ heights_ok (root s).
Proof.
  destruct (run_total ops Set_new) as [s Hs]. exists s. split; [done|].
  apply run_avl in Hs as [? ?]; [done|]. by split.
Qed.

(** *** Links and counters after any calls *)

Lemma elements_length p : length (elements p) = nodes p.
Proof.
  induction p as [|self l IHl r IHr parent v h]; [done|].
  cbn [elements nodes]. rewrite length_app. cbn [length]. lia.
Qed.

Lemma addrs_length p : length (addrs p) = nodes p.
Proof.
  induction p as [|self l IHl r IHr parent v h]; [done|].
  cbn [addrs nodes]. rewrite length_app. cbn [length]. lia.
Qed.

(** The parent links are right, no two nodes share an address, the
    addresses in use are below the allocation counter, [first_node] is the
    leftmost node and [num_values] the number of nodes. *)
Definition shape_ok (s : @Set_ ValueType) : Prop :=
  heap_ok (root s)
  ∧ (∀ a, a ∈ addrs (root s) → a < next_addr s)
  ∧ first_node s = leftmost_addr (root s)
  ∧ num_values s = nodes (root s).

Lemma shape_ok_new : shape_ok Set_new.
Proof.
  unfold shape_ok, heap_ok. cbn.
  repeat split; try constructor. intros a Ha. by apply elem_of_nil in Ha.
Qed.

Lemma step_shape_ok (s s' : Set_) o :
  shape_ok s → step less s o = Ok s' → shape_ok s'.
Proof.
  intros ([Hp Hnd] & Hlt & Hfirst & Hnum) Hs.
  apply step_root in Hs as [Hfirst' Hs].
  destruct o as [value|value]; destruct Hs as (Hs & Hnext & Hnum').
  - destruct (inserted_addrs _ _ _ _ _ Hs Hp Hnd) as (Hp' & Hnd' & Sub).
    { intros Ha%Hlt. lia. }
    split; [by split|]. split; [|split; [done|lia]].
    intros a [->|Ha%Hlt]%Sub; lia.
  - destruct (erased_addrs _ _ _ _ Hs Hp Hnd) as (Hp' & Hnd' & Sub).
    split; [by split|]. split; [|split; [done|]].
    + intros a Ha%Sub%Hlt. lia.
    + specialize (Hnum' ltac:(lia)). lia.
Qed.

Lemma run_shape_ok ops (s s' : Set_) :
  shape_ok s → run less ops s = Ok s' → shape_ok s'.
Proof.
  intros Hs Hr.
  apply (for_each_invariant shape_ok (step less)) with ops s; auto.
  intros s1 o s2 ? ?. eauto using step_shape_ok.
Qed.

(** *** Iterators by their place in the order *)

(** The iterator on the [i]-th node in order, counted from 0; the iterator
    [end()] when the tree has no such node. *)
Definition position heap (i : nat) : SetIterator :=
  {| node := addrs heap !! i; it_root := addr_of heap |}.

(** [placed heap d n pre post]: the subtree [n] hangs [d] links below the
    root of [heap]; in order, the nodes [pre] come before its nodes and the
    nodes [post] after them. *)
Inductive placed (heap : Node_ptr)
  : nat → Node_ptr → list addr → list addr → Prop :=
  | placed_root : placed heap 0 heap [] []
  | placed_left d self l r parent value height pre post :
      placed heap d (Node self l r parent value height) pre post →
      placed heap (S d) l pre (self :: addrs r ++ post)
  | placed_right d self l r parent value height pre post :
      placed heap d (Node self l r parent value height) pre post →
      placed heap (S d) r (pre ++ addrs l ++ [self]) post.

Lemma placed_addrs heap d n pre post :
  placed heap d n pre post → addrs heap = pre ++ addrs n ++ post.
Proof.
  induction 1 as [|d self l r parent value height pre post Hp IH
                  |d self l r parent value height pre post Hp IH].
  - by rewrite app_nil_r.
  - rewrite IH. cbn [addrs]. by rewrite <- !app_assoc.
  - rewrite IH. cbn [addrs]. by rewrite <- !app_assoc.
Qed.

Lemma placed_within heap d n pre post :
  placed heap d n pre post → within heap d n (head post).
Proof.
  induction 1 as [|d self l r parent value height pre post Hp IH
                  |d self l r parent value height pre post Hp IH].
  - constructor.
  - by eapply within_left.
  - by eapply within_right.
Qed.

Lemma leftmost_addr_head p : leftmost_addr p = head (addrs p).
Proof.
  induction p as [|self l IHl r IHr parent v h]; [done|].
  destruct l as [|l_self ll lr l_parent l_value l_height]; [done|].
  change (leftmost_addr (Node self (Node l_self ll lr l_parent l_value l_height)
                               r parent v h))
    with (leftmost_addr (Node l_self ll lr l_parent l_value l_height)).
  rewrite IHl. cbn [addrs].
  by destruct (addrs ll ++ l_self :: addrs lr) eqn:E;
    [destruct (addrs ll); discriminate|].
Qed.

Lemma rightmost_addr_last p : rightmost_addr p = last (addrs p).
Proof.
  induction p as [|self l IHl r IHr parent v h]; [done|].
  destruct r as [|r_self rl rr r_parent r_value r_height].
  - cbn [rightmost_addr addrs]. by rewrite last_snoc.
  - change (rightmost_addr (Node self l (Node r_self rl rr r_parent r_value
                                               r_height) parent v h))
      with (rightmost_addr (Node r_self rl rr r_parent r_value r_height)).
    rewrite IHr.
    change (addrs (Node self l (Node r_self rl rr r_parent r_value r_height)
                        parent v h))
      with (addrs l ++ self
            :: addrs (Node r_self rl rr r_parent r_value r_height)).
    rewrite last_app, last_cons.
    destruct (last (addrs (Node r_self rl rr r_parent r_value r_height)))
      eqn:E; [done|].
    apply last_None in E. cbn [addrs] in E. by destruct (addrs rl).
Qed.

(** Every node has its place. *)
Lemma placed_lookup heap n :
  ∀ d pre post (j : nat) a,
    placed heap d n pre post → addrs n !! j = Some a →
    ∃ d' self l r parent value height pre' post',
      placed heap d' (Node self l r parent value height) pre' post'
      ∧ self = a ∧ length pre' + nodes l = length pre + j.
Proof.
  induction n as [|self l IHl r IHr parent value height];
    intros d pre post j a Hp Hj; [done|].
  cbn [addrs] in Hj.
  destruct (decide (j < nodes l)) as [Hl|Hl].
  - rewrite lookup_app_l in Hj by (by rewrite addrs_length).
    apply (IHl (S d) pre (self :: addrs r ++ post) j a); [|done].
    by eapply placed_left.
  - rewrite lookup_app_r in Hj by (rewrite addrs_length; lia).
    rewrite addrs_length in Hj.
    destruct (j - nodes l) as [|k] eqn:Hk.
    + injection Hj as <-. exists d, self, l, r, parent, value, height, pre, post.
      split; [done|]. split; [done|lia].
    + cbn in Hj.
      destruct (IHr (S d) (pre ++ addrs l ++ [self]) post k a)
        as (d' & s' & l' & r' & p' & v' & h' & pre' & post' & Hp' & <- & Hlen);
        [by eapply placed_right|done|].
      exists d', s', l', r', p', v', h', pre', post'.
      split; [done|]. split; [done|].
      rewrite !length_app, addrs_length in Hlen. cbn in Hlen. lia.
Qed.

Lemma load_placed heap d n pre post a :
  heap_ok heap → placed heap d n pre post → addr_of n = Some a →
  load heap (Some a) = Ok n.
Proof. intros Hh Hp%placed_within Ha. by eapply load_within. Qed.

Lemma placed_depth heap d n pre post :
  heap_ok heap → placed heap d n pre post → d + nodes n ≤ nodes heap.
Proof.
  intros Hh Hp%placed_within.
  by destruct (within_facts _ _ _ _ Hh Hp) as (_ & _ & ? & _).
Qed.

(** [operator++] from a node: to the first node of its right subtree, or to
    the node that follows the subtree it ends. *)
Lemma increment_placed heap d self l r parent value height pre post fuel :
  heap_ok heap →
  placed heap d (Node self l r parent value height) pre post → d < fuel →
  increment fuel heap {| node := Some self; it_root := addr_of heap |}
  = Ok {| node := head (addrs r ++ post); it_root := addr_of heap |}.
Proof.
  intros Hh Hp Hfuel. unfold increment. cbn [node it_root].
  rewrite (load_placed _ _ _ _ _ self Hh Hp eq_refl).
  cbn [mbind result_bind right_of].
  destruct (is_null r) eqn:Hr; cbn [negb].
  - apply is_null_true in Hr. subst r.
    destruct (climb_within _ _ _ _ Hh (placed_within _ _ _ _ _ Hp)
                self fuel eq_refl Hfuel) as (nd & n' & -> & Hl & Hn).
    cbn [mbind result_bind]. rewrite Hl. cbn [mbind result_bind].
    by rewrite Hn.
  - rewrite leftmost_addr_head. do 2 f_equal.
    destruct r; [done|]. cbn [addrs]. by destruct (addrs r1).
Qed.

(** The [else] branch of [operator--]: the climb stops below the first node
    that is reached from its right child, and the parent step lands on it;
    from the first node of the tree the climb passes the root and reads the
    [left] field of a null pointer. *)
Lemma climb_left_placed heap d n pre post :
  heap_ok heap → placed heap d n pre post →
  ∀ a fuel, addr_of n = Some a → d < fuel →
    match last pre with
    | Some b =>
        ∃ nd n', climb_left fuel heap (Some a) = Ok nd
                 ∧ load heap nd = Ok n' ∧ parent_of n' = Some b
    | None => climb_left fuel heap (Some a) = Undefined
    end.
Proof.
  intros Hh.
  induction 1 as [|d self l r parent value height pre post Hp IH
                  |d self l r parent value height pre post Hp IH];
    intros a fuel Ha Hfuel; (destruct fuel as [|fuel]; [lia|]).
  - cbn [last climb_left].
    rewrite (load_placed heap 0 heap [] [] a Hh (placed_root heap) Ha).
    cbn [mbind result_bind]. destruct Hh as [Hpar _].
    by rewrite (parents_ok_parent_of heap None a Hpar Ha).
  - pose proof (placed_left _ _ _ _ _ _ _ _ _ _ Hp) as Hpl.
    destruct (within_facts _ _ _ _ Hh (placed_within _ _ _ _ _ Hp))
      as (_ & [up Pn] & _ & _ & _).
    cbn [parents_ok] in Pn. destruct Pn as (-> & Pl & Pr).
    assert (climb_left (S fuel) heap (Some a)
            = climb_left fuel heap (Some self)) as ->.
    { cbn [climb_left]. rewrite (load_placed _ _ _ _ _ a Hh Hpl Ha).
      cbn [mbind result_bind].
      rewrite (parents_ok_parent_of l (Some self) a Pl Ha).
      rewrite (load_placed _ _ _ _ _ self Hh Hp eq_refl).
      cbn [mbind result_bind left_of]. by rewrite decide_True. }
    apply (IH self fuel eq_refl). lia.
  - pose proof (placed_right _ _ _ _ _ _ _ _ _ _ Hp) as Hpr.
    destruct (within_facts _ _ _ _ Hh (placed_within _ _ _ _ _ Hp))
      as (Nn & [up Pn] & _ & _ & _).
    cbn [addrs parents_ok] in *.
    apply NoDup_node in Nn as (Nl & Nr & Sl & Sr & Dlr).
    destruct Pn as (-> & Pl & Pr).
    pose proof (addr_of_elem_of r a Ha) as Har.
    rewrite !app_assoc, last_snoc.
    exists (Some a), r. split; [|split].
    + cbn [climb_left]. rewrite (load_placed _ _ _ _ _ a Hh Hpr Ha).
      cbn [mbind result_bind].
      rewrite (parents_ok_parent_of r (Some self) a Pr Ha).
      rewrite (load_placed _ _ _ _ _ self Hh Hp eq_refl).
      cbn [mbind result_bind left_of]. case_decide as Hl; [|done].
      exfalso. apply (Dlr a); [|done]. by apply addr_of_elem_of.
    + by apply (load_placed _ _ _ _ _ a Hh Hpr Ha).
    + by apply (parents_ok_parent_of r (Some self) a Pr Ha).
Qed.

(** [operator--] from a node: to the last node of its left subtree, or to
    the node that precedes the subtree it starts; from the first node of the
    tree it is undefined. *)
Lemma decrement_placed heap d self l r parent value height pre post fuel :
  heap_ok heap →
  placed heap d (Node self l r parent value height) pre post → d < fuel →
  decrement fuel heap {| node := Some self; it_root := addr_of heap |}
  = match last (pre ++ addrs l) with
    | Some b => Ok {| node := Some b; it_root := addr_of heap |}
    | None => Undefined
    end.
Proof.
  intros Hh Hp Hfuel. unfold decrement. cbn [node it_root].
  rewrite (load_placed _ _ _ _ _ self Hh Hp eq_refl).
  cbn [mbind result_bind left_of].
  destruct (is_null l) eqn:Hl; cbn [negb].
  - apply is_null_true in Hl. subst l. cbn [addrs]. rewrite app_nil_r.
    pose proof (climb_left_placed _ _ _ _ _ Hh Hp self fuel eq_refl Hfuel)
      as Hc.
    destruct (last pre) as [b|].
    + destruct Hc as (nd & n' & -> & Hld & Hn).
      cbn [mbind result_bind]. rewrite Hld. cbn [mbind result_bind].
      by rewrite Hn.
    + by rewrite Hc.
  - rewrite rightmost_addr_last, last_app.
    destruct (last (addrs l)) as [b|] eqn:E; [done|].
    apply last_None in E. destruct l; [done|]. cbn [addrs] in E.
    by destruct (addrs l1).
Qed.

Lemma nodes_0 p : nodes p = 0 → p = nullptr.
Proof. by destruct p. Qed.

Lemma position_end heap (i : nat) :
  nodes heap ≤ i → position heap i = {| node := None; it_root := addr_of heap |}.
Proof.
  intros Hi. unfold position. f_equal. apply lookup_ge_None.
  by rewrite addrs_length.
Qed.

Lemma increment_position heap (i : nat) fuel :
  heap_ok heap → i < nodes heap → nodes heap ≤ fuel →
  increment fuel heap (position heap i) = Ok (position heap (S i)).
Proof.
  intros Hh Hi Hfuel. unfold position.
  destruct (lookup_lt_is_Some_2 (addrs heap) i) as [a Ha];
    [by rewrite addrs_length|].
  destruct (placed_lookup heap heap 0 [] [] i a (placed_root heap) Ha)
    as (d & self & l & r & parent & value & height & pre & post
        & Hp & -> & Hlen).
  pose proof (placed_depth _ _ _ _ _ Hh Hp) as Hd. cbn [nodes] in Hd.
  rewrite Ha, (increment_placed _ _ _ _ _ _ _ _ _ _ fuel Hh Hp) by lia.
  do 2 f_equal. rewrite (placed_addrs _ _ _ _ _ Hp). cbn [addrs length] in *.
  rewrite lookup_app_r by lia. rewrite <- app_assoc.
  rewrite lookup_app_r by (rewrite addrs_length; lia).
  rewrite addrs_length.
  replace (S i - length pre - nodes l) with 1 by lia.
  cbn. by rewrite head_lookup.
Qed.

Lemma decrement_position heap (i : nat) fuel :
  heap_ok heap → i < nodes heap → nodes heap ≤ fuel →
  decrement fuel heap (position heap (S i)) = Ok (position heap i).
Proof.
  intros Hh Hi Hfuel.
  destruct (decide (S i < nodes heap)) as [Hlt|Hge].
  - unfold position.
    destruct (lookup_lt_is_Some_2 (addrs heap) (S i)) as [a Ha];
      [by rewrite addrs_length|].
    destruct (placed_lookup heap heap 0 [] [] (S i) a (placed_root heap) Ha)
      as (d & self & l & r & parent & value & height & pre & post
          & Hp & -> & Hlen).
    pose proof (placed_depth _ _ _ _ _ Hh Hp) as Hd. cbn [nodes] in Hd.
    rewrite Ha, (decrement_placed _ _ _ _ _ _ _ _ _ _ fuel Hh Hp) by lia.
    rewrite (placed_addrs _ _ _ _ _ Hp). cbn [addrs length] in *.
    replace (pre ++ (addrs l ++ a :: addrs r) ++ post)
      with ((pre ++ addrs l) ++ a :: addrs r ++ post)
      by (by rewrite <- !app_assoc).
    rewrite lookup_app_l by (rewrite length_app, addrs_length; lia).
    rewrite last_lookup, length_app, addrs_length.
    replace (Init.Nat.pred (length pre + nodes l)) with i by lia.
    destruct ((pre ++ addrs l) !! i) as [b|] eqn:E; [done|].
    apply lookup_ge_None in E. rewrite length_app, addrs_length in E. lia.
  - rewrite position_end by lia. unfold decrement, position. cbn [node it_root].
    destruct heap as [|self l r parent value height]; [cbn in Hi; lia|].
    cbn [addr_of load]. rewrite find_node_self. cbn [mbind result_bind].
    rewrite rightmost_addr_last, last_lookup, addrs_length.
    do 3 f_equal. lia.
Qed.

(** [--begin()] reads through a null pointer; on an empty set, where
    [begin()] is [end()], it reads the null root. *)
Lemma decrement_first heap fuel :
  heap_ok heap → nodes heap ≤ fuel →
  decrement fuel heap (position heap 0) = Undefined.
Proof.
  intros Hh Hfuel. unfold position.
  destruct (addrs heap !! 0) as [a|] eqn:Ha.
  - destruct (placed_lookup heap heap 0 [] [] 0 a (placed_root heap) Ha)
      as (d & self & l & r & parent & value & height & pre & post
          & Hp & -> & Hlen).
    pose proof (placed_depth _ _ _ _ _ Hh Hp) as Hd. cbn [nodes] in Hd.
    rewrite (decrement_placed _ _ _ _ _ _ _ _ _ _ fuel Hh Hp) by lia.
    cbn [length] in Hlen.
    assert (pre = []) as -> by (destruct pre; [done|cbn in Hlen; lia]).
    by rewrite (nodes_0 l) by (cbn in Hlen; lia).
  - apply lookup_ge_None in Ha. rewrite addrs_length in Ha.
    rewrite (nodes_0 heap) by lia. done.
Qed.

(** [operator*] on the [i]-th node reads the [i]-th value in order; on
    [end()] it reads through a null pointer. *)
Lemma find_node_lookup heap :
  NoDup (addrs heap) →
  ∀ (i : nat) a, addrs heap !! i = Some a →
    ∃ self l r parent value height,
      find_node heap a = Some (Node self l r parent value height)
      ∧ elements heap !! i = Some value.
Proof.
  induction heap as [|self l IHl r IHr parent value height];
    intros Hnd i a Ha; [done|].
  cbn [addrs elements] in *.
  apply NoDup_node in Hnd as (Nl & Nr & Sl & Sr & Dlr).
  destruct (decide (i < nodes l)) as [Hl|Hl].
  - rewrite lookup_app_l in Ha by (by rewrite addrs_length).
    rewrite lookup_app_l by (by rewrite elements_length).
    destruct (IHl Nl i a Ha) as (s' & l' & r' & p' & v' & h' & Hf & Hv).
    exists s', l', r', p', v', h'. split; [|done].
    cbn [find_node]. rewrite decide_False.
    + by rewrite Hf.
    + intros ->. by apply Sl, (list_elem_of_lookup_2 _ i).
  - rewrite lookup_app_r in Ha by (rewrite addrs_length; lia).
    rewrite lookup_app_r by (rewrite elements_length; lia).
    rewrite addrs_length in Ha. rewrite elements_length.
    destruct (i - nodes l) as [|k] eqn:Hk.
    + injection Ha as <-. exists self, l, r, parent, value, height.
      split; [apply find_node_self|done].
    + cbn in Ha |- *.
      destruct (IHr Nr k a Ha) as (s' & l' & r' & p' & v' & h' & Hf & Hv).
      exists s', l', r', p', v', h'. split; [|done].
      pose proof (list_elem_of_lookup_2 _ _ _ Ha) as Hin.
      cbn [find_node]. rewrite decide_False by (by intros ->).
      rewrite (find_node_None l a); [done|].
      intros Hl'. by apply (Dlr a).
Qed.

Lemma dereference_position heap (i : nat) :
  heap_ok heap →
  dereference heap (position heap i)
  = match elements heap !! i with
    | Some value => Ok value
    | None => Undefined
    end.
Proof.
  intros [_ Hnd]. unfold dereference, position, load. cbn [node].
  destruct (addrs heap !! i) as [a|] eqn:Ha.
  - destruct (find_node_lookup heap Hnd i a Ha)
      as (self & l & r & parent & value & height & -> & ->). done.
  - apply lookup_ge_None in Ha. rewrite addrs_length in Ha.
    rewrite (proj2 (lookup_ge_None (elements heap) i)); [done|].
    by rewrite elements_length.
Qed.

Lemma begin_position (s : @Set_ ValueType) :
  shape_ok s → begin s = position (root s) 0.
Proof.
  intros (_ & _ & Hfirst & _). unfold begin, position.
  by rewrite Hfirst, leftmost_addr_head, head_lookup.
Qed.

Lemma end_position (s : @Set_ ValueType) :
  shape_ok s → end_ s = position (root s) (size s).
Proof.
  intros (_ & _ & _ & Hnum). unfold size. rewrite position_end by lia. done.
Qed.

(** X1.  After any sequence of [insert] and [erase]
    calls on an empty set, [size()] is the number of values a loop from
    [begin()] to [end()] visits, and [empty()] holds exactly when the loop
    visits none. *)
Theorem size_counts_values (ops : list (@op ValueType)) :
  ∃ s, run less ops Set_new = Ok s
       ∧ ∀ fuel, size s < fuel →
           ∃ out, traverse fuel s = Ok out
                  ∧ length out = size s
                  ∧ (empty s = true ↔ out = []).
Proof.
  destruct (run_total ops Set_new) as [s Hs]. exists s. split; [done|].
  pose proof (run_shape_ok _ _ _ shape_ok_new Hs) as (Hh & _ & Hfirst & Hnum).
  intros fuel Hfuel. unfold size in *. exists (elements (root s)).
  split; [apply traverse_elements; [done|done|lia]|].
  split; [by rewrite elements_length|].
  unfold empty. rewrite bool_decide_eq_true, Hnum, <- elements_length.
  split; [apply nil_length_inv|by intros ->].
Qed.

(** X2.  After any sequence of [insert] and
    [erase] calls on an empty set, the [parent] field of every node holds the
    address of the node whose child it is, that of the root is null, and no
    two nodes have the same address. *)
Theorem parent_links_after_calls (ops : list (@op ValueType)) :
  ∃ s, run less ops Set_new = Ok s
       ∧ parents_ok (root s) None ∧ NoDup (addrs (root s)).
Proof.
  destruct (run_total ops Set_new) as [s Hs]. exists s. split; [done|].
  by pose proof (run_shape_ok _ _ _ shape_ok_new Hs) as ([? ?] & _).
Qed.

(** X3.  After any sequence of [insert] and [erase]
    calls on an empty set, a root whose [height] field is [2 k] or more
    stands over at least [2^k - 1] values: the height is at most
    [2 log2 (size() + 1) + 1]. *)
Theorem height_logarithmic (ops : list (@op ValueType)) :
  ∃ s, run less ops Set_new = Ok s
       ∧ ∀ k : nat, 2 * k ≤ height_or_0 (root s) →
           (2 ^ Z.of_nat k ≤ Z.of_nat (size s) + 1)%Z.
Proof.
  destruct (run_total ops Set_new) as [s Hs]. exists s. split; [done|].
  pose proof (run_shape_ok _ _ _ shape_ok_new Hs) as (_ & _ & _ & Hnum).
  assert (avl Set_new) as Hnew by (by split).
  pose proof (run_avl _ _ _ Hnew Hs) as [Hh Hb].
  intros k Hk. unfold size. rewrite Hnum.
  apply balanced_nodes; [done|]. by rewrite <- height_or_0_depth.
Qed.

(** X4.  After any sequence of [insert] and
    [erase] calls on an empty set with [size()] values, [begin()] is the
    iterator on the first node in order and [end()] the one past the last;
    [++] moves the iterator on the [i]-th node to the next node, to [end()]
    from the last one, and [--] moves it back. *)
Theorem increment_decrement_round_trip (ops : list (@op ValueType)) :
  ∃ s, run less ops Set_new = Ok s
       ∧ begin s = position (root s) 0
       ∧ end_ s = position (root s) (size s)
       ∧ ∀ (i : nat) fuel, i < size s → size s ≤ fuel →
           increment fuel (root s) (position (root s) i)
           = Ok (position (root s) (S i))
           ∧ decrement fuel (root s) (position (root s) (S i))
             = Ok (position (root s) i).
Proof.
  destruct (run_total ops Set_new) as [s Hs]. exists s. split; [done|].
  pose proof (run_shape_ok _ _ _ shape_ok_new Hs) as Hshape.
  split; [by apply begin_position|]. split; [by apply end_position|].
  destruct Hshape as (Hh & _ & _ & Hnum). unfold size. rewrite Hnum.
  intros i fuel Hi Hfuel.
  split; [by apply increment_position|by apply decrement_position].
Qed.

(** X5.  After any sequence of [insert] and
    [erase] calls on an empty set, [--] on [begin()] has undefined
    behaviour: its climb reads a field through the null parent of the root,
    or, on an empty set, through the null root. *)
Theorem decrement_begin_undefined (ops : list (@op ValueType)) :
  ∃ s, run less ops Set_new = Ok s
       ∧ ∀ fuel, size s ≤ fuel → decrement fuel (root s) (begin s) = Undefined.
Proof.
  destruct (run_total ops Set_new) as [s Hs]. exists s. split; [done|].
  pose proof (run_shape_ok _ _ _ shape_ok_new Hs) as Hshape.
  rewrite (begin_position s Hshape).
  destruct Hshape as (Hh & _ & _ & Hnum). unfold size. rewrite Hnum.
  intros fuel Hfuel. by apply decrement_first.
Qed.

(** X6.  After any sequence of [insert] and [erase]
    calls on an empty set, [*] on the iterator on the [i]-th node reads the
    [i]-th value that the loop from [begin()] to [end()] visits, and [*] on
    [end()] has undefined behaviour (it reads through a null pointer). *)
Theorem dereference_in_order (ops : list (@op ValueType)) :
  ∃ s, run less ops Set_new = Ok s
       ∧ dereference (root s) (end_ s) = Undefined
       ∧ ∀ fuel, size s < fuel →
           ∃ out, traverse fuel s = Ok out
                  ∧ ∀ (i : nat) value, out !! i = Some value →
                      dereference (root s) (position (root s) i) = Ok value.
Proof.
  destruct (run_total ops Set_new) as [s Hs]. exists s. split; [done|].
  pose proof (run_shape_ok _ _ _ shape_ok_new Hs) as (Hh & _ & Hfirst & Hnum).
  split; [done|]. intros fuel Hfuel. unfold size in *.
  exists (elements (root s)).
  split; [apply traverse_elements; [done|done|lia]|].
  intros i value Hi. by rewrite dereference_position, Hi.
Qed.

(** X27.  [update_height] followed by
    [balance_node], on a node whose two subtrees are balanced, have right
    [height] and [parent] fields and differ in height by at most two, never
    reads through a null pointer and returns a subtree that is balanced at
    every node, with right [height] fields and right [parent] fields below
    its root, the [parent] field of its root being that of the node; the
    rotations keep the values and the nodes in their order, and the subtree
    is as high as the higher of the two subtrees or one higher. *)
Theorem balance_node_restores_balance self l r parent value height :
  heights_ok l → heights_ok r → balanced l → balanced r →
  depth l ≤ depth r + 2 → depth r ≤ depth l + 2 →
  parents_ok l (Some self) → parents_ok r (Some self) →
  ∃ n, balance_node (update_height (Node self l r parent value height)) = Ok n
       ∧ heights_ok n ∧ balanced n
       ∧ Nat.max (depth l) (depth r) ≤ depth n
       ∧ depth n ≤ S (Nat.max (depth l) (depth r))
       ∧ elements n = elements l ++ value :: elements r
       ∧ addrs n = addrs l ++ self :: addrs r
       ∧ parents_ok n parent.
Proof.
  intros Hl Hr Bl Br Hlr Hrl Pl Pr.
  destruct (balance_node_total
              (update_height (Node self l r parent value height)))
    as [n Hn]; [done|].
  exists n. split; [done|].
  destruct (balance_node_balanced _ _ _ _ _ _ _ Hl Hr Bl Br Hlr Hrl Hn)
    as (Hh & Hb & Hlo & Hhi & _).
  repeat (split; [done|]).
  split; [by apply (rebalance_elements _ _ _ _ _ _ _ Hn)|].
  split; [by apply (rebalance_addrs _ _ _ _ _ _ _ Hn)|].
  by apply (rebalance_parents_ok _ _ _ _ _ _ _ _ Hn).
Qed.

Section order.
(** [operator<] is a strict total order on [ValueType]. *)
Hypothesis less_irreflexive : ∀ x, less x x = false.
Hypothesis less_transitive :
  ∀ x y z, less x y = true → less y z = true → less x z = true.
Hypothesis less_total : ∀ x y, less x y = false → less y x = false → x = y.

Lemma lt_value_ne x y : lt_value x y → x ≠ y.
Proof. unfold lt_value. intros Hlt ->. by rewrite less_irreflexive in Hlt. Qed.

Lemma lt_value_ne' x y : lt_value x y → y ≠ x.
Proof. intros Hlt E. by apply (lt_value_ne x y). Qed.

Lemma lt_value_trans x y z : lt_value x y → lt_value y z → lt_value x z.
Proof. apply less_transitive. Qed.

Lemma equal_true x y : equal less x y = true → x = y.
Proof.
  unfold equal. intros [H1 H2]%andb_true_iff.
  apply negb_true_iff in H1, H2. by apply less_total.
Qed.

Lemma equal_false_gt x y :
  equal less x y = false → less y x = false → lt_value x y.
Proof.
  unfold equal, lt_value. intros Heq Hlt. rewrite Hlt in Heq. simpl in Heq.
  by destruct (less x y).
Qed.

Lemma sorted_no_dup (l : list ValueType) :
  StronglySorted lt_value l → NoDup l.
Proof.
  induction 1 as [|x l Hs IH Hx]; constructor; [|done].
  intros Hin. rewrite Forall_forall in Hx.
  exact (lt_value_ne x x (Hx x Hin) eq_refl).
Qed.

Lemma inserted_elements value fresh parent p p' :
  inserted value fresh parent p p' →
  ordered p →
  ordered p' ∧ ∀ x, x ∈ elements p' ↔ x = value ∨ x ∈ elements p.
Proof.
  unfold ordered.
  induction 1 as [parent|parent self l r node_parent node_value height Heq
    |parent self l r node_parent node_value height l' n Heq Hlt Hi IH Hb
    |parent self l r node_parent node_value height r' n Heq Hlt Hi IH Hb].
  - intros _. cbn [elements app]. split.
    + repeat constructor.
    + intros x. rewrite elem_of_cons, elem_of_nil. tauto.
  - intros Ho. apply equal_true in Heq as ->. split; [done|].
    cbn [elements]. intros x. rewrite !elem_of_app, !elem_of_cons. tauto.
  - apply rebalance_elements in Hb as ->. cbn [elements].
    rewrite !sorted_node. intros (Hl & Hr & Hlv & Hvr & Hlr).
    destruct (IH Hl) as [Hl' Hin]. split.
    + repeat split; [done|done| |done|].
      * intros a [->|Ha]%Hin; [done|auto].
      * intros a b [->|Ha]%Hin Hb; [|auto].
        eapply lt_value_trans; [exact Hlt|auto].
    + intros x. rewrite !elem_of_app, !elem_of_cons, Hin. tauto.
  - apply rebalance_elements in Hb as ->. cbn [elements].
    rewrite !sorted_node. intros (Hl & Hr & Hlv & Hvr & Hlr).
    destruct (IH Hr) as [Hr' Hin].
    assert (lt_value node_value value) as Hgt by by apply equal_false_gt.
    split.
    + repeat split; [done|done|done| |].
      * intros b [->|Hb]%Hin; [done|auto].
      * intros a b Ha [->|Hb]%Hin; [|auto].
        eapply lt_value_trans; [|exact Hgt]. auto.
    + intros x. rewrite !elem_of_app, !elem_of_cons, Hin. tauto.
Qed.

(** Closes a goal [∀ x, x ∈ l1 ↔ x ∈ l2 ∧ x ≠ value] between lists built
    with [++] and [::], from hypotheses of the same shape. *)
Ltac membership :=
  let x := fresh "x" in
  intros x;
  repeat match goal with
  | H : ∀ y, y ∈ _ ↔ _ |- _ => specialize (H x)
  | H : ∀ y, y ∈ _ → _ ≠ _ |- _ => specialize (H x)
  end;
  rewrite ?elem_of_app, ?elem_of_cons, ?elem_of_nil in *;
  intuition (subst; try tauto; try congruence).

Lemma erased_elements value p p' :
  erased value p p' →
  ordered p →
  ordered p' ∧ ∀ x, x ∈ elements p' ↔ x ∈ elements p ∧ x ≠ value.
Proof.
  unfold ordered.
  induction 1 as [|self parent node_value height Heq
    |self l r parent node_value height near_value r' n Heq Hr Hside Hnear He IH Hb
    |self l r parent node_value height near_value l' n Heq Hl Hside Hnear He IH Hb
    |self l r parent node_value height l' n Heq Hlt He IH Hb
    |self l r parent node_value height r' n Heq Hlt He IH Hb].
  - intros Ho. split; [done|]. cbn [elements]. membership.
  - intros _. apply equal_true in Heq as ->. split; [constructor|].
    cbn [elements app]. membership.
  - (* the value is swapped with the least value of the right subtree *)
    apply equal_true in Heq as ->.
    apply rebalance_elements in Hb as ->.
    destruct (leftmost_value_elements r near_value value Hnear)
      as (rest & E1 & E2).
    cbn [elements]. rewrite E1, E2 in *. rewrite !sorted_node.
    intros (Hl & Hrs & Hlv & Hvr & Hlr).
    apply StronglySorted_cons in Hrs as [Hnr Hrest].
    rewrite Forall_forall in Hnr.
    destruct IH as [Hr' Hin].
    { apply StronglySorted_cons. split; [|done].
      apply Forall_forall. intros b Hb. apply Hvr. by right. }
    assert (lt_value value near_value) as Hvn by (apply Hvr; by left).
    assert (∀ b, b ∈ elements r' → b ∈ rest) as Hsub.
    { intros b [[->|Hb]%elem_of_cons Hne]%Hin; done. }
    split.
    + repeat split; [done|done| | |].
      * intros a Ha. eapply lt_value_trans; [by apply Hlv|done].
      * intros b Hb. by apply Hnr, Hsub.
      * intros a b Ha Hb. apply Hlr; [done|]. right. by apply Hsub.
    + assert (∀ a, a ∈ elements l → a ≠ value) as Hne1.
      { intros a Ha. by apply lt_value_ne, Hlv. }
      assert (near_value ≠ value) as Hne2 by by apply lt_value_ne'.
      clear Hsub Hlv Hvr Hlr Hnr. membership.
  - (* the value is swapped with the greatest value of the left subtree *)
    apply equal_true in Heq as ->.
    apply rebalance_elements in Hb as ->.
    destruct (rightmost_value_elements l near_value value Hnear)
      as (init & E1 & E2).
    cbn [elements]. rewrite E1, E2 in *. rewrite !sorted_node.
    intros (Hls & Hrs & Hlv & Hvr & Hlr).
    destruct Hls as (Hinit & _ & Hin_n & _ & _).
    destruct IH as [Hl' Hin].
    { apply sorted_node. repeat split; [done|constructor| | |].
      - intros a Ha. apply Hlv. apply elem_of_app. by left.
      - intros b Hb. by apply elem_of_nil in Hb.
      - intros a b _ Hb. by apply elem_of_nil in Hb. }
    assert (lt_value near_value value) as Hnv.
    { apply Hlv. apply elem_of_app. right. by left. }
    assert (∀ a, a ∈ elements l' → a ∈ init) as Hsub.
    { intros a [[Ha|Ha]%elem_of_app Hne]%Hin; [done|].
      by apply list_elem_of_singleton in Ha. }
    split.
    + repeat split; [done|done| | |].
      * intros a Ha. by apply Hin_n, Hsub.
      * intros b Hb. eapply lt_value_trans; [done|by apply Hvr].
      * intros a b Ha Hb. apply Hlr; [|done].
        apply elem_of_app. left. by apply Hsub.
    + assert (∀ b, b ∈ elements r → b ≠ value) as Hne1.
      { intros b Hb. by apply lt_value_ne', Hvr. }
      assert (near_value ≠ value) as Hne2 by by apply lt_value_ne.
      clear Hsub Hlv Hvr Hlr Hin_n. membership.
  - (* the value is smaller than the node's *)
    apply rebalance_elements in Hb as ->. cbn [elements].
    rewrite !sorted_node. intros (Hl & Hr & Hlv & Hvr & Hlr).
    destruct (IH Hl) as [Hl' Hin]. split.
    + repeat split; [done|done| |done|].
      * intros a [Ha _]%Hin. auto.
      * intros a b [Ha _]%Hin Hb. auto.
    + assert (∀ b, b ∈ elements r → b ≠ value) as Hne1.
      { intros b Hb. apply lt_value_ne'.
        eapply lt_value_trans; [exact Hlt|by apply Hvr]. }
      assert (node_value ≠ value) as Hne2 by by apply lt_value_ne'.
      clear Hlv Hvr Hlr. membership.
  - (* the value is greater than the node's *)
    apply rebalance_elements in Hb as ->. cbn [elements].
    rewrite !sorted_node. intros (Hl & Hr & Hlv & Hvr & Hlr).
    destruct (IH Hr) as [Hr' Hin].
    assert (lt_value node_value value) as Hgt by by apply equal_false_gt.
    split.
    + repeat split; [done|done|done| |].
      * intros b [Hb _]%Hin. auto.
      * intros a b Ha [Hb _]%Hin. auto.
    + assert (∀ a, a ∈ elements l → a ≠ value) as Hne1.
      { intros a Ha. apply lt_value_ne.
        eapply lt_value_trans; [by apply Hlv|done]. }
      assert (node_value ≠ value) as Hne2 by by apply lt_value_ne.
      clear Hlv Hvr Hlr. membership.
Qed.

(** *** C1: iteration in ascending order *)

(** What holds of a set between two calls. *)
Definition set_ok (s : @Set_ ValueType) : Prop :=
  ordered (root s)
  ∧ heap_ok (root s)
  ∧ (∀ a, a ∈ addrs (root s) → a < next_addr s)
  ∧ first_node s = leftmost_addr (root s)
  ∧ num_values s = nodes (root s).

(** The values a sequence of calls leaves in the set, by the meaning of
    [insert] and [erase] for a set. *)
Definition apply_op (S : ValueType → Prop) (o : @op ValueType)
  : ValueType → Prop :=
  match o with
  | op_insert value => λ x, x = value ∨ S x
  | op_erase value => λ x, S x ∧ x ≠ value
  end.

Definition stored (ops : list (@op ValueType)) : ValueType → Prop :=
  fold_left apply_op ops (λ _, False).

Lemma set_ok_new : set_ok Set_new.
Proof.
  unfold set_ok, heap_ok, ordered. cbn.
  repeat split; try constructor. intros a Ha. by apply elem_of_nil in Ha.
Qed.

Lemma step_set_ok (s s' : Set_) o :
  set_ok s → step less s o = Ok s' →
  set_ok s'
  ∧ ∀ x, x ∈ elements (root s')
         ↔ apply_op (λ y, y ∈ elements (root s)) o x.
Proof.
  intros (Ho & [Hp Hnd] & Hlt & Hfirst & Hnum) Hs.
  apply step_root in Hs as [Hfirst' Hs].
  destruct o as [value|value]; destruct Hs as (Hs & Hnext & Hnum').
  - destruct (inserted_elements _ _ _ _ _ Hs Ho) as [Ho' Hin].
    destruct (inserted_addrs _ _ _ _ _ Hs Hp Hnd) as (Hp' & Hnd' & Sub).
    { intros Ha%Hlt. lia. }
    split; [|done]. unfold set_ok, heap_ok. repeat split; try done.
    + intros a [->|Ha%Hlt]%Sub; lia.
    + lia.
  - destruct (erased_elements _ _ _ Hs Ho) as [Ho' Hin].
    destruct (erased_addrs _ _ _ _ Hs Hp Hnd) as (Hp' & Hnd' & Sub).
    split; [|done]. unfold set_ok, heap_ok. repeat split; try done.
    + intros a Ha%Sub%Hlt. lia.
    + specialize (Hnum' ltac:(lia)). lia.
Qed.

Lemma fold_apply_op ops (S S' : ValueType → Prop) :
  (∀ x, S x ↔ S' x) →
  ∀ x, fold_left apply_op ops S x ↔ fold_left apply_op ops S' x.
Proof.
  revert S S'. induction ops as [|o ops IH]; intros S S' HS; [done|].
  cbn [fold_left]. apply IH. intros x. destruct o; cbn; rewrite HS; tauto.
Qed.

Lemma run_set_ok ops (s s' : Set_) :
  set_ok s → run less ops s = Ok s' →
  set_ok s'
  ∧ ∀ x, x ∈ elements (root s')
         ↔ fold_left apply_op ops (λ y, y ∈ elements (root s)) x.
Proof.
  revert s. induction ops as [|o ops IH]; intros s Hok Hr.
  - injection Hr as <-. by split.
  - unfold run in Hr. cbn [for_each] in Hr. inv_bind Hr.
    destruct (step_set_ok _ _ _ Hok E) as [Hok1 Hin1].
    destruct (IH x Hok1 Hr) as [Hok' Hin']. split; [done|].
    intros y. rewrite Hin'. cbn [fold_left]. by apply fold_apply_op.
Qed.

(** C1.  After any sequence of [insert] and [erase] calls on an empty set,
    the loop from [begin()] to [end()] with [++] ends (within [size() + 1]
    iterations, each climb of [++] within as many) and visits the values the
    calls have left in the set, each once, in strictly ascending order. *)
Theorem iteration_ascending (ops : list (@op ValueType)) :
  ∃ s, run less ops Set_new = Ok s
       ∧ ∀ fuel, size s < fuel →
           ∃ out, traverse fuel s = Ok out
                  ∧ StronglySorted lt_value out
                  ∧ NoDup out
                  ∧ ∀ x, x ∈ out ↔ stored ops x.
Proof.
  destruct (run_total ops Set_new) as [s Hs]. exists s. split; [done|].
  destruct (run_set_ok _ _ _ set_ok_new Hs)
    as [(Ho & Hh & _ & Hfirst & Hnum) Hin].
  intros fuel Hfuel. exists (elements (root s)). unfold size in Hfuel.
  split; [apply traverse_elements; [done|done|lia]|].
  split; [done|]. split; [by apply sorted_no_dup|].
  intros x. rewrite Hin. apply fold_apply_op.
  intros y. cbn. by rewrite elem_of_nil.
Qed.

(** *** Calls that change nothing *)

Lemma lt_value_asym x y : lt_value x y → lt_value y x → False.
Proof.
  intros Hxy Hyx. exact (lt_value_ne x x (lt_value_trans _ _ _ Hxy Hyx) eq_refl).
Qed.

(** On a node whose subtrees are balanced against each other and whose
    [height] field is right, [update_height] and [balance_node] change
    nothing. *)
Lemma balance_node_id self l r parent value height :
  heights_ok (Node self l r parent value height) →
  balanced (Node self l r parent value height) →
  balance_node (update_height (Node self l r parent value height))
  = Ok (Node self l r parent value height).
Proof.
  cbn [heights_ok balanced]. intros (Hl & Hr & ->) (_ & _ & Hlr & Hrl).
  rewrite update_height_eq, !height_or_0_depth by done.
  unfold balance_node. cbn [get_balance mbind result_bind].
  rewrite !height_or_0_depth by done.
  case_decide; [lia|]. case_decide; [lia|]. done.
Qed.

Lemma insert_value_present p value :
  heights_ok p → balanced p → ordered p → value ∈ elements p →
  ∀ parent fresh num,
    insert_value less p value parent fresh num = Ok (p, num).
Proof.
  induction p as [|self l IHl r IHr node_parent node_value height];
    intros Hh Hb Ho Hin parent fresh num; [by apply elem_of_nil in Hin|].
  pose proof (balance_node_id _ _ _ _ _ _ Hh Hb) as Hid.
  cbn [heights_ok balanced elements] in *. unfold ordered in *.
  cbn [elements] in Ho.
  destruct Hh as (Hhl & Hhr & _). destruct Hb as (Hbl & Hbr & _).
  apply sorted_node in Ho as (Hol & Hor & Hlt & Hgt & _).
  cbn [insert_value]. destruct (equal less node_value value) eqn:Heq; [done|].
  destruct (less value node_value) eqn:Hless.
  - rewrite IHl; [by cbn [mbind result_bind]; rewrite Hid|done|done|done|].
    apply elem_of_app in Hin as [?|[->|Hr]%elem_of_cons]; [done| |].
    + by rewrite less_irreflexive in Hless.
    + destruct (lt_value_asym _ _ (Hgt _ Hr) Hless).
  - pose proof (equal_false_gt _ _ Heq Hless) as Hgt'.
    rewrite IHr; [by cbn [mbind result_bind]; rewrite Hid|done|done|done|].
    apply elem_of_app in Hin as [Hl|[->|?]%elem_of_cons]; [| |done].
    + destruct (lt_value_asym _ _ (Hlt _ Hl) Hgt').
    + destruct (lt_value_ne _ _ Hgt' eq_refl).
Qed.

Lemma erase_value_absent p value :
  heights_ok p → balanced p → value ∉ elements p →
  ∀ num, erase_value less p value num = Ok (p, num).
Proof.
  induction p as [|self l IHl r IHr node_parent node_value height];
    intros Hh Hb Hin num; simp erase_value; [done|].
  pose proof (balance_node_id _ _ _ _ _ _ Hh Hb) as Hid.
  cbn [heights_ok balanced elements] in *.
  destruct Hh as (Hhl & Hhr & _). destruct Hb as (Hbl & Hbr & _).
  apply not_elem_of_app in Hin as [Hl [Hv Hr]%not_elem_of_cons].
  destruct (equal less node_value value) eqn:Heq.
  { by apply equal_true in Heq. }
  destruct (less value node_value).
  - rewrite IHl by done. cbn [mbind result_bind]. by rewrite Hid.
  - rewrite IHr by done. cbn [mbind result_bind]. by rewrite Hid.
Qed.

Lemma run_stored ops (s : Set_) :
  run less ops Set_new = Ok s →
  set_ok s ∧ ∀ x, x ∈ elements (root s) ↔ stored ops x.
Proof.
  intros Hs. destruct (run_set_ok _ _ _ set_ok_new Hs) as [Hok Hin].
  split; [done|]. intros x. rewrite Hin. apply fold_apply_op.
  intros y. cbn. by rewrite elem_of_nil.
Qed.

(** X7.  After any sequence of [insert] and [erase]
    calls on an empty set, [insert] of a value that is stored leaves the set
    as it is: the same tree, node for node, the same [size()] and the same
    [begin()]. *)
Theorem insert_of_stored_value (ops : list (@op ValueType)) value :
  ∃ s s', run less ops Set_new = Ok s
          ∧ insert less value s = Ok s'
          ∧ (stored ops value →
             root s' = root s ∧ size s' = size s ∧ begin s' = begin s).
Proof.
  destruct (run_total ops Set_new) as [s Hs].
  destruct (step_total s (op_insert value)) as [s' Hs'].
  exists s, s'. split; [done|]. split; [done|]. intros Hstored.
  destruct (run_stored _ _ Hs) as [(Ho & _ & _ & Hfirst & _) Hin].
  assert (avl Set_new) as Hnew by (by split).
  pose proof (run_avl _ _ _ Hnew Hs) as [Hh Hb].
  cbn [step] in Hs'. unfold insert in Hs'.
  rewrite insert_value_present in Hs' by (by try apply Hin).
  injection Hs' as <-. unfold size, begin, update_first_node.
  cbn [root num_values first_node]. by rewrite Hfirst.
Qed.

(** X8.  After any sequence of [insert] and [erase]
    calls on an empty set, [erase] of a value that is not stored leaves the
    set as it is. *)
Theorem erase_of_absent_value (ops : list (@op ValueType)) value :
  ∃ s, run less ops Set_new = Ok s
       ∧ (¬ stored ops value → erase less value s = Ok s).
Proof.
  destruct (run_total ops Set_new) as [s Hs].
  exists s. split; [done|]. intros Hstored.
  destruct (run_stored _ _ Hs) as [(Ho & _ & _ & Hfirst & _) Hin].
  assert (avl Set_new) as Hnew by (by split).
  pose proof (run_avl _ _ _ Hnew Hs) as [Hh Hb].
  unfold erase. rewrite erase_value_absent by (by try rewrite Hin).
  cbn [mbind result_bind]. unfold update_first_node. rewrite <- Hfirst.
  by destruct s.
Qed.

(** *** lower_bound and find *)

(** Number of the values of [values] that are less than [value]. *)
Definition count_less value (values : list ValueType) : nat :=
  length (filter (λ x, less x value = true) values).

Lemma count_less_app value (l1 l2 : list ValueType) :
  count_less value (l1 ++ l2) = count_less value l1 + count_less value l2.
Proof. unfold count_less. by rewrite filter_app, length_app. Qed.

Lemma count_less_all value (values : list ValueType) :
  (∀ x, x ∈ values → lt_value x value) →
  count_less value values = length values.
Proof.
  unfold count_less. induction values as [|x values IH]; [done|].
  intros Hall. rewrite filter_cons_True by (apply Hall; by left).
  cbn [length]. rewrite IH; [done|]. intros y Hy. apply Hall. by right.
Qed.

Lemma count_less_none value (values : list ValueType) :
  (∀ x, x ∈ values → ¬ lt_value x value) → count_less value values = 0.
Proof.
  unfold count_less. induction values as [|x values IH]; [done|].
  intros Hall. rewrite filter_cons_False by (apply Hall; by left).
  apply IH. intros y Hy. apply Hall. by right.
Qed.

Lemma count_less_le value (values : list ValueType) :
  count_less value values ≤ length values.
Proof. apply length_filter. Qed.

(** The loop of [lower_bound] ends on the node that has as many nodes
    before it as there are values less than [value], or with what
    [lower_bound] was when there is no such node. *)
Lemma lower_bound_loop_spec n value :
  ordered n →
  ∀ lb, lower_bound_loop less n value lb
        = match addrs n !! count_less value (elements n) with
          | Some a => Some a
          | None => lb
          end.
Proof.
  unfold ordered.
  induction n as [|self l IHl r IHr parent v h]; intros Ho lb; [done|].
  cbn [elements addrs lower_bound_loop] in *.
  apply sorted_node in Ho as (Hol & Hor & Hlt & Hgt & _).
  rewrite count_less_app.
  change (v :: elements r) with ([v] ++ elements r). rewrite count_less_app.
  destruct (equal less v value) eqn:Heq.
  { apply equal_true in Heq as ->.
    rewrite (count_less_all value (elements l)) by done.
    rewrite (count_less_none value [value]).
    2:{ intros x ->%list_elem_of_singleton Hx.
        exact (lt_value_ne _ _ Hx eq_refl). }
    rewrite (count_less_none value (elements r)).
    2:{ intros x Hx Hx'. exact (lt_value_asym _ _ (Hgt _ Hx) Hx'). }
    rewrite !Nat.add_0_r, elements_length, <- addrs_length.
    by rewrite list_lookup_middle. }
  destruct (less v value) eqn:Hless.
  - rewrite (count_less_all value (elements l)).
    2:{ intros x Hx. exact (lt_value_trans _ _ _ (Hlt _ Hx) Hless). }
    rewrite (count_less_all value [v]).
    2:{ by intros x ->%list_elem_of_singleton. }
    rewrite IHr by done. cbn [length].
    rewrite elements_length, <- addrs_length.
    rewrite lookup_app_r by lia.
    replace (length (addrs l) + (1 + count_less value (elements r))
             - length (addrs l))
      with (S (count_less value (elements r))) by lia.
    done.
  - assert (lt_value value v) as Hgt'.
    { unfold equal in Heq. rewrite Hless in Heq. unfold lt_value.
      by destruct (less value v). }
    rewrite (count_less_none value [v]).
    2:{ intros x ->%list_elem_of_singleton Hx.
        exact (lt_value_asym _ _ Hx Hgt'). }
    rewrite (count_less_none value (elements r)).
    2:{ intros x Hx Hx'.
        exact (lt_value_asym _ _ (lt_value_trans _ _ _ Hgt' (Hgt _ Hx)) Hx'). }
    rewrite !Nat.add_0_r.
    destruct (is_null l) eqn:Hnull.
    { apply is_null_true in Hnull as ->. done. }
    rewrite IHl by done.
    pose proof (count_less_le value (elements l)) as Hle.
    rewrite elements_length, <- addrs_length in Hle.
    destruct (decide (count_less value (elements l) < length (addrs l)))
      as [Hc|Hc].
    + rewrite lookup_app_l by done.
      by destruct (lookup_lt_is_Some_2 (addrs l) _ Hc) as [a ->].
    + rewrite (proj2 (lookup_ge_None (addrs l) _)) by lia.
      assert (count_less value (elements l) = length (addrs l)) as -> by lia.
      by rewrite list_lookup_middle.
Qed.

Lemma sorted_snoc (init : list ValueType) x :
  StronglySorted lt_value (init ++ [x]) → ∀ a, a ∈ init → lt_value a x.
Proof. by intros (_ & _ & ? & _)%sorted_node. Qed.

Lemma lower_bound_set_ok (s : @Set_ ValueType) fuel value :
  set_ok s → size s ≤ fuel →
  lower_bound less fuel value s
  = Ok (position (root s) (count_less value (elements (root s)))).
Proof.
  intros (Ho & Hh & _ & _ & Hnum) Hfuel. unfold size in Hfuel.
  assert (shape_end : end_ s = position (root s) (nodes (root s))).
  { by rewrite position_end. }
  unfold lower_bound. case_decide as Hzero.
  { unfold end_, position. rewrite (nodes_0 (root s)) by lia. done. }
  destruct (nodes (root s)) as [|k] eqn:Hk; [lia|].
  rewrite shape_end, decrement_position; [|done|lia|lia].
  cbn [mbind result_bind]. rewrite dereference_position by done.
  destruct (lookup_lt_is_Some_2 (elements (root s)) k) as [last_value Hlast];
    [rewrite elements_length; lia|].
  rewrite Hlast. cbn [mbind result_bind].
  destruct (less last_value value) eqn:Hless.
  - rewrite count_less_all, elements_length, Hk, <- shape_end; [done|].
    intros x Hx. unfold ordered in Ho.
    assert (elements (root s) = take k (elements (root s)) ++ [last_value])
      as Hsplit.
    { rewrite <- (take_drop k (elements (root s))) at 1. f_equal.
      rewrite (drop_S _ _ _ Hlast), drop_ge; [done|].
      rewrite elements_length. lia. }
    rewrite Hsplit in Ho, Hx.
    apply elem_of_app in Hx as [Hx|Hx].
    + exact (lt_value_trans _ _ _ (sorted_snoc _ _ Ho _ Hx) Hless).
    + by apply list_elem_of_singleton in Hx as ->.
  - rewrite lower_bound_loop_spec by done. unfold position. do 2 f_equal.
    by destruct (addrs (root s) !! _).
Qed.

(** X9.  After any sequence of [insert] and [erase]
    calls on an empty set, [lower_bound(value)] returns the iterator that is
    as many steps after [begin()] as there are stored values less than
    [value]: the iterator on the least stored value that is not less than
    [value], or [end()] when every stored value is less. *)
Theorem lower_bound_position (ops : list (@op ValueType)) value :
  ∃ s, run less ops Set_new = Ok s
       ∧ ∀ fuel, size s < fuel →
           ∃ out, traverse fuel s = Ok out
                  ∧ lower_bound less fuel value s
                    = Ok (position (root s) (count_less value out)).
Proof.
  destruct (run_total ops Set_new) as [s Hs]. exists s. split; [done|].
  destruct (run_stored _ _ Hs) as [Hok _].
  intros fuel Hfuel. exists (elements (root s)).
  pose proof Hok as (_ & Hh & _ & Hfirst & Hnum). unfold size in Hfuel.
  split; [apply traverse_elements; [done|done|lia]|].
  apply lower_bound_set_ok; [done|unfold size; lia].
Qed.

Lemma count_less_member value (l1 l2 : list ValueType) :
  StronglySorted lt_value (l1 ++ value :: l2) →
  count_less value (l1 ++ value :: l2) = length l1.
Proof.
  intros (_ & _ & Hlt & Hgt & _)%sorted_node.
  rewrite count_less_app, (count_less_all value l1) by done.
  rewrite (count_less_none value (value :: l2)); [lia|].
  intros x [->|Hx]%elem_of_cons Hx'.
  - exact (lt_value_ne _ _ Hx' eq_refl).
  - exact (lt_value_asym _ _ (Hgt _ Hx) Hx').
Qed.

Lemma equal_refl x : equal less x x = true.
Proof. unfold equal. by rewrite less_irreflexive. Qed.

(** X10.  After any sequence of [insert] and [erase] calls on
    an empty set, [find(value)] returns an iterator other than [end()] that
    dereferences to [value] when [value] is stored, and [end()] when it is
    not. *)
Theorem find_position (ops : list (@op ValueType)) value :
  ∃ s, run less ops Set_new = Ok s
       ∧ ∀ fuel, size s ≤ fuel →
           (stored ops value →
            ∃ it, find less fuel value s = Ok it
                  ∧ it ≠ end_ s
                  ∧ dereference (root s) it = Ok value)
           ∧ (¬ stored ops value → find less fuel value s = Ok (end_ s)).
Proof.
  destruct (run_total ops Set_new) as [s Hs]. exists s. split; [done|].
  destruct (run_stored _ _ Hs) as [Hok Hin].
  intros fuel Hfuel. unfold find.
  rewrite lower_bound_set_ok by done. cbn [mbind result_bind].
  pose proof Hok as (Ho & Hh & _ & _ & Hnum).
  rewrite dereference_position by done. split.
  - intros Hstored%Hin.
    apply list_elem_of_split in Hstored as (l1 & l2 & Hsplit).
    unfold ordered in Ho. rewrite Hsplit in Ho |- *.
    rewrite count_less_member by done.
    rewrite list_lookup_middle by done. cbn [mbind result_bind].
    rewrite equal_refl.
    assert (position (root s) (length l1) ≠ end_ s) as Hne.
    { unfold position, end_. intros [= Hnone].
      apply lookup_ge_None in Hnone.
      rewrite addrs_length, <- elements_length, Hsplit, length_app in Hnone.
      cbn in Hnone. lia. }
    rewrite decide_False by done. eexists. split; [done|]. split; [done|].
    rewrite dereference_position, Hsplit by done.
    by rewrite list_lookup_middle.
  - intros Hstored. case_decide as Hend; [done|].
    destruct (elements (root s) !! _) as [v|] eqn:Hv.
    2:{ exfalso. apply Hend. unfold position, end_. f_equal.
        apply lookup_ge_None. rewrite addrs_length, <- elements_length.
        by apply lookup_ge_None. }
    cbn [mbind result_bind].
    destruct (equal less v value) eqn:Heq; [|done].
    apply equal_true in Heq as ->. exfalso. apply Hstored, Hin.
    by apply (list_elem_of_lookup_2 _ _ _ Hv).
Qed.

(** *** clear, the constructors and the assignments *)

(** Two ascending lists with the same members are the same list. *)
Lemma sorted_ext (l1 l2 : list ValueType) :
  StronglySorted lt_value l1 → StronglySorted lt_value l2 →
  (∀ x, x ∈ l1 ↔ x ∈ l2) → l1 = l2.
Proof.
  intros H1. revert l2.
  induction H1 as [|x l1 H1 IH Hx]; intros l2 H2 Hin.
  - destruct l2 as [|y l2]; [done|].
    exfalso. apply (not_elem_of_nil y), Hin. by left.
  - destruct H2 as [|y l2 H2 Hy].
    { exfalso. apply (not_elem_of_nil x), Hin. by left. }
    rewrite Forall_forall in Hx, Hy.
    assert (x = y) as ->.
    { assert (x ∈ y :: l2) as [->|Hx2]%elem_of_cons by (apply Hin; by left);
        [done|].
      assert (y ∈ x :: l1) as [->|Hy1]%elem_of_cons by (apply Hin; by left);
        [done|].
      destruct (lt_value_asym _ _ (Hx _ Hy1) (Hy _ Hx2)). }
    f_equal. apply IH; [done|]. intros z. split.
    + intros Hz. assert (z ∈ y :: l2) as [->|?]%elem_of_cons
        by (apply Hin; by right); [|done].
      destruct (lt_value_ne _ _ (Hx _ Hz) eq_refl).
    + intros Hz. assert (z ∈ y :: l1) as [->|?]%elem_of_cons
        by (apply Hin; by right); [|done].
      destruct (lt_value_ne _ _ (Hy _ Hz) eq_refl).
Qed.

Lemma set_ok_clear (s : @Set_ ValueType) : set_ok (clear s).
Proof.
  unfold set_ok, heap_ok, ordered. cbn.
  repeat split; try constructor. intros a Ha. by apply elem_of_nil in Ha.
Qed.

(** What a run leaves stored depends on the values stored before it only. *)
Lemma run_elements ops (s1 s2 s1' s2' : Set_) :
  set_ok s1 → set_ok s2 → elements (root s1) = elements (root s2) →
  run less ops s1 = Ok s1' → run less ops s2 = Ok s2' →
  elements (root s1') = elements (root s2').
Proof.
  intros Hok1 Hok2 Heq Hr1 Hr2.
  destruct (run_set_ok _ _ _ Hok1 Hr1) as [(Ho1 & _) Hin1].
  destruct (run_set_ok _ _ _ Hok2 Hr2) as [(Ho2 & _) Hin2].
  apply sorted_ext; [done|done|]. intros x. rewrite Hin1, Hin2.
  apply fold_apply_op. intros y. by rewrite Heq.
Qed.

(** X11.  [clear] after any sequence of [insert] and
    [erase] calls leaves a set with [size()] 0 and [begin()] equal to
    [end()], and the calls that follow leave in it what they leave in a new
    set: the loop from [begin()] to [end()] visits the same values. *)
Theorem clear_then_calls (ops1 ops2 : list (@op ValueType)) :
  ∃ s s' s0,
    run less ops1 Set_new = Ok s
    ∧ size (clear s) = 0 ∧ empty (clear s) = true
    ∧ begin (clear s) = end_ (clear s)
    ∧ run less ops2 (clear s) = Ok s'
    ∧ run less ops2 Set_new = Ok s0
    ∧ size s' = size s0
    ∧ ∀ fuel, size s' < fuel →
        ∃ out, traverse fuel s' = Ok out ∧ traverse fuel s0 = Ok out.
Proof.
  destruct (run_total ops1 Set_new) as [s Hs].
  destruct (run_total ops2 (clear s)) as [s' Hs'].
  destruct (run_total ops2 Set_new) as [s0 Hs0].
  exists s, s', s0. do 4 (split; [done|]). split; [done|]. split; [done|].
  pose proof (run_elements ops2 (clear s) Set_new s' s0 (set_ok_clear s)
                set_ok_new eq_refl Hs' Hs0) as Heq.
  destruct (run_set_ok _ _ _ (set_ok_clear s) Hs')
    as [(_ & Hh' & _ & Hfirst' & Hnum') _].
  destruct (run_set_ok _ _ _ set_ok_new Hs0)
    as [(_ & Hh0 & _ & Hfirst0 & Hnum0) _].
  assert (size s' = size s0) as Hsize.
  { unfold size. by rewrite Hnum', Hnum0, <- !elements_length, Heq. }
  split; [done|]. intros fuel Hfuel. exists (elements (root s')).
  split.
  - apply traverse_elements; [done|done|]. unfold size in Hfuel. lia.
  - rewrite Heq. apply traverse_elements; [done|done|].
    rewrite Hsize in Hfuel. unfold size in Hfuel. lia.
Qed.

(** The constructors from a range are a run of [insert] calls. *)
Lemma for_each_insert (values : list ValueType) (s : Set_) :
  for_each (λ s value, insert less value s) values s
  = run less (op_insert <$> values) s.
Proof.
  revert s. induction values as [|value values IH]; intros s; [done|].
  unfold run in *. cbn [for_each fmap list_fmap step].
  destruct (insert less value s); cbn [mbind result_bind]; [apply IH|done|done].
Qed.

Lemma stored_inserts (values : list ValueType) (S : ValueType → Prop) x :
  fold_left apply_op (op_insert <$> values) S x ↔ S x ∨ x ∈ values.
Proof.
  revert S. induction values as [|value values IH]; intros S.
  - cbn. rewrite elem_of_nil. tauto.
  - cbn [fmap list_fmap fold_left]. rewrite IH, elem_of_cons. cbn. tauto.
Qed.

(** X12.  The constructors from a range and from an
    initializer list build a set in which the loop from [begin()] to
    [end()] visits the values of the range, each once, in ascending order,
    and [size()] is their number. *)
Theorem set_from_range (values : list ValueType) :
  ∃ s, Set_from less values = Ok s
       ∧ ∀ fuel, size s < fuel →
           ∃ out, traverse fuel s = Ok out
                  ∧ StronglySorted lt_value out
                  ∧ (∀ x, x ∈ out ↔ x ∈ values)
                  ∧ size s = length out.
Proof.
  unfold Set_from. rewrite for_each_insert.
  destruct (run_total (op_insert <$> values) Set_new) as [s Hs].
  exists s. split; [done|].
  destruct (run_set_ok _ _ _ set_ok_new Hs)
    as [(Ho & Hh & _ & Hfirst & Hnum) Hin].
  intros fuel Hfuel. exists (elements (root s)). unfold size in *.
  split; [apply traverse_elements; [done|done|lia]|].
  split; [done|]. split; [|by rewrite elements_length].
  intros x. rewrite Hin, stored_inserts. cbn. rewrite elem_of_nil. tauto.
Qed.

(** A range-for over a set runs its body on the values the iteration
    visits. *)
Lemma for_values_visit count fuel heap (end_it : SetIterator) :
  ∀ it out0 out,
    visit count fuel heap it end_it out0 = Ok out →
    ∃ values, out = out0 ++ values
              ∧ ∀ (State : Type) (body : State → ValueType → result State) s,
                  for_values count fuel heap it end_it body s
                  = for_each body values s.
Proof.
  induction count as [|count IH]; intros it out0 out Hv; [done|].
  cbn [visit] in Hv. case_decide as Hend.
  - injection Hv as <-. exists []. rewrite app_nil_r. split; [done|].
    intros State body s. cbn [for_values]. by rewrite decide_True.
  - apply bind_Ok in Hv as (v & Hd & Hv).
    apply bind_Ok in Hv as (it' & Hi & Hv).
    destruct (IH _ _ _ Hv) as (values & -> & Hfor).
    exists (v :: values). rewrite <- app_assoc. split; [done|].
    intros State body s. cbn [for_values for_each].
    rewrite decide_False by done. rewrite Hd. cbn [mbind result_bind].
    destruct (body s v) as [s'| |]; cbn [mbind result_bind]; [|done|done].
    rewrite Hi. cbn [mbind result_bind]. apply Hfor.
Qed.

Lemma assign_set_ok (other s : @Set_ ValueType) fuel :
  set_ok other → size other < fuel →
  ∃ s', assign less fuel other s = Ok s'
        ∧ set_ok s'
        ∧ elements (root s') = elements (root other).
Proof.
  intros (Ho & Hh & _ & Hfirst & Hnum) Hfuel. unfold size in Hfuel.
  pose proof (traverse_elements other fuel Hh Hfirst ltac:(lia)) as Ht.
  unfold traverse in Ht.
  destruct (for_values_visit _ _ _ _ _ _ _ Ht) as (values & Hv & Hfor).
  cbn [app] in Hv. subst values.
  unfold assign. rewrite Hfor, for_each_insert.
  destruct (run_total (op_insert <$> elements (root other)) (clear s))
    as [s' Hs'].
  exists s'. split; [done|].
  destruct (run_set_ok _ _ _ (set_ok_clear s) Hs') as [Hok' Hin].
  split; [done|]. apply sorted_ext; [apply Hok'|done|].
  intros x. rewrite Hin, stored_inserts. cbn. rewrite elem_of_nil. tauto.
Qed.

(** X13.  Copy assignment, move assignment and the
    copy constructor, from a set that is the result of any [insert] and
    [erase] calls (for the assignments, to such a set): afterwards the loop
    from [begin()] to [end()] visits in the new set the values it visits in
    the source, and the two have the same [size()]. *)
Theorem assign_copies_values (ops_other ops_this : list (@op ValueType)) :
  ∃ other this,
    run less ops_other Set_new = Ok other
    ∧ run less ops_this Set_new = Ok this
    ∧ ∀ fuel, size other < fuel →
        ∃ s' c out, assign less fuel other this = Ok s'
                    ∧ Set_copy less fuel other = Ok c
                    ∧ traverse fuel other = Ok out
                    ∧ traverse fuel s' = Ok out
                    ∧ traverse fuel c = Ok out
                    ∧ size s' = size other ∧ size c = size other.
Proof.
  destruct (run_total ops_other Set_new) as [other Ho].
  destruct (run_total ops_this Set_new) as [this Ht].
  exists other, this. split; [done|]. split; [done|].
  destruct (run_stored _ _ Ho) as [Hok _].
  intros fuel Hfuel. unfold Set_copy.
  destruct (assign_set_ok other this fuel Hok Hfuel)
    as (s' & Ha & (_ & Hh' & _ & Hfirst' & Hnum') & Heq).
  destruct (assign_set_ok other Set_new fuel Hok Hfuel)
    as (c & Hc & (_ & Hhc & _ & Hfirstc & Hnumc) & Heqc).
  pose proof Hok as (_ & Hh & _ & Hfirst & Hnum).
  assert (size s' = size other) as Hsize.
  { unfold size. by rewrite Hnum', Hnum, <- !elements_length, Heq. }
  assert (size c = size other) as Hsizec.
  { unfold size. by rewrite Hnumc, Hnum, <- !elements_length, Heqc. }
  exists s', c, (elements (root other)).
  split; [done|]. split; [done|]. unfold size in *.
  split; [apply traverse_elements; [done|done|lia]|].
  split; [rewrite <- Heq; apply traverse_elements; [done|done|lia]|].
  split; [rewrite <- Heqc; apply traverse_elements; [done|done|lia]|].
  done.
Qed.

End order.

End facts.
End avl_set_facts.

(** ** hash_map.cpp with [int] keys and values

    [KeyType] and [ValueType] are [nat] and the hash object is the identity,
    as [std::hash<int>] is. *)
Module hash_map_int.
Import hash_map hash_map_facts.

Definition std_hash : @Hash nat := λ key, key.

Definition new_map : @HashMap nat nat := HashMap_new std_hash.

Definition int_run (fuel : nat) (ops : list (@op nat nat)) (m : @HashMap nat nat)
  : result (@HashMap nat nat) :=
  run 0 fuel ops m.

(** Two keys that share the slot 3 of a table of 16 slots: the second one is
    behind the first one, which is then erased. *)
Definition shadowed_key : list (@op nat nat) :=
  [op_insert 0 0; op_insert 1 0; op_insert 3 0; op_insert 19 1; op_erase 3].

(** Eight rounds, each filling one slot of the new table, erasing it and
    clearing the (already empty) table. *)
Definition tombstone_round (key : nat) : list (@op nat nat) :=
  [op_insert key 0; op_erase key; op_clear].

Definition eight_rounds : list (@op nat nat) :=
  flat_map tombstone_round (seq 0 8).


(** The bound on the [occupancy] field is not strict after a call: two
    [insert] calls on a new table leave [occupancy * 4 = capacity], the
    growth being left to the next call. *)
Lemma occupancy_reaches_quarter :
  ∃ m, int_run 8 [op_insert 0 0; op_insert 1 0] new_map = Ok m
       ∧ ¬ (occupancy m * OCCUPANCY_COEFFICIENT < length (pointers m)).
Proof.
  eexists. split; [vm_compute; reflexivity|]. vm_compute. lia.
Qed.

(** C5 fails on the code: the [occupancy] field loses count of the slots
    that were filled, so four times their number exceeds the capacity.
    Six [insert] calls on a new table grow it once, to 16 slots, and leave
    six slots filled; the [check_size] of the third call has set the field
    to 0, not to the two records it re-probed, so the field is 4 and the
    next growth is late.  After [eight_rounds] the table still has its first
    8 slots (it was never rehashed), each of them was filled and later
    erased, and [clear] has set the field to 0. *)
Lemma occupancy_misses_filled_slots :
  (∃ m, int_run 16 [op_insert 0 0; op_insert 1 0; op_insert 2 0;
                    op_insert 3 0; op_insert 4 0; op_insert 5 0] new_map
        = Ok m
        ∧ length (pointers m) = 16
        ∧ count_state STATE_FILLED (states m) = 6
        ∧ occupancy m = 4
        ∧ ¬ (count_state STATE_FILLED (states m) * OCCUPANCY_COEFFICIENT
             ≤ length (pointers m)))
  ∧ (∃ m, int_run 8 eight_rounds new_map = Ok m
          ∧ length (pointers m) = 8
          ∧ count_state STATE_ERASED (states m) = 8
          ∧ occupancy m = 0
          ∧ ¬ (count_state STATE_ERASED (states m) * OCCUPANCY_COEFFICIENT
               ≤ length (pointers m))).
Proof.
  split; eexists; (split; [vm_compute; reflexivity|]);
    repeat (split; [vm_compute; reflexivity|]); vm_compute; lia.
Qed.

Lemma occupancy_bound_after_calls_witness :
  ∃ m, int_run 8 [op_insert 0 0; op_insert 1 0; op_insert 2 0; op_erase 1;
                  op_index 5; op_clear; op_insert 7 1] new_map = Ok m
       ∧ occupancy m * OCCUPANCY_COEFFICIENT ≤ length (pointers m)
       ∧ ∀ fuel' m', check_size true fuel' m = Ok m' →
           occupancy m' * OCCUPANCY_COEFFICIENT < length (pointers m').
Proof.
  eexists. split; [vm_compute; reflexivity|].
  apply (occupancy_bound_after_calls 0 std_hash 8
           [op_insert 0 0; op_insert 1 0; op_insert 2 0; op_erase 1;
            op_index 5; op_clear; op_insert 7 1]).
  vm_compute. reflexivity.
Defined.

(** C9 as stated fails: after [eight_rounds] every slot is erased, so some
    slot is not filled, and the probe loop of [find], [at], [erase] and
    [operator[]] for the key 8 goes round for ever. *)
Lemma lookup_loop_diverges_without_empty_slot :
  ∃ m, int_run 8 eight_rounds new_map = Ok m
       ∧ (∃ i s, i < length (pointers m) ∧ states m !! i = Some s
                 ∧ s ≠ STATE_FILLED)
       ∧ (∀ fuel, lookup_loop fuel m 8 0 = OutOfFuel)
       ∧ (∀ fuel, find fuel 8 m = OutOfFuel).
Proof.
  eexists. split; [vm_compute; reflexivity|].
  assert (∀ i, i < 8 → replicate 8 STATE_ERASED !! i = Some STATE_ERASED)
    as Hall.
  { intros i Hi. by apply lookup_replicate_2. }
  split; [|split].
  - exists 0, STATE_ERASED. split; [cbn; lia|]. by split.
  - intros fuel. apply lookup_loop_all_erased; [exact Hall|cbn; lia].
  - intros fuel. apply find_all_erased; [cbn; lia|exact Hall].
Qed.

Lemma probe_loops_terminate_witness :
  ∃ m, int_run 16 shadowed_key new_map = Ok m
       ∧ 3 < length (pointers m) ∧ length (pointers m) ≤ 16
       ∧ ((∃ i s, i < length (pointers m) ∧ states m !! i = Some s
                  ∧ s ≠ STATE_FILLED) →
          insert_loop 16 m 19 3 ≠ OutOfFuel)
       ∧ ((∃ i, i < length (pointers m)
                ∧ states m !! i = Some STATE_EMPTY) →
          lookup_loop 16 m 19 3 ≠ OutOfFuel).
Proof.
  eexists. split; [vm_compute; reflexivity|].
  split; [vm_compute; lia|]. split; [vm_compute; lia|].
  apply probe_loops_terminate; vm_compute; lia.
Defined.

(** C4 fails on the code: after [shadowed_key] the key 19 is in the table,
    behind the erased slot of the key 3; [insert] stops at that slot and
    appends a second record for 19. *)
Lemma insert_of_present_key_appends :
  ∃ m m', int_run 16 shadowed_key new_map = Ok m
          ∧ (19, 1) ∈ iteration m
          ∧ insert true 16 (19, 2) m = Ok m'
          ∧ size m = 3 ∧ size m' = 4
          ∧ iteration m' = iteration m ++ [(19, 2)].
Proof.
  do 2 eexists. split; [vm_compute; reflexivity|].
  split; [vm_compute; by repeat constructor|].
  split; [vm_compute; reflexivity|]. done.
Qed.

(** C3 fails on the code: the sequence below inserts and erases only, the
    iteration then yields two records for the key 19, where the record list
    of the specification has one, and after [erase] of 19 it still yields
    one, where the record list of the specification has none. *)
Lemma iteration_repeats_key :
  ∃ m m', int_run 16 (shadowed_key ++ [op_insert 19 2]) new_map = Ok m
          ∧ iteration m = [(0, 0); (1, 0); (19, 1); (19, 2)]
          ∧ spec_run 0 (shadowed_key ++ [op_insert 19 2])
            = [(0, 0); (1, 0); (19, 1)]
          ∧ int_run 16 [op_erase 19] m = Ok m'
          ∧ iteration m' = [(0, 0); (1, 0); (19, 1)]
          ∧ spec_run 0 (shadowed_key ++ [op_insert 19 2; op_erase 19])
            = [(0, 0); (1, 0)].
Proof.
  do 2 eexists. split; [vm_compute; reflexivity|].
  split; [done|]. split; [vm_compute; reflexivity|].
  split; [vm_compute; reflexivity|]. split; [done|].
  vm_compute. reflexivity.
Qed.

(** C6 fails on the code: the third [insert] on a new table starts with
    [occupancy * 4 >= capacity]; its [check_size] doubles the capacity and
    keeps the two records, but leaves [occupancy] at 0. *)
Lemma check_size_resets_occupancy_to_zero :
  ∃ m m', int_run 8 [op_insert 0 0; op_insert 1 0] new_map = Ok m
          ∧ length (pointers m) ≤ occupancy m * OCCUPANCY_COEFFICIENT
          ∧ check_size true 8 m = Ok m'
          ∧ length (pointers m') = 2 * length (pointers m)
          ∧ iteration m' = iteration m
          ∧ size m' = 2
          ∧ occupancy m' = 0.
Proof.
  do 2 eexists. split; [vm_compute; reflexivity|].
  split; [vm_compute; lia|]. split; [vm_compute; reflexivity|]. done.
Qed.

(** C7 fails on the code: [clear] on a table whose only record was erased
    walks no probe chain, so the erased slot stays erased. *)
Lemma clear_leaves_erased_slot :
  ∃ m m', int_run 8 [op_insert 0 0; op_erase 0] new_map = Ok m
          ∧ clear 8 m = Ok m'
          ∧ states m' !! 0 = Some STATE_ERASED
          ∧ size m' = 0 ∧ occupancy m' = 0.
Proof.
  do 2 eexists. split; [vm_compute; reflexivity|].
  split; [vm_compute; reflexivity|]. done.
Qed.

(** C8 fails on the code: after [eight_rounds] the table holds no record and
    no empty slot, and [at] for the absent key 8 never returns nor throws. *)
Lemma at_never_returns :
  ∃ m, int_run 8 eight_rounds new_map = Ok m
       ∧ iteration m = []
       ∧ ∀ fuel, at_ fuel 8 m = OutOfFuel.
Proof.
  eexists. split; [vm_compute; reflexivity|]. split; [done|].
  assert (∀ i, i < 8 → replicate 8 STATE_ERASED !! i = Some STATE_ERASED)
    as Hall.
  { intros i Hi. by apply lookup_replicate_2. }
  intros fuel. apply at_all_erased; [cbn; lia|exact Hall].
Qed.

(** C10 fails on the code: the copy of a table that holds two records for
    the key 19 holds one; its hash object is the one given to the
    constructor. *)
Lemma copy_drops_record :
  ∃ m c, int_run 16 (shadowed_key ++ [op_insert 19 2]) new_map = Ok m
         ∧ HashMap_copy true 16 m std_hash = Ok c
         ∧ iteration m = [(0, 0); (1, 0); (19, 1); (19, 2)]
         ∧ iteration c = [(0, 0); (1, 0); (19, 1)]
         ∧ hash_function c = std_hash.
Proof.
  do 2 eexists. split; [vm_compute; reflexivity|].
  split; [vm_compute; reflexivity|]. done.
Qed.


(** *** The properties of the general development at sample calls *)

(** Calls that leave tombstones and make the table grow. *)
Definition sample_calls : list (@op nat nat) :=
  [op_insert 0 0; op_insert 8 1; op_erase 0; op_index 16; op_insert 3 5].

(** Calls that build, with a [clear] among them, followed by lookups. *)
Definition sample_building : list (@op nat nat) :=
  [op_insert 1 10; op_index 2; op_clear; op_insert 9 0; op_insert 1 7].

Definition sample_lookups : list (@op nat nat) := [op_erase 9; op_index 4].

Lemma sample_calls_without_clear : Forall (λ o, o ≠ op_clear) sample_calls.
Proof. repeat constructor; discriminate. Qed.

Lemma sample_building_builds : Forall builds sample_building.
Proof. repeat constructor. Qed.

Lemma sample_lookups_look_up : Forall looks_up sample_lookups.
Proof. repeat constructor. Qed.

Lemma calls_without_clear_safe_witness :
  Forall (λ o, o ≠ op_clear) sample_calls
  ∧ 8 * (length sample_calls + 1) ≤ 48
  ∧ ∃ m, run 0 48 sample_calls new_map = Ok m
         ∧ length (states m) = length (pointers m)
         ∧ 2 * (count_state STATE_FILLED (states m)
                + count_state STATE_ERASED (states m))
           < length (pointers m)
         ∧ size m = count_state STATE_FILLED (states m).
Proof.
  split; [apply sample_calls_without_clear|]. split; [vm_compute; lia|].
  apply (calls_without_clear_safe 0 std_hash sample_calls 48).
  - apply sample_calls_without_clear.
  - vm_compute. lia.
Defined.

Lemma at_after_calls_without_clear_witness :
  Forall (λ o, o ≠ op_clear) sample_calls
  ∧ 8 * (length sample_calls + 1) ≤ 48
  ∧ ∃ m, run 0 48 sample_calls new_map = Ok m
         ∧ (8 ∉ (iteration m).*1 → at_ 48 8 m = Ok at_throws_out_of_range)
         ∧ (8 ∈ (iteration m).*1 →
            ∃ v, (8, v) ∈ iteration m ∧ at_ 48 8 m = Ok (at_returns v)).
Proof.
  split; [apply sample_calls_without_clear|]. split; [vm_compute; lia|].
  apply (at_after_calls_without_clear 0 std_hash sample_calls 48 8).
  - apply sample_calls_without_clear.
  - vm_compute. lia.
Defined.

Lemma find_after_calls_without_clear_witness :
  Forall (λ o, o ≠ op_clear) sample_calls
  ∧ 8 * (length sample_calls + 1) ≤ 48
  ∧ ∃ m, run 0 48 sample_calls new_map = Ok m
         ∧ (0 ∉ (iteration m).*1 → find 48 0 m = Ok None)
         ∧ (0 ∈ (iteration m).*1 →
            ∃ ptr v, find 48 0 m = Ok (Some ptr)
                     ∧ deref (values m) ptr = Some (0, v)).
Proof.
  split; [apply sample_calls_without_clear|]. split; [vm_compute; lia|].
  apply (find_after_calls_without_clear 0 std_hash sample_calls 48 0).
  - apply sample_calls_without_clear.
  - vm_compute. lia.
Defined.

Lemma index_after_calls_without_clear_witness :
  Forall (λ o, o ≠ op_clear) sample_calls
  ∧ 8 * (length sample_calls + 2) ≤ 56
  ∧ ∃ m m' v,
      run 0 56 sample_calls new_map = Ok m
      ∧ index 0 true 56 24 m = Ok (m', v)
      ∧ (24 ∈ (iteration m).*1 →
         iteration m' = iteration m ∧ (24, v) ∈ iteration m)
      ∧ (24 ∉ (iteration m).*1 →
         iteration m' = iteration m ++ [(24, 0)] ∧ v = 0).
Proof.
  split; [apply sample_calls_without_clear|]. split; [vm_compute; lia|].
  apply (index_after_calls_without_clear 0 std_hash sample_calls 56 24).
  - apply sample_calls_without_clear.
  - vm_compute. lia.
Defined.

Lemma calls_with_clear_refine_witness :
  Forall builds sample_building ∧ Forall looks_up sample_lookups
  ∧ 8 * (length (sample_building ++ sample_lookups) + 1) < 72
  ∧ ∃ m, run 0 72 (sample_building ++ sample_lookups) new_map = Ok m
         ∧ iteration m = spec_run 0 (sample_building ++ sample_lookups)
         ∧ NoDup (iteration m).*1.
Proof.
  split; [apply sample_building_builds|].
  split; [apply sample_lookups_look_up|]. split; [vm_compute; lia|].
  apply (calls_with_clear_refine 0 std_hash sample_building sample_lookups 72).
  - apply sample_building_builds.
  - apply sample_lookups_look_up.
  - vm_compute. lia.
Defined.

Example calls_with_clear_example :
  (m ← run 0 72 (sample_building ++ sample_lookups) new_map;
   Ok (iteration m)) = Ok [(1, 7); (4, 0)].
Proof. vm_compute. reflexivity. Qed.

Lemma insert_iteration_witness :
  ∃ m m', int_run 16 shadowed_key new_map = Ok m
          ∧ insert true 16 (5, 9) m = Ok m'
          ∧ (iteration m' = iteration m
             ∨ iteration m' = iteration m ++ [(5, 9)]).
Proof.
  do 2 eexists. split; [vm_compute; reflexivity|].
  split; [vm_compute; reflexivity|].
  apply (insert_iteration 16 (5, 9)). vm_compute. reflexivity.
Defined.

Lemma erase_iteration_witness :
  ∃ m m', int_run 16 shadowed_key new_map = Ok m
          ∧ erase 16 19 m = Ok m'
          ∧ (iteration m' = iteration m
             ∨ ∃ before v after,
                 iteration m = before ++ (19, v) :: after
                 ∧ iteration m' = before ++ after).
Proof.
  do 2 eexists. split; [vm_compute; reflexivity|].
  split; [vm_compute; reflexivity|].
  apply (erase_iteration 16 19). vm_compute. reflexivity.
Defined.


Lemma clear_after_building_witness :
  Forall builds sample_building
  ∧ 8 * (length sample_building + 1) < 56
  ∧ ∃ m m', run 0 56 sample_building new_map = Ok m
            ∧ clear 56 m = Ok m'
            ∧ states m' = replicate (length (pointers m)) STATE_EMPTY
            ∧ length (pointers m') = length (pointers m)
            ∧ size m' = 0 ∧ occupancy m' = 0.
Proof.
  split; [apply sample_building_builds|]. split; [vm_compute; lia|].
  apply (clear_after_building 0 std_hash sample_building 56).
  - apply sample_building_builds.
  - vm_compute. lia.
Defined.

Lemma copy_refines_witness :
  ∃ other, int_run 48 sample_calls new_map = Ok other
    ∧ 8 * (size other + 1) ≤ 48
    ∧ ∃ m, HashMap_copy true 48 other std_hash = Ok m
           ∧ hash_function m = std_hash
           ∧ iteration m
             = fold_left (λ pairs pair, spec_insert pair pairs)
                         (iteration other) []
           ∧ (NoDup (iteration other).*1 → iteration m = iteration other).
Proof.
  eexists. split; [vm_compute; reflexivity|]. split; [vm_compute; lia|].
  apply (copy_refines 0 48 _ std_hash). vm_compute. lia.
Defined.

Lemma from_range_refines_witness :
  8 * (length [(3, 1); (11, 2); (3, 4)] + 1) ≤ 32
  ∧ ∃ m, HashMap_from true 32 [(3, 1); (11, 2); (3, 4)] std_hash = Ok m
         ∧ hash_function m = std_hash
         ∧ iteration m
           = fold_left (λ pairs pair, spec_insert pair pairs)
                       [(3, 1); (11, 2); (3, 4)] []
         ∧ NoDup (iteration m).*1
         ∧ (NoDup [(3, 1); (11, 2); (3, 4)].*1 →
            iteration m = [(3, 1); (11, 2); (3, 4)]).
Proof.
  split; [vm_compute; lia|].
  apply (from_range_refines 0 32 [(3, 1); (11, 2); (3, 4)] std_hash).
  vm_compute. lia.
Defined.

Example from_range_example :
  (m ← HashMap_from true 32 [(3, 1); (11, 2); (3, 4)] std_hash;
   Ok (iteration m)) = Ok [(3, 1); (11, 2)].
Proof. vm_compute. reflexivity. Qed.

Lemma assign_refines_witness :
  ∃ other, int_run 48 sample_calls new_map = Ok other
    ∧ Forall builds sample_building
    ∧ 8 * (length sample_building + size other + 1) < 80
    ∧ ∃ m m', run 0 80 sample_building new_map = Ok m
              ∧ assign true 80 other m = Ok m'
              ∧ hash_function m' = std_hash
              ∧ iteration m'
                = fold_left (λ pairs pair, spec_insert pair pairs)
                            (iteration other) []
              ∧ (NoDup (iteration other).*1 →
                 iteration m' = iteration other).
Proof.
  eexists. split; [vm_compute; reflexivity|].
  split; [apply sample_building_builds|]. split; [vm_compute; lia|].
  apply (assign_refines 0 std_hash sample_building 80).
  - apply sample_building_builds.
  - vm_compute. lia.
Defined.

Lemma hash_function_after_calls_witness :
  ∃ m, run 0 72 (sample_building ++ sample_lookups) new_map = Ok m
       ∧ hash_function m = std_hash.
Proof.
  eexists. split; [vm_compute; reflexivity|].
  apply (hash_function_after_calls 0 std_hash
           (sample_building ++ sample_lookups) 72).
  vm_compute. reflexivity.
Defined.

End hash_map_int.

(** ** The Set container with [int] values *)
Module avl_set_int.
Import avl_set avl_set_facts.

Lemma ltb_irreflexive x : (x <? x) = false.
Proof. apply Nat.ltb_irrefl. Qed.

Lemma ltb_transitive x y z : (x <? y) = true → (y <? z) = true → (x <? z) = true.
Proof. rewrite !Nat.ltb_lt. lia. Qed.

Lemma ltb_total x y : (x <? y) = false → (y <? x) = false → x = y.
Proof. rewrite !Nat.ltb_ge. lia. Qed.

Lemma iteration_ascending_witness :
  ∃ s, run Nat.ltb [op_insert 2; op_insert 1; op_insert 3; op_erase 2;
                    op_insert 1] Set_new = Ok s
       ∧ ∀ fuel, size s < fuel →
           ∃ out, traverse fuel s = Ok out
                  ∧ StronglySorted (lt_value Nat.ltb) out
                  ∧ NoDup out
                  ∧ ∀ x, x ∈ out
                         ↔ stored [op_insert 2; op_insert 1; op_insert 3;
                                   op_erase 2; op_insert 1] x.
Proof.
  apply (iteration_ascending Nat.ltb ltb_irreflexive ltb_transitive ltb_total).
Defined.

Example traverse_example :
  (s ← run Nat.ltb [op_insert 2; op_insert 1; op_insert 3; op_erase 2;
                    op_insert 1] Set_new;
   traverse 3 s) = Ok [1; 3].
Proof. reflexivity. Qed.


(** *** The properties of the general development at sample calls *)

Definition sample_calls : list (@op nat) :=
  [op_insert 5; op_insert 1; op_insert 9; op_insert 3; op_erase 5;
   op_insert 7; op_insert 1].

(** A node whose right subtree is two higher than its left one, with the
    higher grandchild on the inside: [balance_node] makes the big left
    rotation. *)
Definition right_heavy : @Node_ptr nat :=
  Node 1 nullptr
       (Node 2 (Node 3 nullptr nullptr (Some 2) 20 1) nullptr (Some 1) 30 2)
       None 10 1.

Lemma balance_node_restores_balance_witness :
  ∃ n, balance_node (update_height right_heavy) = Ok n
       ∧ heights_ok n ∧ balanced n
       ∧ Nat.max 0 2 ≤ depth n
       ∧ depth n ≤ S (Nat.max 0 2)
       ∧ elements n = [10; 20; 30]
       ∧ addrs n = [1; 3; 2]
       ∧ parents_ok n None.
Proof.
  apply (balance_node_restores_balance Nat.ltb 1 nullptr
           (Node 2 (Node 3 nullptr nullptr (Some 2) 20 1) nullptr
                 (Some 1) 30 2)
           None 10 1); cbn; (lia || tauto).
Defined.

Example balance_node_example :
  balance_node (update_height right_heavy)
  = Ok (Node 3 (Node 1 nullptr nullptr (Some 3) 10 1)
               (Node 2 nullptr nullptr (Some 3) 30 1) None 20 2).
Proof. reflexivity. Qed.

Example sample_calls_stored :
  stored sample_calls 7 ∧ stored sample_calls 3 ∧ ¬ stored sample_calls 5.
Proof. cbv. intuition congruence. Qed.

Lemma insert_of_stored_value_witness :
  ∃ s s', run Nat.ltb sample_calls Set_new = Ok s
          ∧ insert Nat.ltb 7 s = Ok s'
          ∧ (stored sample_calls 7 →
             root s' = root s ∧ size s' = size s ∧ begin s' = begin s).
Proof.
  apply (insert_of_stored_value Nat.ltb ltb_irreflexive ltb_transitive
           ltb_total sample_calls 7).
Defined.

Lemma erase_of_absent_value_witness :
  ∃ s, run Nat.ltb sample_calls Set_new = Ok s
       ∧ (¬ stored sample_calls 5 → erase Nat.ltb 5 s = Ok s).
Proof.
  apply (erase_of_absent_value Nat.ltb ltb_irreflexive ltb_transitive
           ltb_total sample_calls 5).
Defined.

Lemma lower_bound_position_witness :
  ∃ s, run Nat.ltb sample_calls Set_new = Ok s
       ∧ ∀ fuel, size s < fuel →
           ∃ out, traverse fuel s = Ok out
                  ∧ lower_bound Nat.ltb fuel 4 s
                    = Ok (position (root s) (count_less Nat.ltb 4 out)).
Proof.
  apply (lower_bound_position Nat.ltb ltb_irreflexive ltb_transitive
           ltb_total sample_calls 4).
Defined.

Example lower_bound_example :
  (s ← run Nat.ltb sample_calls Set_new;
   it ← lower_bound Nat.ltb 5 4 s;
   dereference (root s) it) = Ok 7.
Proof. reflexivity. Qed.

Lemma find_position_witness :
  ∃ s, run Nat.ltb sample_calls Set_new = Ok s
       ∧ ∀ fuel, size s ≤ fuel →
           (stored sample_calls 3 →
            ∃ it, find Nat.ltb fuel 3 s = Ok it
                  ∧ it ≠ end_ s
                  ∧ dereference (root s) it = Ok 3)
           ∧ (¬ stored sample_calls 3 →
              find Nat.ltb fuel 3 s = Ok (end_ s)).
Proof.
  apply (find_position Nat.ltb ltb_irreflexive ltb_transitive
           ltb_total sample_calls 3).
Defined.

Lemma clear_then_calls_witness :
  ∃ s s' s0,
    run Nat.ltb sample_calls Set_new = Ok s
    ∧ size (clear s) = 0 ∧ empty (clear s) = true
    ∧ begin (clear s) = end_ (clear s)
    ∧ run Nat.ltb [op_insert 4; op_insert 2; op_erase 4] (clear s) = Ok s'
    ∧ run Nat.ltb [op_insert 4; op_insert 2; op_erase 4] Set_new = Ok s0
    ∧ size s' = size s0
    ∧ ∀ fuel, size s' < fuel →
        ∃ out, traverse fuel s' = Ok out ∧ traverse fuel s0 = Ok out.
Proof.
  apply (clear_then_calls Nat.ltb ltb_irreflexive ltb_transitive ltb_total
           sample_calls [op_insert 4; op_insert 2; op_erase 4]).
Defined.

Lemma set_from_range_witness :
  ∃ s, Set_from Nat.ltb [4; 2; 4; 8; 2] = Ok s
       ∧ ∀ fuel, size s < fuel →
           ∃ out, traverse fuel s = Ok out
                  ∧ StronglySorted (lt_value Nat.ltb) out
                  ∧ (∀ x, x ∈ out ↔ x ∈ [4; 2; 4; 8; 2])
                  ∧ size s = length out.
Proof.
  apply (set_from_range Nat.ltb ltb_irreflexive ltb_transitive ltb_total
           [4; 2; 4; 8; 2]).
Defined.

Example set_from_range_example :
  (s ← Set_from Nat.ltb [4; 2; 4; 8; 2]; traverse 4 s) = Ok [2; 4; 8].
Proof. reflexivity. Qed.

Lemma assign_copies_values_witness :
  ∃ other this,
    run Nat.ltb sample_calls Set_new = Ok other
    ∧ run Nat.ltb [op_insert 4; op_insert 2] Set_new = Ok this
    ∧ ∀ fuel, size other < fuel →
        ∃ s' c out, assign Nat.ltb fuel other this = Ok s'
                    ∧ Set_copy Nat.ltb fuel other = Ok c
                    ∧ traverse fuel other = Ok out
                    ∧ traverse fuel s' = Ok out
                    ∧ traverse fuel c = Ok out
                    ∧ size s' = size other ∧ size c = size other.
Proof.
  apply (assign_copies_values Nat.ltb ltb_irreflexive ltb_transitive
           ltb_total sample_calls [op_insert 4; op_insert 2]).
Defined.

End avl_set_int.
